(** * Strassen matrix multiplication over a bump-allocating scratch arena

    A shallow embedding of the [matmul] headers ([config.hpp], [matrix.hpp],
    [arena.hpp], [op_counter.hpp], [naive.hpp], [strassen.hpp]) together with
    the properties of the recursive engine: agreement with the triple-loop
    kernel, scratch budgeting, mark/rollback discipline, operation counts,
    view aliasing and behaviour on failure.

    Modelling conventions.
    - [std::size_t] and [std::uint64_t] are 64-bit: values are [Z] and every
      arithmetic operation of the source is followed by [wrap].
    - A pointer is a block identifier and a byte offset; the store maps a
      block and the byte offset of an element to the element.  Element [k] of
      a [T*] lives [k * sizeof(T)] bytes further.
    - Procedures are state transformers returning [Ok], [Throw] (a C++
      exception, with the store reached when it was thrown) or [Diverge]
      (recursion budget of the model exhausted).
    - The scalar type [T] is a parameter, with its [sizeof] and [alignof]. *)

From Stdlib Require Import ZArith Lia List Bool Ring.
Import ListNotations.
Local Open Scope Z_scope.

(** ** config.hpp *)

Definition MATMUL_ENABLE_CHECKS : bool := true.
Definition MATMUL_ENABLE_OPCOUNT : bool := true.
Definition kAlignmentBytes : Z := 64.

(** ** Machine integers *)

Definition two64 : Z := 18446744073709551616.
Definition SIZE_MAX : Z := two64 - 1.
Definition PTRDIFF_MAX : Z := 9223372036854775807.
Definition wrap (x : Z) : Z := x mod two64.

(** ** Pointers, exceptions, results *)

Record ptr : Type := mkptr { blk : Z; boff : Z }.

Definition nullptr : ptr := mkptr 0 0.

Definition ptr_add (p : ptr) (bytes : Z) : ptr := mkptr (blk p) (boff p + bytes).

Inductive exn : Type :=
| invalid_argument
| out_of_range
| bad_alloc
| overflow_error.

Inductive result (S A : Type) : Type :=
| Ok (a : A) (s : S)
| Throw (e : exn) (s : S)
| Diverge.

Arguments Ok {S A} a s.
Arguments Throw {S A} e s.
Arguments Diverge {S A}.

(** ** matrix.hpp: the view descriptor *)

Record MatrixView : Type := mkView {
  data : ptr;
  rows : Z;
  cols : Z;
  stride : Z
}.

(** ** op_counter.hpp *)

Record OpCounter : Type := mkOps { mul : Z; add : Z }.

Definition OpCounter_reset (_ : OpCounter) : OpCounter := mkOps 0 0.

(** ** arena.hpp *)

Definition kScratchAlignmentBytes : Z := 16.

(** [hwm_bytes] is a ghost field: the largest value [off_bytes_] has taken
    since [reset_capacity]. The source does not store it; it is what an
    observer polling [used_bytes()] would record as the peak. *)
Record ScratchArena : Type := mkArena {
  buf_ : ptr;
  cap_bytes_ : Z;
  off_bytes_ : Z;
  hwm_bytes : Z
}.

Definition capacity_bytes (a : ScratchArena) : Z := cap_bytes_ a.
Definition used_bytes (a : ScratchArena) : Z := off_bytes_ a.
Definition mark (a : ScratchArena) : Z := off_bytes_ a.

Definition rollback (m : Z) (a : ScratchArena) : exn + ScratchArena :=
  if m >? off_bytes_ a then inl invalid_argument
  else inr (mkArena (buf_ a) (cap_bytes_ a) m (hwm_bytes a)).

Definition align_up (x a : Z) : Z :=
  Z.land (wrap (x + wrap (a - 1))) (wrap (Z.lnot (wrap (a - 1)))).

(** ** Code parameterised by the scalar type *)

Section Scalar.

Variable T : Type.
Variable Tzero : T.                 (* T{} *)
Variables Tadd Tsub Tmul : T -> T -> T.
Variable sizeofT : Z.               (* sizeof(T) *)
Variable alignofT : Z.              (* alignof(T) *)

(** [p + k] for [p : T*]. The byte offset is not reduced modulo [2 ^ 64]:
    the definition describes pointer arithmetic that stays within the
    object, which is what [view_fits] and the index bounds guarantee
    wherever an element is read or written below. *)
Definition elem_add (p : ptr) (k : Z) : ptr := ptr_add p (k * sizeofT).

(** [MatrixView::subview], for both the mutable and the const view. *)
Definition subview (V : MatrixView) (r0 c0 rcount ccount : Z) : exn + MatrixView :=
  if MATMUL_ENABLE_CHECKS
     && ((wrap (r0 + rcount) >? rows V) || (wrap (c0 + ccount) >? cols V))
  then inl invalid_argument
  else inr (mkView (elem_add (elem_add (data V) (wrap (r0 * stride V))) c0)
                   rcount ccount (stride V)).

(** The element [data[r * stride + c]] designated by [operator()]. *)
Definition elem_ptr (V : MatrixView) (r c : Z) : ptr :=
  elem_add (data V) (wrap (wrap (r * stride V) + c)).

(** [ScratchArena::alloc_matrix]. *)
Definition alloc_matrix (nrows ncols : Z) (a : ScratchArena)
  : exn + (MatrixView * ScratchArena) :=
  if (nrows =? 0) || (ncols =? 0)
  then inr (mkView nullptr nrows ncols ncols, a)
  else
    let bytes := wrap (wrap (nrows * ncols) * sizeofT) in
    let align := Z.max kScratchAlignmentBytes alignofT in
    let aligned_off := align_up (off_bytes_ a) align in
    if wrap (aligned_off + bytes) >? cap_bytes_ a then inl bad_alloc
    else
      let ptr := ptr_add (buf_ a) aligned_off in
      let off' := wrap (aligned_off + bytes) in
      inr (mkView ptr nrows ncols ncols,
           mkArena (buf_ a) (cap_bytes_ a) off' (Z.max (hwm_bytes a) off')).

(** *** The store *)

Record state : Type := mkState {
  heap : Z -> Z -> T;        (* block, byte offset of the element *)
  next_block : Z;            (* allocator of fresh blocks *)
  arena : ScratchArena;      (* the arena passed by reference *)
  counter : OpCounter        (* the counter [ops] points to, when non-null *)
}.

Definition load (h : Z -> Z -> T) (p : ptr) : T := h (blk p) (boff p).

Definition store (h : Z -> Z -> T) (p : ptr) (v : T) : Z -> Z -> T :=
  fun b o => if (b =? blk p) && (o =? boff p) then v else h b o.

Definition M (A : Type) : Type := state -> result state A.

Definition ret {A} (a : A) : M A := fun s => Ok a s.

Definition throw {A} (e : exn) : M A := fun s => Throw e s.

Definition bind {A B} (c : M A) (f : A -> M B) : M B :=
  fun s => match c s with
           | Ok a s' => f a s'
           | Throw e s' => Throw e s'
           | Diverge => Diverge
           end.

Notation "x <- c ;; k" := (bind c (fun x => k))
  (at level 61, c at next level, right associativity).
Notation "c ;; k" := (bind c (fun _ => k))
  (at level 61, right associativity).

Definition lift {A} (r : exn + A) : M A :=
  fun s => match r with inl e => Throw e s | inr a => Ok a s end.

Definition check (violated : bool) (e : exn) : M unit :=
  if violated then throw e else ret tt.

Definition neq (x y : Z) : bool := negb (x =? y).

(** [for (i = lo; i < hi; ++i) x = body(i, x)] *)
Fixpoint for_loop {X} (cnt : nat) (i : Z) (x : X) (body : Z -> X -> M X) : M X :=
  match cnt with
  | O => ret x
  | S k => x' <- body i x ;; for_loop k (i + 1) x' body
  end.

Definition for_range {X} (lo hi : Z) (x : X) (body : Z -> X -> M X) : M X :=
  for_loop (Z.to_nat (hi - lo)) lo x body.

Definition for_each (lo hi : Z) (body : Z -> M unit) : M unit :=
  for_range lo hi tt (fun i _ => body i).

(** [MatrixView::operator()], read and write through the reference. *)
Definition view_get (V : MatrixView) (r c : Z) : M T :=
  fun s =>
    if MATMUL_ENABLE_CHECKS && ((r >=? rows V) || (c >=? cols V))
    then Throw out_of_range s
    else Ok (load (heap s) (elem_ptr V r c)) s.

Definition view_set (V : MatrixView) (r c : Z) (v : T) : M unit :=
  fun s =>
    if MATMUL_ENABLE_CHECKS && ((r >=? rows V) || (c >=? cols V))
    then Throw out_of_range s
    else Ok tt (mkState (store (heap s) (elem_ptr V r c) v)
                        (next_block s) (arena s) (counter s)).

(** [if (ops) ops->mul += k] and [if (ops) ops->add += k] under
    [MATMUL_ENABLE_OPCOUNT]. *)
Definition count_mul (ops : bool) (k : Z) : M unit :=
  fun s =>
    if MATMUL_ENABLE_OPCOUNT && ops
    then Ok tt (mkState (heap s) (next_block s) (arena s)
                        (mkOps (wrap (mul (counter s) + k)) (add (counter s))))
    else Ok tt s.

Definition count_add (ops : bool) (k : Z) : M unit :=
  fun s =>
    if MATMUL_ENABLE_OPCOUNT && ops
    then Ok tt (mkState (heap s) (next_block s) (arena s)
                        (mkOps (mul (counter s)) (wrap (add (counter s) + k))))
    else Ok tt s.

(** The arena methods on the arena held by the state. *)
Definition arena_mark : M Z := fun s => Ok (mark (arena s)) s.

Definition arena_rollback (m : Z) : M unit :=
  fun s => match rollback m (arena s) with
           | inl e => Throw e s
           | inr a => Ok tt (mkState (heap s) (next_block s) a (counter s))
           end.

Definition arena_alloc_matrix (nrows ncols : Z) : M MatrixView :=
  fun s => match alloc_matrix nrows ncols (arena s) with
           | inl e => Throw e s
           | inr (V, a) => Ok V (mkState (heap s) (next_block s) a (counter s))
           end.

(** ** aligned_alloc.hpp and the owning [Matrix] of matrix.hpp

    The process-wide byte counters are diagnostics and are left out. A
    successful [operator new] yields a fresh block. *)

Record AlignedBuffer : Type := mkBuffer { ptr_ : ptr; tracked_bytes_ : Z }.

Definition AlignedBuffer_allocate (bytes : Z) : M AlignedBuffer :=
  fun s =>
    if bytes =? 0 then Ok (mkBuffer nullptr 0) s
    else Ok (mkBuffer (mkptr (next_block s) 0) bytes)
            (mkState (heap s) (next_block s + 1) (arena s) (counter s)).

Record Matrix : Type := mkMatrix {
  rows_ : Z;
  cols_ : Z;
  stride_ : Z;
  mbuf_ : AlignedBuffer
}.

(** [Matrix(r, c)], that is [resize(r, c)] on an empty matrix. *)
Definition Matrix_new (r c : Z) : M Matrix :=
  b <- AlignedBuffer_allocate (wrap (wrap (r * c) * sizeofT)) ;;
  ret (mkMatrix r c c b).

Definition Matrix_view (X : Matrix) : MatrixView :=
  mkView (ptr_ (mbuf_ X)) (rows_ X) (cols_ X) (stride_ X).

Definition ptr_set (p : ptr) (v : T) : M unit :=
  fun s => Ok tt (mkState (store (heap s) p v) (next_block s) (arena s) (counter s)).

Definition Matrix_fill (X : Matrix) (v : T) : M unit :=
  for_each 0 (wrap (rows_ X * stride_ X)) (fun i =>
    ptr_set (elem_add (ptr_ (mbuf_ X)) i) v).

(** [ScratchArena(capacity_bytes)]. *)
Definition ScratchArena_new (capacity : Z) : M ScratchArena :=
  b <- AlignedBuffer_allocate capacity ;;
  ret (mkArena (ptr_ b) (tracked_bytes_ b) 0 0).

(** A block in which [a] is the arena in scope; the enclosing arena is back
    in scope when the block is left, normally or by an exception. *)
Definition with_arena {A} (a : ScratchArena) (body : M A) : M A :=
  fun s =>
    match body (mkState (heap s) (next_block s) a (counter s)) with
    | Ok x s' => Ok x (mkState (heap s') (next_block s') (arena s) (counter s'))
    | Throw e s' => Throw e (mkState (heap s') (next_block s') (arena s) (counter s'))
    | Diverge => Diverge
    end.

(** ** naive.hpp *)

Definition gemm_naive_impl (A B C : MatrixView) (ops : bool) : M unit :=
  check (MATMUL_ENABLE_CHECKS && neq (cols A) (rows B)) invalid_argument ;;
  check (MATMUL_ENABLE_CHECKS
         && (neq (rows C) (rows A) || neq (cols C) (cols B))) invalid_argument ;;
  let m := rows A in
  let k := cols A in
  let n := cols B in
  for_each 0 m (fun i =>
    for_each 0 n (fun j =>
      if k =? 0 then view_set C i j Tzero
      else
        a0 <- view_get A i 0 ;;
        b0 <- view_get B 0 j ;;
        count_mul ops 1 ;;
        sum <- for_range 1 k (Tmul a0 b0) (fun p sum =>
                 a <- view_get A i p ;;
                 b <- view_get B p j ;;
                 count_mul ops 1 ;;
                 count_add ops 1 ;;
                 ret (Tadd sum (Tmul a b))) ;;
        view_set C i j sum)).

Definition gemm_naive (A B C : MatrixView) (ops : bool) : M unit :=
  gemm_naive_impl A B C ops.

(** ** strassen.hpp *)

Record StrassenConfig : Type := mkConfig {
  leaf_size : Z;
  pad_to_power_of_two : bool
}.

Definition default_config : StrassenConfig := mkConfig 1 true.

Definition is_power_of_two (n : Z) : bool :=
  negb (n =? 0) && (Z.land n (wrap (n - 1)) =? 0).

(** [while (p < n) p <<= 1;] with a budget of iterations. *)
Fixpoint next_power_of_two_loop (fuel : nat) (p n : Z) : option Z :=
  if p <? n then
    match fuel with
    | O => None
    | S fuel' => next_power_of_two_loop fuel' (wrap (Z.shiftl p 1)) n
    end
  else Some p.

(** After 64 shifts [p] is 0 and stays 0: 65 iterations decide the loop. *)
Definition next_power_of_two (n : Z) : option Z :=
  if n =? 0 then Some 1 else next_power_of_two_loop 65 1 n.

(** [while (t > 1) { t >>= 1; ++levels; }]; 64 shifts empty a 64-bit [t]. *)
Fixpoint levels_loop (fuel : nat) (t levels : Z) : Z :=
  match fuel with
  | O => levels
  | S fuel' =>
    if t >? 1 then levels_loop fuel' (Z.shiftr t 1) (wrap (levels + 1))
    else levels
  end.

Definition strassen_scratch_bytes (n : Z) : exn + Z :=
  if n =? 0 then inr 0
  else
    let nn := wrap (n * n) in
    let data_bytes := wrap (wrap (3 * nn) * sizeofT) in
    let levels := levels_loop 64 n 0 in
    let align := kScratchAlignmentBytes in
    let overhead := wrap (wrap (wrap (9 * levels) * align) + 1024) in
    let total := wrap (data_bytes + overhead) in
    if total >? SIZE_MAX then inl overflow_error
    else inr total.

Definition dims_differ (A B Out : MatrixView) : bool :=
  neq (rows A) (rows B) || neq (cols A) (cols B)
  || neq (rows Out) (rows A) || neq (cols Out) (cols A).

Definition mat_add (A B Out : MatrixView) (ops : bool) : M unit :=
  check (MATMUL_ENABLE_CHECKS && dims_differ A B Out) invalid_argument ;;
  for_each 0 (rows A) (fun i =>
    for_each 0 (cols A) (fun j =>
      a <- view_get A i j ;;
      b <- view_get B i j ;;
      view_set Out i j (Tadd a b) ;;
      count_add ops 1)).

Definition mat_sub (A B Out : MatrixView) (ops : bool) : M unit :=
  check (MATMUL_ENABLE_CHECKS && dims_differ A B Out) invalid_argument ;;
  for_each 0 (rows A) (fun i =>
    for_each 0 (cols A) (fun j =>
      a <- view_get A i j ;;
      b <- view_get B i j ;;
      view_set Out i j (Tsub a b) ;;
      count_add ops 1)).

(** The const view [{V.data, m, m, V.stride}] built at the call sites. *)
Definition const_view (V : MatrixView) (m : Z) : MatrixView :=
  mkView (data V) m m (stride V).

(** The quadrant-combination loop nest of [strassen_rec]. *)
Definition combine (m : Z) (M1 M2 M3 M4 M5 M6 M7 C11 C12 C21 C22 : MatrixView)
  (ops : bool) : M unit :=
  for_each 0 m (fun i =>
    for_each 0 m (fun j =>
      m1 <- view_get M1 i j ;;
      m4 <- view_get M4 i j ;;
      let v11 := Tadd m1 m4 in
      m5 <- view_get M5 i j ;;
      let v11 := Tsub v11 m5 in
      m7 <- view_get M7 i j ;;
      let v11 := Tadd v11 m7 in
      m3 <- view_get M3 i j ;;
      m5' <- view_get M5 i j ;;
      let v12 := Tadd m3 m5' in
      m2 <- view_get M2 i j ;;
      m4' <- view_get M4 i j ;;
      let v21 := Tadd m2 m4' in
      m1' <- view_get M1 i j ;;
      m2' <- view_get M2 i j ;;
      let v22 := Tsub m1' m2' in
      m3' <- view_get M3 i j ;;
      let v22 := Tadd v22 m3' in
      m6 <- view_get M6 i j ;;
      let v22 := Tadd v22 m6 in
      count_add ops 8 ;;
      view_set C11 i j v11 ;;
      view_set C12 i j v12 ;;
      view_set C21 i j v21 ;;
      view_set C22 i j v22)).

Fixpoint strassen_rec_fuel (fuel : nat) (A B C : MatrixView) (ops : bool)
  (leaf : Z) : M unit :=
  match fuel with
  | O => fun _ => Diverge
  | S fuel' =>
    check (MATMUL_ENABLE_CHECKS
           && (neq (rows A) (cols A) || neq (rows B) (cols B)
               || neq (rows C) (cols C))) invalid_argument ;;
    check (MATMUL_ENABLE_CHECKS
           && (neq (rows A) (rows B) || neq (rows A) (rows C))) invalid_argument ;;
    let n := rows A in
    if n =? 0 then ret tt
    else if n <=? leaf then gemm_naive A B C ops
    else if neq (n mod 2) 0 then throw invalid_argument
    else
      base <- arena_mark ;;
      let m := n / 2 in
      A11 <- lift (subview A 0 0 m m) ;;
      A12 <- lift (subview A 0 m m m) ;;
      A21 <- lift (subview A m 0 m m) ;;
      A22 <- lift (subview A m m m m) ;;
      B11 <- lift (subview B 0 0 m m) ;;
      B12 <- lift (subview B 0 m m m) ;;
      B21 <- lift (subview B m 0 m m) ;;
      B22 <- lift (subview B m m m m) ;;
      C11 <- lift (subview C 0 0 m m) ;;
      C12 <- lift (subview C 0 m m m) ;;
      C21 <- lift (subview C m 0 m m) ;;
      C22 <- lift (subview C m m m m) ;;
      M1 <- arena_alloc_matrix m m ;;
      M2 <- arena_alloc_matrix m m ;;
      M3 <- arena_alloc_matrix m m ;;
      M4 <- arena_alloc_matrix m m ;;
      M5 <- arena_alloc_matrix m m ;;
      M6 <- arena_alloc_matrix m m ;;
      M7 <- arena_alloc_matrix m m ;;
      T1 <- arena_alloc_matrix m m ;;
      T2 <- arena_alloc_matrix m m ;;
      mat_add A11 A22 T1 ops ;;
      mat_add B11 B22 T2 ops ;;
      strassen_rec_fuel fuel' (const_view T1 m) (const_view T2 m) M1 ops leaf ;;
      mat_add A21 A22 T1 ops ;;
      strassen_rec_fuel fuel' (const_view T1 m) B11 M2 ops leaf ;;
      mat_sub B12 B22 T2 ops ;;
      strassen_rec_fuel fuel' A11 (const_view T2 m) M3 ops leaf ;;
      mat_sub B21 B11 T2 ops ;;
      strassen_rec_fuel fuel' A22 (const_view T2 m) M4 ops leaf ;;
      mat_add A11 A12 T1 ops ;;
      strassen_rec_fuel fuel' (const_view T1 m) B22 M5 ops leaf ;;
      mat_sub A21 A11 T1 ops ;;
      mat_add B11 B12 T2 ops ;;
      strassen_rec_fuel fuel' (const_view T1 m) (const_view T2 m) M6 ops leaf ;;
      mat_sub A12 A22 T1 ops ;;
      mat_add B21 B22 T2 ops ;;
      strassen_rec_fuel fuel' (const_view T1 m) (const_view T2 m) M7 ops leaf ;;
      combine m M1 M2 M3 M4 M5 M6 M7 C11 C12 C21 C22 ops ;;
      arena_rollback base
  end.

(** Each level halves [n], so [log2 n + 1] levels reach the base case. *)
Definition strassen_rec (A B C : MatrixView) (ops : bool) (leaf : Z) : M unit :=
  strassen_rec_fuel (S (Z.to_nat (Z.log2 (rows A)))) A B C ops leaf.

Definition gemm_strassen_pow2_prealloc (A B C : MatrixView) (ops : bool)
  (cfg : StrassenConfig) : M unit :=
  check (MATMUL_ENABLE_CHECKS && neq (cols A) (rows B)) invalid_argument ;;
  check (MATMUL_ENABLE_CHECKS
         && (neq (rows C) (rows A) || neq (cols C) (cols B))) invalid_argument ;;
  check (MATMUL_ENABLE_CHECKS
         && (neq (rows A) (cols A) || neq (rows B) (cols B)
             || neq (rows C) (cols C))) invalid_argument ;;
  check (MATMUL_ENABLE_CHECKS
         && (neq (rows A) (rows B) || neq (rows A) (rows C))) invalid_argument ;;
  check (MATMUL_ENABLE_CHECKS && negb (is_power_of_two (rows A))) invalid_argument ;;
  strassen_rec A B C ops (leaf_size cfg).

(** The wrapper [gemm_strassen], which allocates its own arena and pads to
    the next power of two, is not embedded. Its padded call
    [detail::strassen_rec<T>(Ap.view(), Bp.view(), Cp.view(), ...)] passes
    [MatrixView<T>] where the parameters are [const MatrixView<const T>&],
    and [matrix.hpp] declares no conversion between the two view types
    ([naive.hpp] writes these conversions out by hand), so the template has
    no well-formed instance; nothing in the repository calls it. *)

(** * Properties *)

(** ** Machine arithmetic *)

Lemma two64_eq : two64 = 2 ^ 64.
Proof. reflexivity. Qed.

Lemma wrap_small (x : Z) : 0 <= x < two64 -> wrap x = x.
Proof. intros H. unfold wrap. apply Z.mod_small. exact H. Qed.

Lemma wrap_range (x : Z) : 0 <= wrap x < two64.
Proof. unfold wrap. apply Z.mod_pos_bound. reflexivity. Qed.

Lemma wrap_add_l (x y : Z) : wrap (wrap x + y) = wrap (x + y).
Proof. unfold wrap. apply Zplus_mod_idemp_l. Qed.

Lemma neq_false (x y : Z) : x = y -> neq x y = false.
Proof. intros ->. unfold neq. now rewrite Z.eqb_refl. Qed.

Lemma neq_true (x y : Z) : x <> y -> neq x y = true.
Proof. intros H. unfold neq. apply Z.eqb_neq in H. now rewrite H. Qed.

Lemma neq_false_inv (x y : Z) : neq x y = false -> x = y.
Proof.
  unfold neq. intros H. apply negb_false_iff in H. now apply Z.eqb_eq.
Qed.

(** ** Store *)

Lemma load_store_same (h : Z -> Z -> T) (p : ptr) (v : T) :
  load (store h p v) p = v.
Proof. unfold load, store. now rewrite !Z.eqb_refl. Qed.

Lemma load_store_other (h : Z -> Z -> T) (p q : ptr) (v : T) :
  p <> q -> load (store h p v) q = load h q.
Proof.
  intros Hne. unfold load, store.
  destruct (Z.eqb_spec (blk q) (blk p)) as [Hb|Hb]; [|reflexivity].
  destruct (Z.eqb_spec (boff q) (boff p)) as [Ho|Ho]; [|reflexivity].
  exfalso. apply Hne. destruct p, q. simpl in *. congruence.
Qed.

(** ** Views: where the elements are *)

(** A view occupies at most [rows * stride] elements of one object. *)
Definition view_fits (V : MatrixView) : Prop :=
  0 <= rows V /\ 0 <= cols V <= stride V /\ rows V * stride V <= PTRDIFF_MAX.

(** The element of [V] at [(r, c)] without the 64-bit reduction. *)
Definition cell (V : MatrixView) (r c : Z) : ptr :=
  mkptr (blk (data V)) (boff (data V) + (r * stride V + c) * sizeofT).

Lemma index_bound (st nr r c : Z) :
  0 <= r < nr -> 0 <= c < st -> 0 <= r * st + c < nr * st.
Proof.
  intros Hr Hc.
  assert (0 <= r * st) by (apply Z.mul_nonneg_nonneg; lia).
  assert (0 <= (nr - 1 - r) * st) by (apply Z.mul_nonneg_nonneg; lia).
  lia.
Qed.

Lemma index_inj (st r c r' c' : Z) :
  0 <= c < st -> 0 <= c' < st -> r * st + c = r' * st + c' -> r = r' /\ c = c'.
Proof.
  intros Hc Hc' H.
  assert (Hr : r = r').
  { destruct (Z.lt_trichotomy r r') as [Hlt|[Heq|Hgt]]; [|exact Heq|].
    - assert (0 <= (r' - r - 1) * st) by (apply Z.mul_nonneg_nonneg; lia). lia.
    - assert (0 <= (r - r' - 1) * st) by (apply Z.mul_nonneg_nonneg; lia). lia. }
  subst r'. split; [reflexivity | lia].
Qed.

Lemma elem_ptr_cell (V : MatrixView) (r c : Z) :
  view_fits V -> 0 <= r < rows V -> 0 <= c < cols V ->
  elem_ptr V r c = cell V r c.
Proof.
  intros (Hr & Hc & Hf) Hri Hci.
  unfold elem_ptr, cell, elem_add, ptr_add. f_equal. f_equal. f_equal.
  assert (Hb : 0 <= r * stride V + c < rows V * stride V)
    by (apply index_bound; lia).
  assert (Hrs : 0 <= r * stride V <= r * stride V + c) by nia.
  unfold PTRDIFF_MAX in Hf.
  rewrite (wrap_small (r * stride V)) by (unfold two64; lia).
  apply wrap_small. unfold two64. lia.
Qed.

Lemma cell_inj (V : MatrixView) (r c r' c' : Z) :
  0 < sizeofT -> 0 <= c < stride V -> 0 <= c' < stride V ->
  cell V r c = cell V r' c' -> r = r' /\ c = c'.
Proof.
  intros Hs Hc Hc' H. unfold cell in H. injection H as H.
  apply (index_inj (stride V)); try assumption. nia.
Qed.

Lemma wrap_le (x : Z) : 0 <= x -> 0 <= wrap x <= x.
Proof.
  intros H. unfold wrap, two64. split.
  - apply Z.mod_pos_bound. reflexivity.
  - apply Z.mod_le; lia.
Qed.

Lemma in_bounds_check (V : MatrixView) (r c : Z) :
  0 <= r < rows V -> 0 <= c < cols V ->
  MATMUL_ENABLE_CHECKS && ((r >=? rows V) || (c >=? cols V)) = false.
Proof.
  intros Hr Hc. simpl.
  destruct (Z.geb_spec r (rows V)); [lia|].
  destruct (Z.geb_spec c (cols V)); [lia|]. reflexivity.
Qed.

Lemma view_get_in (V : MatrixView) (r c : Z) (s : state) :
  0 <= r < rows V -> 0 <= c < cols V ->
  view_get V r c s = Ok (load (heap s) (elem_ptr V r c)) s.
Proof. intros Hr Hc. unfold view_get. now rewrite in_bounds_check. Qed.

Lemma view_set_in (V : MatrixView) (r c : Z) (v : T) (s : state) :
  0 <= r < rows V -> 0 <= c < cols V ->
  view_set V r c v s =
  Ok tt (mkState (store (heap s) (elem_ptr V r c) v)
                 (next_block s) (arena s) (counter s)).
Proof. intros Hr Hc. unfold view_set. now rewrite in_bounds_check. Qed.

(** *** Subviews *)

Definition subview_of (V : MatrixView) (r0 c0 rcount ccount : Z) : MatrixView :=
  mkView (elem_add (elem_add (data V) (wrap (r0 * stride V))) c0)
         rcount ccount (stride V).

Lemma subview_in_bounds (V : MatrixView) (r0 c0 rcount ccount : Z) :
  0 <= r0 -> 0 <= c0 -> 0 <= rcount -> 0 <= ccount ->
  r0 + rcount <= rows V -> c0 + ccount <= cols V ->
  subview V r0 c0 rcount ccount = inr (subview_of V r0 c0 rcount ccount).
Proof.
  intros Hr0 Hc0 Hrc Hcc Hr Hc. unfold subview.
  assert (Hwr := wrap_le (r0 + rcount)). assert (Hwc := wrap_le (c0 + ccount)).
  destruct (Z.gtb_spec (wrap (r0 + rcount)) (rows V)); [lia|].
  destruct (Z.gtb_spec (wrap (c0 + ccount)) (cols V)); [lia|].
  reflexivity.
Qed.

Lemma subview_of_fits (V : MatrixView) (r0 c0 rcount ccount : Z) :
  view_fits V ->
  0 <= r0 -> 0 <= c0 -> 0 <= rcount -> 0 <= ccount ->
  r0 + rcount <= rows V -> c0 + ccount <= cols V ->
  view_fits (subview_of V r0 c0 rcount ccount).
Proof.
  intros (Hr & Hc & Hf) Hr0 Hc0 Hrc Hcc Hrb Hcb.
  unfold view_fits, subview_of. simpl.
  repeat split; try lia.
  assert (0 <= (rows V - rcount) * stride V) by (apply Z.mul_nonneg_nonneg; lia).
  lia.
Qed.

Lemma subview_of_cell (V : MatrixView) (r0 c0 rcount ccount i j : Z) :
  view_fits V ->
  0 <= r0 -> 0 <= c0 -> r0 + rcount <= rows V -> c0 + ccount <= cols V ->
  0 <= i < rcount -> 0 <= j < ccount ->
  elem_ptr (subview_of V r0 c0 rcount ccount) i j = elem_ptr V (r0 + i) (c0 + j).
Proof.
  intros HV Hr0 Hc0 Hrb Hcb Hi Hj.
  assert (HS : view_fits (subview_of V r0 c0 rcount ccount))
    by (apply subview_of_fits; solve [assumption | lia]).
  rewrite (elem_ptr_cell _ i j HS) by (simpl; lia).
  rewrite (elem_ptr_cell V) by (try assumption; lia).
  destruct HV as (Hr & Hc & Hf).
  unfold cell, subview_of, elem_add, ptr_add. simpl.
  assert (0 <= r0 * stride V) by (apply Z.mul_nonneg_nonneg; lia).
  assert (0 <= (rows V - r0) * stride V) by (apply Z.mul_nonneg_nonneg; lia).
  unfold PTRDIFF_MAX in Hf.
  rewrite (wrap_small (r0 * stride V)) by (unfold two64; lia).
  f_equal. ring.
Qed.

(** *** Powers of two *)

Lemma is_power_of_two_pow2 (k : Z) :
  0 <= k < 64 -> is_power_of_two (2 ^ k) = true.
Proof.
  intros Hk. unfold is_power_of_two.
  assert (Hp : 0 < 2 ^ k) by (apply Z.pow_pos_nonneg; lia).
  assert (Hlt : 2 ^ k < 2 ^ 64) by (apply Z.pow_lt_mono_r; lia).
  destruct (Z.eqb_spec (2 ^ k) 0); [lia|]. simpl.
  rewrite wrap_small by (rewrite two64_eq; lia).
  replace (2 ^ k - 1) with (Z.ones k) by (rewrite Z.ones_equiv; lia).
  rewrite Z.land_ones by lia. rewrite Z.mod_same by lia. reflexivity.
Qed.

Lemma is_power_of_two_inv (n : Z) :
  0 <= n < two64 -> is_power_of_two n = true -> exists k, 0 <= k < 64 /\ n = 2 ^ k.
Proof.
  intros Hn H. unfold is_power_of_two in H.
  apply andb_true_iff in H. destruct H as [Hnz Hland].
  apply negb_true_iff in Hnz. apply Z.eqb_neq in Hnz. apply Z.eqb_eq in Hland.
  rewrite wrap_small in Hland by lia.
  assert (Hpos : 0 < n) by lia.
  destruct (Z.log2_spec n Hpos) as [Hlo Hhi].
  assert (Hk0 : 0 <= Z.log2 n) by apply Z.log2_nonneg.
  exists (Z.log2 n). split.
  - split; [exact Hk0|]. apply Z.log2_lt_pow2; [lia|]. rewrite <- two64_eq. lia.
  - destruct (Z.eq_dec n (2 ^ Z.log2 n)) as [He|Hne]; [exact He|exfalso].
    assert (Hl1 : Z.log2 (n - 1) = Z.log2 n).
    { apply Z.log2_unique; [exact Hk0|]. lia. }
    assert (Hb : Z.testbit (Z.land n (n - 1)) (Z.log2 n) = true).
    { rewrite Z.land_spec. rewrite (Z.bit_log2 n Hpos).
      rewrite <- Hl1. rewrite Z.bit_log2; [reflexivity|].
      assert (0 < 2 ^ Z.log2 n) by (apply Z.pow_pos_nonneg; lia). lia. }
    rewrite Hland in Hb. rewrite Z.bits_0 in Hb. discriminate.
Qed.

Lemma is_power_of_two_false (n : Z) :
  0 <= n < two64 -> (forall k, 0 <= k -> n <> 2 ^ k) -> is_power_of_two n = false.
Proof.
  intros Hn Hnot. destruct (is_power_of_two n) eqn:E; [|reflexivity].
  destruct (is_power_of_two_inv n Hn E) as (k & Hk & Hnk).
  exfalso. apply (Hnot k); lia.
Qed.

(** ** Reasoning about procedures *)

Lemma bind_ok {A B} (c : M A) (f : A -> M B) (s s1 : state) (a : A) :
  c s = Ok a s1 -> bind c f s = f a s1.
Proof. intros H. unfold bind. now rewrite H. Qed.

Lemma ret_run {A} (a : A) (s : state) : ret a s = Ok a s.
Proof. reflexivity. Qed.

Lemma bind_throw {A B} (c : M A) (f : A -> M B) (s s1 : state) (e : exn) :
  c s = Throw e s1 -> bind c f s = Throw e s1.
Proof. intros H. unfold bind. now rewrite H. Qed.

Lemma bind_ok_inv {A B} (c : M A) (f : A -> M B) (s s2 : state) (b : B) :
  bind c f s = Ok b s2 -> exists a s1, c s = Ok a s1 /\ f a s1 = Ok b s2.
Proof.
  unfold bind. destruct (c s) as [a s1|e s1|]; intros H; try discriminate.
  now exists a, s1.
Qed.

(** *** Outcomes with a postcondition for each exit *)

Definition triple {A} (P : state -> Prop) (c : M A)
  (Q : A -> state -> Prop) (E : exn -> state -> Prop) : Prop :=
  forall s, P s ->
    match c s with
    | Ok a s' => Q a s'
    | Throw e s' => E e s'
    | Diverge => False
    end.

Lemma triple_ret {A} (P : state -> Prop) (a : A) Q E :
  (forall s, P s -> Q a s) -> triple P (ret a) Q E.
Proof. intros H s Hs. simpl. auto. Qed.

Lemma triple_throw {A} (P : state -> Prop) (e : exn) (Q : A -> state -> Prop) E :
  (forall s, P s -> E e s) -> triple P (throw e) Q E.
Proof. intros H s Hs. simpl. auto. Qed.

Lemma triple_bind {A B} (P : state -> Prop) (c : M A) (f : A -> M B)
  (R : A -> state -> Prop) (Q : B -> state -> Prop) E :
  triple P c R E -> (forall a, triple (R a) (f a) Q E) ->
  triple P (bind c f) Q E.
Proof.
  intros Hc Hf s Hs. specialize (Hc s Hs). unfold bind.
  destruct (c s) as [a s1|e s1|]; auto. apply (Hf a s1 Hc).
Qed.

Lemma triple_conseq {A} (P P' : state -> Prop) (c : M A)
  (Q Q' : A -> state -> Prop) (E E' : exn -> state -> Prop) :
  triple P' c Q' E' ->
  (forall s, P s -> P' s) -> (forall a s, Q' a s -> Q a s) ->
  (forall e s, E' e s -> E e s) ->
  triple P c Q E.
Proof.
  intros H HP HQ HE s Hs. specialize (H s (HP s Hs)).
  destruct (c s); auto.
Qed.

Lemma triple_for_loop {X} (I : Z -> X -> state -> Prop) (body : Z -> X -> M X)
  (E : exn -> state -> Prop) (cnt : nat) (lo : Z) (x : X) :
  (forall i y, lo <= i < lo + Z.of_nat cnt ->
     triple (I i y) (body i y) (fun y' => I (i + 1) y') E) ->
  triple (I lo x) (for_loop cnt lo x body) (fun y => I (lo + Z.of_nat cnt) y) E.
Proof.
  revert lo x. induction cnt as [|cnt IH]; intros lo x Hb.
  - simpl. apply triple_ret. intros s Hs. now rewrite Z.add_0_r.
  - simpl for_loop. eapply triple_bind.
    + apply Hb. lia.
    + intros y. eapply triple_conseq.
      * apply (IH (lo + 1) y). intros i z Hi. apply Hb. lia.
      * auto.
      * intros z s Hs. simpl in Hs.
        replace (lo + Z.of_nat (S cnt)) with (lo + 1 + Z.of_nat cnt) by lia.
        exact Hs.
      * auto.
Qed.

Lemma triple_for_each (I : Z -> state -> Prop) (body : Z -> M unit)
  (E : exn -> state -> Prop) (lo hi : Z) :
  lo <= hi ->
  (forall i, lo <= i < hi -> triple (I i) (body i) (fun _ => I (i + 1)) E) ->
  triple (I lo) (for_each lo hi body) (fun _ => I hi) E.
Proof.
  intros Hle Hb. unfold for_each, for_range.
  eapply triple_conseq.
  - apply (triple_for_loop (fun i _ => I i)). intros i _ Hi. apply Hb. lia.
  - auto.
  - intros u s Hs. simpl in Hs.
    replace (lo + Z.of_nat (Z.to_nat (hi - lo))) with hi in Hs by lia. exact Hs.
  - auto.
Qed.

(** *** Footprints: what a procedure may write, on every exit *)

Definition same_outside (W : ptr -> Prop) (s s' : state) : Prop :=
  arena s' = arena s /\ next_block s' = next_block s /\
  forall p, ~ W p -> load (heap s') p = load (heap s) p.

Lemma same_outside_refl (W : ptr -> Prop) (s : state) : same_outside W s s.
Proof. repeat split. Qed.

Lemma same_outside_trans (W : ptr -> Prop) (s1 s2 s3 : state) :
  same_outside W s1 s2 -> same_outside W s2 s3 -> same_outside W s1 s3.
Proof.
  intros (Ha & Hn & Hh) (Ha' & Hn' & Hh'). repeat split; try congruence.
  intros p Hp. rewrite Hh', Hh by assumption. reflexivity.
Qed.

Lemma same_outside_weaken (W W' : ptr -> Prop) (s s' : state) :
  (forall p, W p -> W' p) -> same_outside W s s' -> same_outside W' s s'.
Proof.
  intros HW (Ha & Hn & Hh). repeat split; auto.
Qed.

Definition confined {A} (W : ptr -> Prop) (c : M A) : Prop :=
  forall s, triple (fun s1 => s1 = s) c
                   (fun _ s' => same_outside W s s') (fun _ s' => same_outside W s s').

Lemma confined_ret {A} (W : ptr -> Prop) (a : A) : confined W (ret a).
Proof. intros s s1 ->. simpl. apply same_outside_refl. Qed.

Lemma confined_throw {A} (W : ptr -> Prop) (e : exn) : confined W (@throw A e).
Proof. intros s s1 ->. simpl. apply same_outside_refl. Qed.

Lemma confined_check (W : ptr -> Prop) (b : bool) (e : exn) : confined W (check b e).
Proof. destruct b; [apply confined_throw | apply confined_ret]. Qed.

Lemma confined_bind {A B} (W : ptr -> Prop) (c : M A) (f : A -> M B) :
  confined W c -> (forall a, confined W (f a)) -> confined W (bind c f).
Proof.
  intros Hc Hf s s1 ->. specialize (Hc s s eq_refl). unfold bind.
  destruct (c s) as [a s2|e s2|]; auto.
  specialize (Hf a s2 s2 eq_refl).
  destruct (f a s2) as [b s3|e s3|]; auto;
    eapply same_outside_trans; eassumption.
Qed.

Lemma confined_for_loop {X} (W : ptr -> Prop) (body : Z -> X -> M X)
  (cnt : nat) (lo : Z) (x : X) :
  (forall i y, lo <= i < lo + Z.of_nat cnt -> confined W (body i y)) ->
  confined W (for_loop cnt lo x body).
Proof.
  revert lo x. induction cnt as [|cnt IH]; intros lo x Hb.
  - apply confined_ret.
  - simpl. apply confined_bind.
    + apply Hb. lia.
    + intros y. apply IH. intros i z Hi. apply Hb. lia.
Qed.

Lemma confined_for_range {X} (W : ptr -> Prop) (body : Z -> X -> M X)
  (lo hi : Z) (x : X) :
  (forall i y, lo <= i < hi -> confined W (body i y)) ->
  confined W (for_range lo hi x body).
Proof.
  intros Hb. apply confined_for_loop. intros i y Hi. apply Hb. lia.
Qed.

Lemma confined_for_each (W : ptr -> Prop) (body : Z -> M unit) (lo hi : Z) :
  (forall i, lo <= i < hi -> confined W (body i)) ->
  confined W (for_each lo hi body).
Proof. intros Hb. apply confined_for_range. intros i _. apply Hb. Qed.

Lemma confined_view_get (W : ptr -> Prop) (V : MatrixView) (r c : Z) :
  confined W (view_get V r c).
Proof.
  intros s s1 ->. unfold view_get.
  destruct (MATMUL_ENABLE_CHECKS && _); apply same_outside_refl.
Qed.

Lemma confined_ptr_set (W : ptr -> Prop) (p : ptr) (v : T) :
  W p -> confined W (ptr_set p v).
Proof.
  intros HW s s1 ->. unfold ptr_set. repeat split. simpl.
  intros q Hq. apply load_store_other. intros ->. contradiction.
Qed.

Lemma confined_view_set (W : ptr -> Prop) (V : MatrixView) (r c : Z) (v : T) :
  (r < rows V -> c < cols V -> W (elem_ptr V r c)) ->
  confined W (view_set V r c v).
Proof.
  intros HW s s1 ->. unfold view_set. simpl.
  destruct (Z.geb_spec r (rows V)); [apply same_outside_refl|].
  destruct (Z.geb_spec c (cols V)); [apply same_outside_refl|]. simpl.
  repeat split. simpl. intros q Hq. apply load_store_other.
  intros Heq. apply Hq. rewrite <- Heq. apply HW; assumption.
Qed.

Lemma confined_count_mul (W : ptr -> Prop) (ops : bool) (k : Z) :
  confined W (count_mul ops k).
Proof.
  intros s s1 ->. unfold count_mul.
  destruct (MATMUL_ENABLE_OPCOUNT && ops); repeat split.
Qed.

Lemma confined_count_add (W : ptr -> Prop) (ops : bool) (k : Z) :
  confined W (count_add ops k).
Proof.
  intros s s1 ->. unfold count_add.
  destruct (MATMUL_ENABLE_OPCOUNT && ops); repeat split.
Qed.

Lemma confined_weaken {A} (W W' : ptr -> Prop) (c : M A) :
  (forall p, W p -> W' p) -> confined W c -> confined W' c.
Proof.
  intros HW Hc s s1 ->. specialize (Hc s s eq_refl).
  destruct (c s); auto; eapply same_outside_weaken; eassumption.
Qed.

Lemma confined_run {A} (W : ptr -> Prop) (c : M A) (s : state) :
  confined W c ->
  match c s with
  | Ok _ s' | Throw _ s' => same_outside W s s'
  | Diverge => False
  end.
Proof. intros Hc. specialize (Hc s s eq_refl). destruct (c s); auto. Qed.

(** The elements of a view. *)
Definition In_view (V : MatrixView) (p : ptr) : Prop :=
  exists r c, 0 <= r < rows V /\ 0 <= c < cols V /\ p = elem_ptr V r c.

Create HintDb confined_db.

#[local] Hint Resolve confined_ret confined_throw confined_check confined_view_get
  confined_count_mul confined_count_add : confined_db.

Ltac confined_step :=
  first
    [ apply confined_bind; [|intros ?]
    | apply confined_for_each; intros ? ?
    | apply confined_for_range; intros ? ? ?
    | apply confined_view_set; intros ? ?
    | solve [auto with confined_db] ].

Lemma In_view_intro (V : MatrixView) (r c : Z) :
  0 <= r < rows V -> 0 <= c < cols V -> In_view V (elem_ptr V r c).
Proof. intros Hr Hc. exists r, c. auto. Qed.

Lemma mat_add_confined (A B Out : MatrixView) (ops : bool) :
  confined (In_view Out) (mat_add A B Out ops).
Proof.
  unfold mat_add. repeat confined_step. apply In_view_intro; lia.
Qed.

Lemma mat_sub_confined (A B Out : MatrixView) (ops : bool) :
  confined (In_view Out) (mat_sub A B Out ops).
Proof.
  unfold mat_sub. repeat confined_step. apply In_view_intro; lia.
Qed.

Lemma gemm_naive_confined (A B C : MatrixView) (ops : bool) :
  confined (In_view C) (gemm_naive A B C ops).
Proof.
  unfold gemm_naive, gemm_naive_impl. repeat confined_step.
  destruct (cols A =? 0); repeat confined_step; apply In_view_intro; lia.
Qed.

Lemma combine_confined (m : Z) (M1 M2 M3 M4 M5 M6 M7 C11 C12 C21 C22 : MatrixView)
  (ops : bool) :
  confined (fun p => In_view C11 p \/ In_view C12 p \/ In_view C21 p \/ In_view C22 p)
           (combine m M1 M2 M3 M4 M5 M6 M7 C11 C12 C21 C22 ops).
Proof.
  unfold combine. repeat confined_step.
  - left. apply In_view_intro; lia.
  - right; left. apply In_view_intro; lia.
  - right; right; left. apply In_view_intro; lia.
  - right; right; right. apply In_view_intro; lia.
Qed.

(** *** Operation counts *)

Definition counter_ok (o : OpCounter) : Prop :=
  0 <= mul o < two64 /\ 0 <= add o < two64.

(** What [if (ops) ops->x += k] adds. *)
Definition tick (ops : bool) (k : Z) : Z :=
  if MATMUL_ENABLE_OPCOUNT && ops then k else 0.

Definition bumped (dm da : Z) (o o' : OpCounter) : Prop :=
  counter_ok o' /\ mul o' = wrap (mul o + dm) /\ add o' = wrap (add o + da).

Definition counts {A} (dm da : Z) (c : M A) : Prop :=
  forall s, counter_ok (counter s) ->
    match c s with
    | Ok _ s' => bumped dm da (counter s) (counter s')
    | _ => True
    end.

Lemma bumped_refl (o : OpCounter) : counter_ok o -> bumped 0 0 o o.
Proof.
  intros Hok. split; [exact Hok|]. destruct Hok as [Hm Ha].
  rewrite !Z.add_0_r, !wrap_small by assumption. auto.
Qed.

Lemma bumped_trans (a b a' b' : Z) (o1 o2 o3 : OpCounter) :
  bumped a b o1 o2 -> bumped a' b' o2 o3 -> bumped (a + a') (b + b') o1 o3.
Proof.
  intros (_ & Hm & Ha) (Hok & Hm' & Ha'). split; [exact Hok|].
  rewrite Hm', Ha', Hm, Ha, !wrap_add_l, !Z.add_assoc. auto.
Qed.

Lemma bumped_eq (a b a' b' : Z) (o o' : OpCounter) :
  a = a' -> b = b' -> bumped a b o o' -> bumped a' b' o o'.
Proof. now intros -> ->. Qed.

Lemma counts_eq {A} (a b a' b' : Z) (c : M A) :
  counts a b c -> a = a' -> b = b' -> counts a' b' c.
Proof. now intros H -> ->. Qed.

Lemma counts_ret {A} (a : A) : counts 0 0 (ret a).
Proof. intros s Hok. simpl. now apply bumped_refl. Qed.

Lemma counts_throw {A} (a b : Z) (e : exn) : counts a b (@throw A e).
Proof. intros s Hok. exact I. Qed.

Lemma counts_bind {A B} (a b a' b' : Z) (c : M A) (f : A -> M B) :
  counts a b c -> (forall x, counts a' b' (f x)) ->
  counts (a + a') (b + b') (bind c f).
Proof.
  intros Hc Hf s Hok. specialize (Hc s Hok). unfold bind.
  destruct (c s) as [x s1|e s1|]; auto.
  specialize (Hf x s1 (proj1 Hc)).
  destruct (f x s1) as [y s2|e s2|]; auto.
  eapply bumped_trans; eassumption.
Qed.

Lemma counts_check (b : bool) (e : exn) : counts 0 0 (check b e).
Proof. destruct b; [apply counts_throw | apply counts_ret]. Qed.

Lemma counts_for_loop {X} (a b : Z) (body : Z -> X -> M X)
  (cnt : nat) (lo : Z) (x : X) :
  (forall i y, lo <= i < lo + Z.of_nat cnt -> counts a b (body i y)) ->
  counts (Z.of_nat cnt * a) (Z.of_nat cnt * b) (for_loop cnt lo x body).
Proof.
  revert lo x. induction cnt as [|cnt IH]; intros lo x Hb.
  - simpl. apply counts_ret.
  - simpl for_loop. eapply counts_eq.
    + apply counts_bind.
      * apply Hb. lia.
      * intros y. apply IH. intros i z Hi. apply Hb. lia.
    + lia.
    + lia.
Qed.

Lemma counts_for_range {X} (a b : Z) (body : Z -> X -> M X) (lo hi : Z) (x : X) :
  lo <= hi ->
  (forall i y, lo <= i < hi -> counts a b (body i y)) ->
  counts ((hi - lo) * a) ((hi - lo) * b) (for_range lo hi x body).
Proof.
  intros Hle Hb. unfold for_range. eapply counts_eq.
  - apply counts_for_loop. intros i y Hi. apply Hb. lia.
  - rewrite Z2Nat.id by lia. reflexivity.
  - rewrite Z2Nat.id by lia. reflexivity.
Qed.

Lemma counts_for_each (a b : Z) (body : Z -> M unit) (lo hi : Z) :
  lo <= hi ->
  (forall i, lo <= i < hi -> counts a b (body i)) ->
  counts ((hi - lo) * a) ((hi - lo) * b) (for_each lo hi body).
Proof.
  intros Hle Hb. unfold for_each. apply counts_for_range; [exact Hle|].
  intros i _. apply Hb.
Qed.

Lemma counts_view_get (V : MatrixView) (r c : Z) : counts 0 0 (view_get V r c).
Proof.
  intros s Hok. unfold view_get.
  destruct (MATMUL_ENABLE_CHECKS && _); [exact I|]. now apply bumped_refl.
Qed.

Lemma counts_view_set (V : MatrixView) (r c : Z) (v : T) :
  counts 0 0 (view_set V r c v).
Proof.
  intros s Hok. unfold view_set.
  destruct (MATMUL_ENABLE_CHECKS && _); [exact I|]. now apply bumped_refl.
Qed.

Lemma counts_count_mul (ops : bool) (k : Z) : counts (tick ops k) 0 (count_mul ops k).
Proof.
  intros s Hok. unfold count_mul, tick.
  destruct (MATMUL_ENABLE_OPCOUNT && ops); [|now apply bumped_refl].
  simpl. destruct Hok as [Hm Ha]. repeat split; simpl;
    try apply wrap_range; try lia.
  rewrite Z.add_0_r, wrap_small by assumption. reflexivity.
Qed.

Lemma counts_count_add (ops : bool) (k : Z) : counts 0 (tick ops k) (count_add ops k).
Proof.
  intros s Hok. unfold count_add, tick.
  destruct (MATMUL_ENABLE_OPCOUNT && ops); [|now apply bumped_refl].
  simpl. destruct Hok as [Hm Ha]. repeat split; simpl;
    try apply wrap_range; try lia.
  rewrite Z.add_0_r, wrap_small by assumption. reflexivity.
Qed.

Lemma counts_run {A} (dm da : Z) (c : M A) (s s' : state) (a : A) :
  counts dm da c -> counter_ok (counter s) -> c s = Ok a s' ->
  bumped dm da (counter s) (counter s').
Proof. intros Hc Hok E. specialize (Hc s Hok). now rewrite E in Hc. Qed.

Lemma tick_mul (ops : bool) (k n : Z) : n * tick ops k = tick ops (n * k).
Proof. unfold tick. destruct (MATMUL_ENABLE_OPCOUNT && ops); lia. Qed.

Lemma tick_add (ops : bool) (k n : Z) : tick ops k + tick ops n = tick ops (k + n).
Proof. unfold tick. destruct (MATMUL_ENABLE_OPCOUNT && ops); lia. Qed.

Lemma tick_0 (ops : bool) : tick ops 0 = 0.
Proof. unfold tick. destruct (MATMUL_ENABLE_OPCOUNT && ops); lia. Qed.

Ltac counts_step :=
  first
    [ apply counts_bind; [|intros ?]
    | apply counts_for_each; [lia | intros ? ?]
    | apply counts_for_range; [lia | intros ? ? ?]
    | apply counts_view_get | apply counts_view_set
    | apply counts_count_mul | apply counts_count_add
    | apply counts_check | apply counts_ret ].

Ltac tick_norm :=
  unfold tick;
  try match goal with
      | |- context [MATMUL_ENABLE_OPCOUNT && ?o] =>
        destruct (MATMUL_ENABLE_OPCOUNT && o)
      end;
  try ring; try lia.

Lemma mat_add_counts (A B Out : MatrixView) (ops : bool) :
  0 <= rows A -> 0 <= cols A ->
  counts 0 (tick ops (rows A * cols A)) (mat_add A B Out ops).
Proof.
  intros Hr Hc. unfold mat_add. eapply counts_eq.
  - repeat counts_step.
  - tick_norm.
  - tick_norm.
Qed.

Lemma mat_sub_counts (A B Out : MatrixView) (ops : bool) :
  0 <= rows A -> 0 <= cols A ->
  counts 0 (tick ops (rows A * cols A)) (mat_sub A B Out ops).
Proof.
  intros Hr Hc. unfold mat_sub. eapply counts_eq.
  - repeat counts_step.
  - tick_norm.
  - tick_norm.
Qed.

Lemma combine_counts (m : Z) (M1 M2 M3 M4 M5 M6 M7 C11 C12 C21 C22 : MatrixView)
  (ops : bool) :
  0 <= m ->
  counts 0 (tick ops (8 * (m * m)))
         (combine m M1 M2 M3 M4 M5 M6 M7 C11 C12 C21 C22 ops).
Proof.
  intros Hm. unfold combine. eapply counts_eq.
  - repeat counts_step.
  - tick_norm.
  - tick_norm.
Qed.

(** The kernel on an [m x k] by [k x n] product: [k] multiplications and
    [k - 1] additions per element of the result. *)
Lemma gemm_naive_counts (A B C : MatrixView) (ops : bool) :
  0 <= rows A -> 0 <= cols A -> 0 <= cols B ->
  counts (tick ops (rows A * cols B * cols A))
         (tick ops (rows A * cols B * (if cols A =? 0 then 0 else cols A - 1)))
         (gemm_naive A B C ops).
Proof.
  intros Hm Hk Hn. unfold gemm_naive, gemm_naive_impl.
  destruct (Z.eqb_spec (cols A) 0) as [Hk0|Hk0].
  - eapply counts_eq.
    + repeat counts_step.
    + rewrite Hk0. tick_norm.
    + tick_norm.
  - eapply counts_eq.
    + repeat counts_step.
    + tick_norm.
    + tick_norm.
Qed.

(** *** Loop nests that establish a property per index pair *)

Definition no_throw : exn -> state -> Prop := fun _ _ => False.

Definition before (nr nc i j i' j' : Z) : Prop :=
  0 <= i' < nr /\ 0 <= j' < nc /\ (i' < i \/ (i' = i /\ j' < j)).

Lemma nested_loop_pointwise (nr nc : Z) (body : Z -> Z -> M unit)
  (Inv : state -> Prop) (Phi : Z -> Z -> state -> Prop) :
  0 <= nr -> 0 <= nc ->
  (forall i j, 0 <= i < nr -> 0 <= j < nc ->
     triple (fun s => Inv s /\ forall i' j', before nr nc i j i' j' -> Phi i' j' s)
            (body i j)
            (fun _ s' => Inv s' /\ Phi i j s' /\
                         forall i' j', before nr nc i j i' j' -> Phi i' j' s')
            no_throw) ->
  triple Inv
         (for_each 0 nr (fun i => for_each 0 nc (fun j => body i j)))
         (fun _ s' => Inv s' /\
                      forall i j, 0 <= i < nr -> 0 <= j < nc -> Phi i j s')
         no_throw.
Proof.
  intros Hnr Hnc Hbody.
  eapply triple_conseq.
  - apply (triple_for_each
             (fun i s => Inv s /\ forall i' j', before nr nc i 0 i' j' -> Phi i' j' s)
             _ no_throw 0 nr Hnr).
    intros i Hi. eapply triple_conseq.
    + apply (triple_for_each
               (fun j s => Inv s /\ forall i' j', before nr nc i j i' j' -> Phi i' j' s)
               _ no_throw 0 nc Hnc).
      intros j Hj. eapply triple_conseq.
      * apply (Hbody i j Hi Hj).
      * auto.
      * intros _ s (HI & Hij & Hprev). split; [exact HI|].
        intros i' j' (Hi' & Hj' & Hord).
        destruct (Z.eq_dec i' i) as [->|Hne].
        -- destruct (Z.eq_dec j' j) as [->|Hnej]; [exact Hij|].
           apply Hprev. unfold before. lia.
        -- apply Hprev. unfold before. lia.
      * auto.
    + auto.
    + intros _ s (HI & Hprev). split; [exact HI|].
      intros i' j' (Hi' & Hj' & Hord). apply Hprev. unfold before. lia.
    + auto.
  - intros s HI. split; [exact HI|]. intros i' j' (Hi' & Hj' & Hord). lia.
  - intros _ s (HI & Hprev). split; [exact HI|].
    intros i j Hi Hj. apply Hprev. unfold before. lia.
  - auto.
Qed.

(** Distinct index pairs of the view designate distinct elements. *)
Definition view_inj (V : MatrixView) : Prop :=
  forall r c r' c', 0 <= r < rows V -> 0 <= c < cols V ->
                    0 <= r' < rows V -> 0 <= c' < cols V ->
                    elem_ptr V r c = elem_ptr V r' c' -> r = r' /\ c = c'.

Lemma view_fits_inj (V : MatrixView) : 0 < sizeofT -> view_fits V -> view_inj V.
Proof.
  intros Hs HV r c r' c' Hr Hc Hr' Hc' H.
  rewrite !elem_ptr_cell in H by assumption.
  destruct HV as (_ & Hcs & _).
  apply (cell_inj V); try assumption; lia.
Qed.

Definition disjoint_views (V W : MatrixView) : Prop :=
  forall p, In_view V p -> ~ In_view W p.

(** The heap outside [W] is the heap [h0]. *)
Definition heap_outside (W : ptr -> Prop) (h0 : Z -> Z -> T) (s : state) : Prop :=
  forall p, ~ W p -> load (heap s) p = load h0 p.

(** The loop nest shared by [mat_add] and [mat_sub]. *)
Definition zip_loops (f : T -> T -> T) (A B Out : MatrixView) (ops : bool) : M unit :=
  for_each 0 (rows A) (fun i =>
    for_each 0 (cols A) (fun j =>
      a <- view_get A i j ;;
      b <- view_get B i j ;;
      view_set Out i j (f a b) ;;
      count_add ops 1)).

Lemma count_add_run (ops : bool) (k : Z) (s : state) :
  exists s', count_add ops k s = Ok tt s' /\ heap s' = heap s.
Proof.
  unfold count_add. destruct (MATMUL_ENABLE_OPCOUNT && ops); eexists; split;
    reflexivity.
Qed.

Lemma count_mul_run (ops : bool) (k : Z) (s : state) :
  exists s', count_mul ops k s = Ok tt s' /\ heap s' = heap s.
Proof.
  unfold count_mul. destruct (MATMUL_ENABLE_OPCOUNT && ops); eexists; split;
    reflexivity.
Qed.

Lemma zip_loops_values (f : T -> T -> T) (A B Out : MatrixView) (ops : bool)
  (s : state) :
  rows B = rows A -> cols B = cols A -> rows Out = rows A -> cols Out = cols A ->
  0 <= rows A -> 0 <= cols A ->
  view_inj Out -> disjoint_views A Out -> disjoint_views B Out ->
  exists s', zip_loops f A B Out ops s = Ok tt s' /\
    forall i j, 0 <= i < rows A -> 0 <= j < cols A ->
      load (heap s') (elem_ptr Out i j) =
      f (load (heap s) (elem_ptr A i j)) (load (heap s) (elem_ptr B i j)).
Proof.
  intros HrB HcB HrO HcO Hr Hc Hinj HdA HdB.
  pose (Inv := heap_outside (In_view Out) (heap s)).
  pose (Phi := fun i j (s' : state) =>
                 load (heap s') (elem_ptr Out i j) =
                 f (load (heap s) (elem_ptr A i j)) (load (heap s) (elem_ptr B i j))).
  assert (Ht := nested_loop_pointwise (rows A) (cols A)
                  (fun i j => a <- view_get A i j ;; b <- view_get B i j ;;
                              view_set Out i j (f a b) ;; count_add ops 1)
                  Inv Phi Hr Hc).
  assert (Hrun : forall t, Inv t ->
             match zip_loops f A B Out ops t with
             | Ok _ s' => Inv s' /\ forall i j, 0 <= i < rows A -> 0 <= j < cols A -> Phi i j s'
             | _ => False
             end).
  { intros t Hinv. unfold zip_loops.
    assert (Hx : triple Inv
                   (for_each 0 (rows A) (fun i => for_each 0 (cols A) (fun j =>
                      a <- view_get A i j ;; b <- view_get B i j ;;
                      view_set Out i j (f a b) ;; count_add ops 1)))
                   (fun _ s' => Inv s' /\
                      forall i j, 0 <= i < rows A -> 0 <= j < cols A -> Phi i j s')
                   no_throw).
    { apply Ht. clear Ht. intros i j Hi Hj t' (HI & Hprev).
      rewrite (bind_ok _ _ _ _ _ (view_get_in A i j t' Hi Hj)).
      rewrite (bind_ok _ _ _ _ _ (view_get_in B i j t' ltac:(lia) ltac:(lia))).
      rewrite (bind_ok _ _ _ _ _ (view_set_in Out i j _ t' ltac:(lia) ltac:(lia))).
      match goal with
      | |- context [count_add ops 1 ?st] =>
        destruct (count_add_run ops 1 st) as (t2 & E2 & Hh2)
      end.
      rewrite E2. simpl in Hh2. unfold Inv, heap_outside, Phi in *. rewrite Hh2.
      assert (HA : load (heap t') (elem_ptr A i j) = load (heap s) (elem_ptr A i j)).
      { apply HI. apply HdA. apply In_view_intro; assumption. }
      assert (HB : load (heap t') (elem_ptr B i j) = load (heap s) (elem_ptr B i j)).
      { apply HI. apply HdB. apply In_view_intro; lia. }
      split; [|split].
      - intros p Hp. rewrite load_store_other; [apply HI; exact Hp|].
        intros Heq. apply Hp. rewrite <- Heq. apply In_view_intro; lia.
      - rewrite load_store_same, HA, HB. reflexivity.
      - intros i' j' (Hi' & Hj' & Hord).
        rewrite load_store_other; [apply (Hprev i' j'); unfold before; lia|].
        intros Heq. apply Hinj in Heq; lia. }
    specialize (Hx t Hinv).
    destruct (for_each _ _ _ t); auto. }
  specialize (Hrun s (fun p _ => eq_refl)).
  destruct (zip_loops f A B Out ops s) as [[] s'| |]; try contradiction.
  exists s'. split; [reflexivity|]. apply Hrun.
Qed.

Lemma dims_differ_false (A B Out : MatrixView) :
  rows B = rows A -> cols B = cols A -> rows Out = rows A -> cols Out = cols A ->
  dims_differ A B Out = false.
Proof.
  intros H1 H2 H3 H4. unfold dims_differ.
  rewrite !neq_false by congruence. reflexivity.
Qed.

Lemma mat_add_spec (A B Out : MatrixView) (ops : bool) (s : state) :
  rows B = rows A -> cols B = cols A -> rows Out = rows A -> cols Out = cols A ->
  0 <= rows A -> 0 <= cols A ->
  view_inj Out -> disjoint_views A Out -> disjoint_views B Out ->
  counter_ok (counter s) ->
  exists s', mat_add A B Out ops s = Ok tt s' /\
    same_outside (In_view Out) s s' /\
    bumped 0 (tick ops (rows A * cols A)) (counter s) (counter s') /\
    forall i j, 0 <= i < rows A -> 0 <= j < cols A ->
      load (heap s') (elem_ptr Out i j) =
      Tadd (load (heap s) (elem_ptr A i j)) (load (heap s) (elem_ptr B i j)).
Proof.
  intros H1 H2 H3 H4 Hr Hc Hinj HdA HdB Hok.
  destruct (zip_loops_values Tadd A B Out ops s) as (s' & E & Hv); try assumption.
  assert (Erun : mat_add A B Out ops s = Ok tt s').
  { unfold mat_add. rewrite dims_differ_false by assumption. exact E. }
  exists s'. split; [exact Erun|]. split; [|split; [|exact Hv]].
  - generalize (confined_run _ _ s (mat_add_confined A B Out ops)).
    now rewrite Erun.
  - apply (counts_run _ _ _ _ _ _ (mat_add_counts A B Out ops Hr Hc) Hok Erun).
Qed.

Lemma mat_sub_spec (A B Out : MatrixView) (ops : bool) (s : state) :
  rows B = rows A -> cols B = cols A -> rows Out = rows A -> cols Out = cols A ->
  0 <= rows A -> 0 <= cols A ->
  view_inj Out -> disjoint_views A Out -> disjoint_views B Out ->
  counter_ok (counter s) ->
  exists s', mat_sub A B Out ops s = Ok tt s' /\
    same_outside (In_view Out) s s' /\
    bumped 0 (tick ops (rows A * cols A)) (counter s) (counter s') /\
    forall i j, 0 <= i < rows A -> 0 <= j < cols A ->
      load (heap s') (elem_ptr Out i j) =
      Tsub (load (heap s) (elem_ptr A i j)) (load (heap s) (elem_ptr B i j)).
Proof.
  intros H1 H2 H3 H4 Hr Hc Hinj HdA HdB Hok.
  destruct (zip_loops_values Tsub A B Out ops s) as (s' & E & Hv); try assumption.
  assert (Erun : mat_sub A B Out ops s = Ok tt s').
  { unfold mat_sub. rewrite dims_differ_false by assumption. exact E. }
  exists s'. split; [exact Erun|]. split; [|split; [|exact Hv]].
  - generalize (confined_run _ _ s (mat_sub_confined A B Out ops)).
    now rewrite Erun.
  - apply (counts_run _ _ _ _ _ _ (mat_sub_counts A B Out ops Hr Hc) Hok Erun).
Qed.

(** *** The value computed by the triple loop *)

(** [sum += f(p)] for [cnt] consecutive [p]. *)
Fixpoint dot_loop (f : Z -> T) (cnt : nat) (p : Z) (acc : T) : T :=
  match cnt with
  | O => acc
  | S cnt' => dot_loop f cnt' (p + 1) (Tadd acc (f p))
  end.

Definition naive_dot (f : Z -> T) (k : Z) : T :=
  if k =? 0 then Tzero else dot_loop f (Z.to_nat (k - 1)) 1 (f 0).

(** Element [(i, j)] of the product of the matrices [a] and [b] with inner
    dimension [k], summed in the order of [gemm_naive_impl]. *)
Definition naive_entry (a b : Z -> Z -> T) (k i j : Z) : T :=
  naive_dot (fun p => Tmul (a i p) (b p j)) k.

(** What a view shows of a heap. *)
Definition view_mat (h : Z -> Z -> T) (V : MatrixView) : Z -> Z -> T :=
  fun i j => load h (elem_ptr V i j).

Lemma dot_loop_ext (f g : Z -> T) (cnt : nat) (p : Z) (acc : T) :
  (forall q, p <= q < p + Z.of_nat cnt -> f q = g q) ->
  dot_loop f cnt p acc = dot_loop g cnt p acc.
Proof.
  revert p acc. induction cnt as [|cnt IH]; intros p acc H; [reflexivity|].
  simpl. rewrite (H p) by lia. apply IH. intros q Hq. apply H. lia.
Qed.

Lemma naive_dot_ext (f g : Z -> T) (k : Z) :
  0 <= k -> (forall q, 0 <= q < k -> f q = g q) -> naive_dot f k = naive_dot g k.
Proof.
  intros Hk H. unfold naive_dot. destruct (Z.eqb_spec k 0); [reflexivity|].
  rewrite (H 0) by lia. apply dot_loop_ext. intros q Hq. apply H. lia.
Qed.

Lemma naive_entry_ext (a a' b b' : Z -> Z -> T) (k i j : Z) :
  0 <= k ->
  (forall p, 0 <= p < k -> a i p = a' i p) ->
  (forall p, 0 <= p < k -> b p j = b' p j) ->
  naive_entry a b k i j = naive_entry a' b' k i j.
Proof.
  intros Hk Ha Hb. unfold naive_entry. apply naive_dot_ext; [exact Hk|].
  intros q Hq. now rewrite Ha, Hb.
Qed.

Lemma inner_loop_run (A B : MatrixView) (ops : bool) (i j : Z)
  (cnt : nat) (p : Z) (acc : T) (s : state) :
  0 <= i < rows A -> 0 <= j < cols B -> rows B = cols A ->
  0 <= p -> p + Z.of_nat cnt <= cols A ->
  exists s',
    for_loop cnt p acc (fun p sum =>
      a <- view_get A i p ;;
      b <- view_get B p j ;;
      count_mul ops 1 ;;
      count_add ops 1 ;;
      ret (Tadd sum (Tmul a b))) s =
    Ok (dot_loop (fun q => Tmul (view_mat (heap s) A i q) (view_mat (heap s) B q j))
                 cnt p acc) s'
    /\ heap s' = heap s.
Proof.
  intros Hi Hj HB. revert p acc s.
  induction cnt as [|cnt IH]; intros p acc s Hp Hcnt.
  - exists s. split; reflexivity.
  - simpl for_loop. unfold bind at 1.
    rewrite (bind_ok _ _ _ _ _ (view_get_in A i p s Hi ltac:(lia))).
    rewrite (bind_ok _ _ _ _ _ (view_get_in B p j s ltac:(lia) Hj)).
    destruct (count_mul_run ops 1 s) as (s1 & E1 & H1).
    rewrite (bind_ok _ _ _ _ _ E1).
    destruct (count_add_run ops 1 s1) as (s2 & E2 & H2).
    rewrite (bind_ok _ _ _ _ _ E2). rewrite ret_run.
    destruct (IH (p + 1) (Tadd acc (Tmul (load (heap s) (elem_ptr A i p))
                                         (load (heap s) (elem_ptr B p j)))) s2)
      as (s3 & E3 & H3); try lia.
    exists s3. split; [|congruence].
    rewrite E3. simpl. unfold view_mat. rewrite H2, H1. reflexivity.
Qed.

Lemma gemm_naive_values (A B C : MatrixView) (ops : bool) (s : state) :
  cols A = rows B -> rows C = rows A -> cols C = cols B ->
  0 <= rows A -> 0 <= cols A -> 0 <= cols B ->
  view_inj C -> disjoint_views A C -> disjoint_views B C ->
  exists s', gemm_naive A B C ops s = Ok tt s' /\
    forall i j, 0 <= i < rows A -> 0 <= j < cols B ->
      load (heap s') (elem_ptr C i j) =
      naive_entry (view_mat (heap s) A) (view_mat (heap s) B) (cols A) i j.
Proof.
  intros HAB HrC HcC Hm Hk Hn Hinj HdA HdB.
  pose (Inv := heap_outside (In_view C) (heap s)).
  pose (Phi := fun i j (s' : state) =>
                 load (heap s') (elem_ptr C i j) =
                 naive_entry (view_mat (heap s) A) (view_mat (heap s) B) (cols A) i j).
  assert (Hx : triple Inv
                 (for_each 0 (rows A) (fun i => for_each 0 (cols B) (fun j =>
                    if cols A =? 0 then view_set C i j Tzero
                    else
                      a0 <- view_get A i 0 ;;
                      b0 <- view_get B 0 j ;;
                      count_mul ops 1 ;;
                      sum <- for_range 1 (cols A) (Tmul a0 b0) (fun p sum =>
                               a <- view_get A i p ;;
                               b <- view_get B p j ;;
                               count_mul ops 1 ;;
                               count_add ops 1 ;;
                               ret (Tadd sum (Tmul a b))) ;;
                      view_set C i j sum)))
                 (fun _ s' => Inv s' /\
                    forall i j, 0 <= i < rows A -> 0 <= j < cols B -> Phi i j s')
                 no_throw).
  { apply nested_loop_pointwise; try assumption.
    intros i j Hi Hj t (HI & Hprev).
    assert (Hkeep : forall t1 v, heap t1 = heap t ->
              v = naive_entry (view_mat (heap s) A) (view_mat (heap s) B) (cols A) i j ->
              match view_set C i j v t1 with
              | Ok _ s' => Inv s' /\ Phi i j s' /\
                  forall i' j', before (rows A) (cols B) i j i' j' -> Phi i' j' s'
              | _ => False
              end).
    { intros t1 v Ht1 Hv.
      rewrite (view_set_in C i j v t1) by lia.
      unfold Inv, heap_outside, Phi in *. simpl. rewrite Ht1.
      split; [|split].
      - intros p Hp. rewrite load_store_other; [apply HI; exact Hp|].
        intros Heq. apply Hp. rewrite <- Heq. apply In_view_intro; lia.
      - rewrite load_store_same. exact Hv.
      - intros i' j' (Hi' & Hj' & Hord).
        rewrite load_store_other; [apply (Hprev i' j'); unfold before; lia|].
        intros Heq. apply Hinj in Heq; lia. }
    destruct (Z.eqb_spec (cols A) 0) as [Hk0|Hk0].
    - apply Hkeep; [reflexivity|].
      unfold naive_entry, naive_dot. rewrite Hk0. reflexivity.
    - rewrite (bind_ok _ _ _ _ _ (view_get_in A i 0 t Hi ltac:(lia))).
      rewrite (bind_ok _ _ _ _ _ (view_get_in B 0 j t ltac:(lia) Hj)).
      destruct (count_mul_run ops 1 t) as (t1 & E1 & H1).
      rewrite (bind_ok _ _ _ _ _ E1).
      destruct (inner_loop_run A B ops i j (Z.to_nat (cols A - 1)) 1
                  (Tmul (load (heap t) (elem_ptr A i 0)) (load (heap t) (elem_ptr B 0 j)))
                  t1) as (t2 & E2 & H2); try lia.
      unfold for_range. rewrite (bind_ok _ _ _ _ _ E2).
      apply Hkeep; [congruence|].
      assert (HrA : forall q, 0 <= q < cols A ->
                view_mat (heap t) A i q = view_mat (heap s) A i q).
      { intros q Hq. apply HI. apply HdA. apply In_view_intro; lia. }
      assert (HrB : forall q, 0 <= q < cols A ->
                view_mat (heap t) B q j = view_mat (heap s) B q j).
      { intros q Hq. apply HI. apply HdB. apply In_view_intro; lia. }
      unfold naive_entry, naive_dot.
      destruct (Z.eqb_spec (cols A) 0); [lia|].
      rewrite H1. fold (view_mat (heap t) A i 0). fold (view_mat (heap t) B 0 j).
      rewrite HrA, HrB by lia.
      apply dot_loop_ext. intros q Hq. rewrite HrA, HrB by lia. reflexivity. }
  specialize (Hx s (fun p _ => eq_refl)).
  assert (Erun : gemm_naive A B C ops s =
                 for_each 0 (rows A) (fun i => for_each 0 (cols B) (fun j =>
                    if cols A =? 0 then view_set C i j Tzero
                    else
                      a0 <- view_get A i 0 ;;
                      b0 <- view_get B 0 j ;;
                      count_mul ops 1 ;;
                      sum <- for_range 1 (cols A) (Tmul a0 b0) (fun p sum =>
                               a <- view_get A i p ;;
                               b <- view_get B p j ;;
                               count_mul ops 1 ;;
                               count_add ops 1 ;;
                               ret (Tadd sum (Tmul a b))) ;;
                      view_set C i j sum)) s).
  { unfold gemm_naive, gemm_naive_impl.
    rewrite !neq_false by congruence. reflexivity. }
  rewrite Erun.
  destruct (for_each _ _ _ s) as [[] s'| |]; try contradiction.
  exists s'. split; [reflexivity|]. apply Hx.
Qed.

Lemma gemm_naive_spec (A B C : MatrixView) (ops : bool) (s : state) :
  cols A = rows B -> rows C = rows A -> cols C = cols B ->
  0 <= rows A -> 0 <= cols A -> 0 <= cols B ->
  view_inj C -> disjoint_views A C -> disjoint_views B C ->
  counter_ok (counter s) ->
  exists s', gemm_naive A B C ops s = Ok tt s' /\
    same_outside (In_view C) s s' /\
    bumped (tick ops (rows A * cols B * cols A))
           (tick ops (rows A * cols B * (if cols A =? 0 then 0 else cols A - 1)))
           (counter s) (counter s') /\
    forall i j, 0 <= i < rows A -> 0 <= j < cols B ->
      load (heap s') (elem_ptr C i j) =
      naive_entry (view_mat (heap s) A) (view_mat (heap s) B) (cols A) i j.
Proof.
  intros HAB HrC HcC Hm Hk Hn Hinj HdA HdB Hok.
  destruct (gemm_naive_values A B C ops s) as (s' & E & Hv); try assumption.
  exists s'. split; [exact E|]. split; [|split; [|exact Hv]].
  - generalize (confined_run _ _ s (gemm_naive_confined A B C ops)).
    now rewrite E.
  - apply (counts_run _ _ _ _ _ _ (gemm_naive_counts A B C ops Hm Hk Hn) Hok E).
Qed.

(** *** The quadrant-combination loop nest *)

Definition quadrant (C : MatrixView) (m : Z) (qr qc : Z) : MatrixView :=
  subview_of C (qr * m) (qc * m) m m.

Lemma quadrant_cell (C : MatrixView) (m qr qc i j : Z) :
  view_fits C -> rows C = 2 * m -> cols C = 2 * m ->
  0 <= qr <= 1 -> 0 <= qc <= 1 -> 0 <= i < m -> 0 <= j < m ->
  elem_ptr (quadrant C m qr qc) i j = elem_ptr C (qr * m + i) (qc * m + j).
Proof.
  intros HC Hr Hc Hqr Hqc Hi Hj. unfold quadrant.
  apply subview_of_cell; try assumption; nia.
Qed.

Lemma quadrant_In_view (C : MatrixView) (m qr qc : Z) (p : ptr) :
  view_fits C -> rows C = 2 * m -> cols C = 2 * m ->
  0 <= qr <= 1 -> 0 <= qc <= 1 ->
  In_view (quadrant C m qr qc) p -> In_view C p.
Proof.
  intros HC Hr Hc Hqr Hqc (i & j & Hi & Hj & ->). simpl in Hi, Hj.
  rewrite quadrant_cell by assumption. apply In_view_intro; nia.
Qed.

Lemma quadrant_fits (C : MatrixView) (m qr qc : Z) :
  view_fits C -> rows C = 2 * m -> cols C = 2 * m -> 0 <= m ->
  0 <= qr <= 1 -> 0 <= qc <= 1 ->
  view_fits (quadrant C m qr qc).
Proof.
  intros HC Hr Hc Hm Hqr Hqc. unfold quadrant.
  apply subview_of_fits; try assumption; nia.
Qed.

Ltac ptr_neq Hinj :=
  let Heq := fresh "Heq" in
  intros Heq; apply Hinj in Heq; lia.

Lemma combine_values (m : Z) (M1 M2 M3 M4 M5 M6 M7 C : MatrixView) (ops : bool)
  (s : state) :
  0 < sizeofT -> 0 <= m ->
  view_fits C -> rows C = 2 * m -> cols C = 2 * m ->
  (forall X, In X [M1; M2; M3; M4; M5; M6; M7] ->
     rows X = m /\ cols X = m /\ disjoint_views X C) ->
  exists s',
    combine m M1 M2 M3 M4 M5 M6 M7
            (quadrant C m 0 0) (quadrant C m 0 1)
            (quadrant C m 1 0) (quadrant C m 1 1) ops s = Ok tt s' /\
    forall i j, 0 <= i < m -> 0 <= j < m ->
      let g := fun X => load (heap s) (elem_ptr X i j) in
      load (heap s') (elem_ptr C i j) =
        Tadd (Tsub (Tadd (g M1) (g M4)) (g M5)) (g M7) /\
      load (heap s') (elem_ptr C i (m + j)) = Tadd (g M3) (g M5) /\
      load (heap s') (elem_ptr C (m + i) j) = Tadd (g M2) (g M4) /\
      load (heap s') (elem_ptr C (m + i) (m + j)) =
        Tadd (Tadd (Tsub (g M1) (g M2)) (g M3)) (g M6).
Proof.
  intros Hs Hm HC HrC HcC HM.
  assert (Hinj := view_fits_inj C Hs HC).
  pose (Inv := heap_outside (In_view C) (heap s)).
  pose (Phi := fun i j (s' : state) =>
      let g := fun X => load (heap s) (elem_ptr X i j) in
      load (heap s') (elem_ptr C i j) =
        Tadd (Tsub (Tadd (g M1) (g M4)) (g M5)) (g M7) /\
      load (heap s') (elem_ptr C i (m + j)) = Tadd (g M3) (g M5) /\
      load (heap s') (elem_ptr C (m + i) j) = Tadd (g M2) (g M4) /\
      load (heap s') (elem_ptr C (m + i) (m + j)) =
        Tadd (Tadd (Tsub (g M1) (g M2)) (g M3)) (g M6)).
  assert (Hx : triple Inv
                 (combine m M1 M2 M3 M4 M5 M6 M7
                    (quadrant C m 0 0) (quadrant C m 0 1)
                    (quadrant C m 1 0) (quadrant C m 1 1) ops)
                 (fun _ s' => Inv s' /\
                    forall i j, 0 <= i < m -> 0 <= j < m -> Phi i j s')
                 no_throw).
  { unfold combine. apply nested_loop_pointwise; try assumption.
    intros i j Hi Hj t (HI & Hprev).
    assert (Hrd : forall X, In X [M1; M2; M3; M4; M5; M6; M7] ->
              view_get X i j t = Ok (load (heap s) (elem_ptr X i j)) t).
    { intros X HX. destruct (HM X HX) as (Hr & Hc & Hd).
      rewrite view_get_in by lia. f_equal.
      apply HI. apply Hd. apply In_view_intro; lia. }
    repeat match goal with
           | |- context [bind (view_get ?X i j) _ t] =>
             rewrite (bind_ok _ _ _ _ _ (Hrd X ltac:(simpl; tauto)))
           end.
    destruct (count_add_run ops 8 t) as (t1 & E1 & H1).
    rewrite (bind_ok _ _ _ _ _ E1).
    rewrite (bind_ok _ _ _ _ _ (view_set_in (quadrant C m 0 0) i j _ _ Hi Hj)).
    rewrite (bind_ok _ _ _ _ _ (view_set_in (quadrant C m 0 1) i j _ _ Hi Hj)).
    rewrite (bind_ok _ _ _ _ _ (view_set_in (quadrant C m 1 0) i j _ _ Hi Hj)).
    rewrite (view_set_in (quadrant C m 1 1) i j _ _ Hi Hj).
    rewrite !quadrant_cell by (try assumption; lia).
    replace (0 * m + i) with i by lia. replace (0 * m + j) with j by lia.
    replace (1 * m + i) with (m + i) by lia. replace (1 * m + j) with (m + j) by lia.
    unfold Inv, heap_outside, Phi in *. simpl. rewrite H1.
    split; [|split].
    - intros p Hp.
      rewrite !load_store_other; [apply HI; exact Hp| | | |];
        intros Heq; apply Hp; rewrite <- Heq; apply In_view_intro; lia.
    - repeat split.
      + rewrite !load_store_other by ptr_neq Hinj. apply load_store_same.
      + rewrite !load_store_other by ptr_neq Hinj. apply load_store_same.
      + rewrite !load_store_other by ptr_neq Hinj. apply load_store_same.
      + apply load_store_same.
    - intros i' j' (Hi' & Hj' & Hord).
      destruct (Hprev i' j') as (P1 & P2 & P3 & P4); [unfold before; lia|].
      repeat split.
      + rewrite !load_store_other by ptr_neq Hinj. exact P1.
      + rewrite !load_store_other by ptr_neq Hinj. exact P2.
      + rewrite !load_store_other by ptr_neq Hinj. exact P3.
      + rewrite !load_store_other by ptr_neq Hinj. exact P4. }
  specialize (Hx s (fun p _ => eq_refl)).
  destruct (combine _ _ _ _ _ _ _ _ _ _ _ _ _ s) as [[] s'| |]; try contradiction.
  exists s'. split; [reflexivity|]. apply Hx.
Qed.

Lemma combine_spec (m : Z) (M1 M2 M3 M4 M5 M6 M7 C : MatrixView) (ops : bool)
  (s : state) :
  0 < sizeofT -> 0 <= m ->
  view_fits C -> rows C = 2 * m -> cols C = 2 * m ->
  (forall X, In X [M1; M2; M3; M4; M5; M6; M7] ->
     rows X = m /\ cols X = m /\ disjoint_views X C) ->
  counter_ok (counter s) ->
  exists s',
    combine m M1 M2 M3 M4 M5 M6 M7
            (quadrant C m 0 0) (quadrant C m 0 1)
            (quadrant C m 1 0) (quadrant C m 1 1) ops s = Ok tt s' /\
    same_outside (In_view C) s s' /\
    bumped 0 (tick ops (8 * (m * m))) (counter s) (counter s') /\
    forall i j, 0 <= i < m -> 0 <= j < m ->
      let g := fun X => load (heap s) (elem_ptr X i j) in
      load (heap s') (elem_ptr C i j) =
        Tadd (Tsub (Tadd (g M1) (g M4)) (g M5)) (g M7) /\
      load (heap s') (elem_ptr C i (m + j)) = Tadd (g M3) (g M5) /\
      load (heap s') (elem_ptr C (m + i) j) = Tadd (g M2) (g M4) /\
      load (heap s') (elem_ptr C (m + i) (m + j)) =
        Tadd (Tadd (Tsub (g M1) (g M2)) (g M3)) (g M6).
Proof.
  intros Hs Hm HC HrC HcC HM Hok.
  destruct (combine_values m M1 M2 M3 M4 M5 M6 M7 C ops s) as (s' & E & Hv);
    try assumption.
  exists s'. split; [exact E|]. split; [|split; [|exact Hv]].
  - generalize (confined_run _ _ s
                  (combine_confined m M1 M2 M3 M4 M5 M6 M7
                     (quadrant C m 0 0) (quadrant C m 0 1)
                     (quadrant C m 1 0) (quadrant C m 1 1) ops)).
    rewrite E. apply same_outside_weaken.
    intros p [H|[H|[H|H]]];
      apply quadrant_In_view in H; solve [assumption | lia].
  - apply (counts_run _ _ _ _ _ _
             (combine_counts m M1 M2 M3 M4 M5 M6 M7 _ _ _ _ ops Hm) Hok E).
Qed.

(** ** Algebra of the seven products *)

Section Algebra.

Variable Tone : T.
Variable Topp : T -> T.
Hypothesis Tring : ring_theory Tzero Tone Tadd Tmul Tsub Topp (@eq T).

Add Ring T_ring : Tring.

(** The sum of [f 0 .. f (cnt - 1)]. *)
Fixpoint sumn (f : Z -> T) (cnt : nat) : T :=
  match cnt with
  | O => Tzero
  | S c => Tadd (sumn f c) (f (Z.of_nat c))
  end.

Lemma sumn_S (f : Z -> T) (cnt : nat) :
  sumn f (S cnt) = Tadd (sumn f cnt) (f (Z.of_nat cnt)).
Proof. reflexivity. Qed.

Lemma sumn_ext (f g : Z -> T) (cnt : nat) :
  (forall q, 0 <= q < Z.of_nat cnt -> f q = g q) -> sumn f cnt = sumn g cnt.
Proof.
  induction cnt as [|c IH]; intros H; [reflexivity|].
  rewrite !sumn_S, IH by (intros q Hq; apply H; lia).
  rewrite (H (Z.of_nat c)) by lia. reflexivity.
Qed.

Lemma sumn_shift (f : Z -> T) (cnt : nat) :
  sumn f (S cnt) = Tadd (f 0) (sumn (fun q => f (1 + q)) cnt).
Proof.
  induction cnt as [|c IH].
  - simpl. ring.
  - rewrite (sumn_S f (S c)), IH, (sumn_S _ c).
    replace (1 + Z.of_nat c) with (Z.of_nat (S c)) by lia. ring.
Qed.

Lemma dot_loop_sum (f : Z -> T) (cnt : nat) (p : Z) (acc : T) :
  dot_loop f cnt p acc = Tadd acc (sumn (fun q => f (p + q)) cnt).
Proof.
  revert p acc. induction cnt as [|c IH]; intros p acc.
  - simpl. ring.
  - simpl dot_loop. rewrite IH. rewrite sumn_shift.
    rewrite Z.add_0_r.
    rewrite (sumn_ext (fun q => f (p + 1 + q)) (fun q => f (p + (1 + q)))).
    + ring.
    + intros q _. f_equal. lia.
Qed.

Lemma naive_dot_sum (f : Z -> T) (k : Z) :
  0 <= k -> naive_dot f k = sumn f (Z.to_nat k).
Proof.
  intros Hk. unfold naive_dot. destruct (Z.eqb_spec k 0) as [->|Hne].
  - reflexivity.
  - replace (Z.to_nat k) with (S (Z.to_nat (k - 1))) by lia.
    rewrite sumn_shift, dot_loop_sum. reflexivity.
Qed.


(** Strassen's identities on the sums over the inner index: [x11 .. x22] are
    row [i] of the quadrants of the left factor, [y11 .. y22] column [j] of
    the quadrants of the right factor. *)
Section Identities.

Variables x11 x12 x21 x22 y11 y12 y21 y22 : Z -> T.

Let S (x y : Z -> T) (cnt : nat) : T := sumn (fun p => Tmul (x p) (y p)) cnt.

Let P1 := S (fun p => Tadd (x11 p) (x22 p)) (fun p => Tadd (y11 p) (y22 p)).
Let P2 := S (fun p => Tadd (x21 p) (x22 p)) y11.
Let P3 := S x11 (fun p => Tsub (y12 p) (y22 p)).
Let P4 := S x22 (fun p => Tsub (y21 p) (y11 p)).
Let P5 := S (fun p => Tadd (x11 p) (x12 p)) y22.
Let P6 := S (fun p => Tsub (x21 p) (x11 p)) (fun p => Tadd (y11 p) (y12 p)).
Let P7 := S (fun p => Tsub (x12 p) (x22 p)) (fun p => Tadd (y21 p) (y22 p)).





End Identities.

End Algebra.

(** ** The arena *)

Hypothesis sizeofT_pos : 0 < sizeofT.
Hypothesis alignofT_pow2 : exists e, 0 <= e <= 32 /\ alignofT = 2 ^ e.

(** The alignment [alloc_matrix] uses. *)
Definition scratch_align : Z := Z.max kScratchAlignmentBytes alignofT.

Lemma scratch_align_pow2 : exists e, 4 <= e <= 32 /\ scratch_align = 2 ^ e.
Proof.
  destruct alignofT_pow2 as (e & He & Ha). unfold scratch_align.
  rewrite Ha. change kScratchAlignmentBytes with (2 ^ 4).
  destruct (Z_le_gt_dec e 4) as [Hle|Hgt].
  - exists 4. split; [lia|]. apply Z.max_l. apply Z.pow_le_mono_r; lia.
  - exists e. split; [lia|]. apply Z.max_r. apply Z.pow_le_mono_r; lia.
Qed.

Lemma scratch_align_bounds : 16 <= scratch_align <= 2 ^ 32.
Proof.
  destruct scratch_align_pow2 as (e & He & ->). split.
  - change 16 with (2 ^ 4). apply Z.pow_le_mono_r; lia.
  - apply Z.pow_le_mono_r; lia.
Qed.

Lemma align_up_pow2 (x e : Z) :
  0 <= e <= 32 -> 0 <= x <= PTRDIFF_MAX ->
  align_up x (2 ^ e) = (x + (2 ^ e - 1)) / 2 ^ e * 2 ^ e.
Proof.
  intros He Hx. unfold align_up.
  assert (Ha : 0 < 2 ^ e <= 2 ^ 32).
  { split; [apply Z.pow_pos_nonneg; lia | apply Z.pow_le_mono_r; lia]. }
  change (2 ^ 32) with 4294967296 in Ha. unfold PTRDIFF_MAX in Hx.
  rewrite (wrap_small (2 ^ e - 1)) by (unfold two64; lia).
  rewrite (wrap_small (x + (2 ^ e - 1))) by (unfold two64; lia).
  rewrite Z.lnot_pred.
  set (y := x + (2 ^ e - 1)).
  assert (Hy : 0 <= y < two64) by (unfold y, two64; lia).
  unfold wrap at 1. rewrite two64_eq, <- Z.land_ones by lia.
  rewrite Z.land_assoc.
  replace (- 2 ^ e) with (Z.lnot (Z.ones e)) by (rewrite Z.ones_equiv, <- Z.sub_1_r; apply Z.lnot_pred).
  rewrite <- Z.ldiff_land, Z.ldiff_ones_r by lia.
  rewrite Z.shiftl_mul_pow2, Z.shiftr_div_pow2 by lia.
  rewrite Z.land_ones by lia. rewrite <- two64_eq.
  apply Z.mod_small.
  assert (Hd := Z.mul_div_le y (2 ^ e) ltac:(lia)).
  assert (0 <= y / 2 ^ e) by (apply Z.div_pos; lia).
  split; [apply Z.mul_nonneg_nonneg; lia | lia].
Qed.

Lemma align_up_scratch (x : Z) :
  0 <= x <= PTRDIFF_MAX ->
  x <= align_up x scratch_align <= x + (scratch_align - 1).
Proof.
  intros Hx. destruct scratch_align_pow2 as (e & He & Ha). rewrite Ha.
  rewrite align_up_pow2 by lia.
  assert (Hp : 0 < 2 ^ e) by (apply Z.pow_pos_nonneg; lia).
  set (y := x + (2 ^ e - 1)).
  assert (Hdm := Z.div_mod y (2 ^ e) ltac:(lia)).
  assert (Hm := Z.mod_pos_bound y (2 ^ e) Hp).
  unfold y in *. lia.
Qed.

(** Byte size of an [m x m] scratch matrix. *)
Definition mat_bytes (m : Z) : Z := m * m * sizeofT.

Definition arena_ok (a : ScratchArena) : Prop :=
  0 <= off_bytes_ a <= cap_bytes_ a /\ cap_bytes_ a <= PTRDIFF_MAX.

Lemma alloc_matrix_fits (m : Z) (a : ScratchArena) :
  0 < m -> mat_bytes m <= PTRDIFF_MAX -> arena_ok a ->
  off_bytes_ a + (scratch_align - 1) + mat_bytes m <= cap_bytes_ a ->
  exists ao,
    off_bytes_ a <= ao <= off_bytes_ a + (scratch_align - 1) /\
    alloc_matrix m m a =
    inr (mkView (ptr_add (buf_ a) ao) m m m,
         mkArena (buf_ a) (cap_bytes_ a) (ao + mat_bytes m)
                 (Z.max (hwm_bytes a) (ao + mat_bytes m))).
Proof.
  intros Hm Hb (Hoff & Hcap) Hfit.
  exists (align_up (off_bytes_ a) scratch_align).
  assert (Hao := align_up_scratch (off_bytes_ a) ltac:(lia)).
  split; [exact Hao|].
  unfold alloc_matrix. fold scratch_align.
  destruct (Z.eqb_spec m 0); [lia|]. simpl orb. cbv iota.
  unfold mat_bytes in *. unfold PTRDIFF_MAX in *.
  assert (Hmm : 0 < m * m <= m * m * sizeofT) by nia.
  rewrite (wrap_small (m * m)) by (unfold two64; lia).
  rewrite (wrap_small (m * m * sizeofT)) by (unfold two64; lia).
  rewrite (wrap_small (_ + _)) by (unfold two64; lia).
  destruct (Z.gtb_spec (align_up (off_bytes_ a) scratch_align + m * m * sizeofT)
                       (cap_bytes_ a)); [lia|].
  reflexivity.
Qed.

Lemma alloc_matrix_short (m : Z) (a : ScratchArena) :
  0 < m -> 4 * mat_bytes m <= PTRDIFF_MAX -> arena_ok a ->
  cap_bytes_ a < off_bytes_ a + mat_bytes m ->
  alloc_matrix m m a = inl bad_alloc.
Proof.
  intros Hm Hb (Hoff & Hcap) Hshort.
  assert (Hao := align_up_scratch (off_bytes_ a) ltac:(lia)).
  assert (Hal := scratch_align_bounds). change (2 ^ 32) with 4294967296 in Hal.
  unfold alloc_matrix. fold scratch_align.
  destruct (Z.eqb_spec m 0); [lia|]. simpl orb. cbv iota.
  unfold mat_bytes in *. unfold PTRDIFF_MAX in *.
  assert (Hmm : 0 < m * m <= m * m * sizeofT) by nia.
  rewrite (wrap_small (m * m)) by (unfold two64; lia).
  rewrite (wrap_small (m * m * sizeofT)) by (unfold two64; lia).
  rewrite (wrap_small (_ + _)) by (unfold two64; lia).
  destruct (Z.gtb_spec (align_up (off_bytes_ a) scratch_align + m * m * sizeofT)
                       (cap_bytes_ a)); [reflexivity|lia].
Qed.

(** Whatever the capacity, an allocation that succeeds moves the offset
    forward and stays within the capacity. *)
Lemma alloc_matrix_monotone (m : Z) (a a' : ScratchArena) (V : MatrixView) :
  0 <= m -> 4 * mat_bytes m <= PTRDIFF_MAX -> arena_ok a ->
  alloc_matrix m m a = inr (V, a') ->
  rows V = m /\ cols V = m /\ stride V = m /\
  (m <> 0 -> blk (data V) = blk (buf_ a)) /\
  buf_ a' = buf_ a /\ cap_bytes_ a' = cap_bytes_ a /\
  off_bytes_ a <= off_bytes_ a' /\ arena_ok a'.
Proof.
  intros Hm Hb (Hoff & Hcap) H. unfold alloc_matrix in H. fold scratch_align in H.
  destruct (Z.eqb_spec m 0) as [->|Hne].
  - simpl in H. injection H as <- <-. unfold arena_ok. repeat split; try lia.
  - simpl orb in H. cbv iota in H.
    assert (Hao := align_up_scratch (off_bytes_ a) ltac:(lia)).
    assert (Hal := scratch_align_bounds). change (2 ^ 32) with 4294967296 in Hal.
    unfold mat_bytes in *. unfold PTRDIFF_MAX in *.
    assert (Hmm : 0 < m * m <= m * m * sizeofT) by nia.
    rewrite (wrap_small (m * m)) in H by (unfold two64; lia).
    rewrite (wrap_small (m * m * sizeofT)) in H by (unfold two64; lia).
    rewrite (wrap_small (_ + _)) in H by (unfold two64; lia).
    destruct (Z.gtb_spec (align_up (off_bytes_ a) scratch_align + m * m * sizeofT)
                         (cap_bytes_ a)); [discriminate|].
    injection H as <- <-. unfold arena_ok, PTRDIFF_MAX. simpl.
    repeat split; try lia.
Qed.

(** ** What the recursion computes, allocates and counts *)

Definition madd (x y : Z -> Z -> T) : Z -> Z -> T := fun i j => Tadd (x i j) (y i j).
Definition msub (x y : Z -> Z -> T) : Z -> Z -> T := fun i j => Tsub (x i j) (y i j).

(** Quadrant [(qr, qc)] of a matrix of size [2 * m]. *)
Definition quad (a : Z -> Z -> T) (m qr qc : Z) : Z -> Z -> T :=
  fun i j => a (qr * m + i) (qc * m + j).

(** The matrix [strassen_rec] writes for operands [a] and [b] of size
    [n = 2 ^ k]: the recursion of the source on values instead of storage. *)
Fixpoint strassen_fun (k : nat) (leaf n : Z) (a b : Z -> Z -> T) : Z -> Z -> T :=
  match k with
  | O => naive_entry a b n
  | S k' =>
    if n <=? leaf then naive_entry a b n
    else
      let m := n / 2 in
      let a11 := quad a m 0 0 in let a12 := quad a m 0 1 in
      let a21 := quad a m 1 0 in let a22 := quad a m 1 1 in
      let b11 := quad b m 0 0 in let b12 := quad b m 0 1 in
      let b21 := quad b m 1 0 in let b22 := quad b m 1 1 in
      let P1 := strassen_fun k' leaf m (madd a11 a22) (madd b11 b22) in
      let P2 := strassen_fun k' leaf m (madd a21 a22) b11 in
      let P3 := strassen_fun k' leaf m a11 (msub b12 b22) in
      let P4 := strassen_fun k' leaf m a22 (msub b21 b11) in
      let P5 := strassen_fun k' leaf m (madd a11 a12) b22 in
      let P6 := strassen_fun k' leaf m (msub a21 a11) (madd b11 b12) in
      let P7 := strassen_fun k' leaf m (msub a12 a22) (madd b21 b22) in
      fun i j =>
        if i <? m then
          if j <? m then Tadd (Tsub (Tadd (P1 i j) (P4 i j)) (P5 i j)) (P7 i j)
          else Tadd (P3 i (j - m)) (P5 i (j - m))
        else
          if j <? m then Tadd (P2 (i - m) j) (P4 (i - m) j)
          else Tadd (Tadd (Tsub (P1 (i - m) (j - m)) (P2 (i - m) (j - m)))
                          (P3 (i - m) (j - m)))
                    (P6 (i - m) (j - m))
  end.

Definition agree_on (n : Z) (a a' : Z -> Z -> T) : Prop :=
  forall i j, 0 <= i < n -> 0 <= j < n -> a i j = a' i j.

Lemma agree_on_quad (m : Z) (a a' : Z -> Z -> T) (qr qc : Z) :
  0 <= m -> 0 <= qr <= 1 -> 0 <= qc <= 1 ->
  agree_on (2 * m) a a' -> agree_on m (quad a m qr qc) (quad a' m qr qc).
Proof.
  intros Hm Hqr Hqc H i j Hi Hj. unfold quad. apply H; nia.
Qed.

Lemma agree_on_madd (n : Z) (x x' y y' : Z -> Z -> T) :
  agree_on n x x' -> agree_on n y y' -> agree_on n (madd x y) (madd x' y').
Proof. intros Hx Hy i j Hi Hj. unfold madd. now rewrite Hx, Hy. Qed.

Lemma agree_on_msub (n : Z) (x x' y y' : Z -> Z -> T) :
  agree_on n x x' -> agree_on n y y' -> agree_on n (msub x y) (msub x' y').
Proof. intros Hx Hy i j Hi Hj. unfold msub. now rewrite Hx, Hy. Qed.

Lemma pow2_half (k : nat) : 2 ^ Z.of_nat (S k) / 2 = 2 ^ Z.of_nat k.
Proof.
  rewrite Nat2Z.inj_succ, Z.pow_succ_r by lia.
  rewrite Z.mul_comm. apply Z.div_mul. lia.
Qed.

Lemma pow2_double (k : nat) : 2 ^ Z.of_nat (S k) = 2 * 2 ^ Z.of_nat k.
Proof. rewrite Nat2Z.inj_succ, Z.pow_succ_r by lia. reflexivity. Qed.

Lemma pow2_pos (k : nat) : 0 < 2 ^ Z.of_nat k.
Proof. apply Z.pow_pos_nonneg; lia. Qed.

Lemma strassen_fun_ext (k : nat) (leaf : Z) (a a' b b' : Z -> Z -> T) :
  agree_on (2 ^ Z.of_nat k) a a' -> agree_on (2 ^ Z.of_nat k) b b' ->
  agree_on (2 ^ Z.of_nat k)
           (strassen_fun k leaf (2 ^ Z.of_nat k) a b)
           (strassen_fun k leaf (2 ^ Z.of_nat k) a' b').
Proof.
  revert a a' b b'. induction k as [|k IH]; intros a a' b b' Ha Hb.
  - intros i j Hi Hj. simpl strassen_fun.
    apply naive_entry_ext; [lia| |]; intros p Hp; [apply Ha | apply Hb];
      assumption.
  - assert (Hpos := pow2_pos k).
    intros i j Hi Hj. cbn [strassen_fun].
    destruct (2 ^ Z.of_nat (S k) <=? leaf).
    + apply naive_entry_ext; [lia| |]; intros p Hp; [apply Ha | apply Hb];
        assumption.
    + rewrite pow2_half. rewrite pow2_double in Ha, Hb, Hi, Hj.
      set (m := 2 ^ Z.of_nat k) in *.
      assert (Hq : forall x x' qr qc, agree_on (2 * m) x x' ->
                     0 <= qr <= 1 -> 0 <= qc <= 1 ->
                     agree_on m (quad x m qr qc) (quad x' m qr qc)).
      { intros. apply agree_on_quad; solve [assumption | lia]. }
      destruct (Z.ltb_spec i m); destruct (Z.ltb_spec j m);
        repeat (f_equal;
                try (apply IH;
                     [ repeat first [apply agree_on_madd | apply agree_on_msub
                                    | apply Hq; [assumption | lia | lia]]
                     | repeat first [apply agree_on_madd | apply agree_on_msub
                                    | apply Hq; [assumption | lia | lia]]
                     | lia | lia ])).
Qed.

(** Scratch bytes the recursion on size [2 ^ k] needs beyond the current
    offset: nine matrices per level, each preceded by at most
    [scratch_align - 1] bytes of padding. *)
Fixpoint arena_need (k : nat) (leaf : Z) : Z :=
  match k with
  | O => 0
  | S k' =>
    if 2 ^ Z.of_nat k <=? leaf then 0
    else 9 * (mat_bytes (2 ^ Z.of_nat k') + (scratch_align - 1)) + arena_need k' leaf
  end.

Lemma arena_need_nonneg (k : nat) (leaf : Z) : 0 <= arena_need k leaf.
Proof.
  induction k as [|k IH]; [simpl; lia|].
  cbn [arena_need]. destruct (_ <=? _); [lia|].
  assert (Hal := scratch_align_bounds). unfold mat_bytes.
  assert (Hp := pow2_pos k). nia.
Qed.

(** The counts of bench.cpp's [ops_naive] and [ops_strassen], on integers. *)
Definition naive_mul_count (n : Z) : Z := n * n * n.
Definition naive_add_count (n : Z) : Z := n * n * (if n =? 0 then 0 else n - 1).

Fixpoint strassen_mul_count (k : nat) (leaf n : Z) : Z :=
  match k with
  | O => naive_mul_count n
  | S k' =>
    if n <=? leaf then naive_mul_count n
    else 7 * strassen_mul_count k' leaf (n / 2)
  end.

Fixpoint strassen_add_count (k : nat) (leaf n : Z) : Z :=
  match k with
  | O => naive_add_count n
  | S k' =>
    if n <=? leaf then naive_add_count n
    else 7 * strassen_add_count k' leaf (n / 2) + 18 * ((n / 2) * (n / 2))
  end.

(** The part of the arena buffer at and after the current offset. *)
Definition scratch (a : ScratchArena) (p : ptr) : Prop :=
  blk p = blk (buf_ a) /\ boff (buf_ a) + off_bytes_ a <= boff p.

(** The view [V] shows the matrix [X] in state [t]. *)
Definition shows (t : state) (V : MatrixView) (X : Z -> Z -> T) : Prop :=
  forall i j, 0 <= i < rows V -> 0 <= j < cols V ->
    load (heap t) (elem_ptr V i j) = X i j.

Lemma shows_frame (W : ptr -> Prop) (t t' : state) (V : MatrixView)
  (X : Z -> Z -> T) :
  (forall p, ~ W p -> load (heap t') p = load (heap t) p) ->
  (forall p, In_view V p -> ~ W p) ->
  shows t V X -> shows t' V X.
Proof.
  intros Hf Hd Hs i j Hi Hj. rewrite Hf; [apply Hs; assumption|].
  apply Hd. apply In_view_intro; assumption.
Qed.

Lemma shows_agree (t : state) (V : MatrixView) (X : Z -> Z -> T) (n : Z) :
  rows V = n -> cols V = n -> shows t V X -> agree_on n (view_mat (heap t) V) X.
Proof. intros Hr Hc H i j Hi Hj. apply H; lia. Qed.

(** ** One level of the recursion *)

(** The recursive case of [strassen_rec], with the recursive call as a
    parameter. *)
Definition strassen_body (rec : MatrixView -> MatrixView -> MatrixView -> M unit)
  (A B C : MatrixView) (ops : bool) : M unit :=
  base <- arena_mark ;;
  let m := rows A / 2 in
  A11 <- lift (subview A 0 0 m m) ;;
  A12 <- lift (subview A 0 m m m) ;;
  A21 <- lift (subview A m 0 m m) ;;
  A22 <- lift (subview A m m m m) ;;
  B11 <- lift (subview B 0 0 m m) ;;
  B12 <- lift (subview B 0 m m m) ;;
  B21 <- lift (subview B m 0 m m) ;;
  B22 <- lift (subview B m m m m) ;;
  C11 <- lift (subview C 0 0 m m) ;;
  C12 <- lift (subview C 0 m m m) ;;
  C21 <- lift (subview C m 0 m m) ;;
  C22 <- lift (subview C m m m m) ;;
  M1 <- arena_alloc_matrix m m ;;
  M2 <- arena_alloc_matrix m m ;;
  M3 <- arena_alloc_matrix m m ;;
  M4 <- arena_alloc_matrix m m ;;
  M5 <- arena_alloc_matrix m m ;;
  M6 <- arena_alloc_matrix m m ;;
  M7 <- arena_alloc_matrix m m ;;
  T1 <- arena_alloc_matrix m m ;;
  T2 <- arena_alloc_matrix m m ;;
  mat_add A11 A22 T1 ops ;;
  mat_add B11 B22 T2 ops ;;
  rec (const_view T1 m) (const_view T2 m) M1 ;;
  mat_add A21 A22 T1 ops ;;
  rec (const_view T1 m) B11 M2 ;;
  mat_sub B12 B22 T2 ops ;;
  rec A11 (const_view T2 m) M3 ;;
  mat_sub B21 B11 T2 ops ;;
  rec A22 (const_view T2 m) M4 ;;
  mat_add A11 A12 T1 ops ;;
  rec (const_view T1 m) B22 M5 ;;
  mat_sub A21 A11 T1 ops ;;
  mat_add B11 B12 T2 ops ;;
  rec (const_view T1 m) (const_view T2 m) M6 ;;
  mat_sub A12 A22 T1 ops ;;
  mat_add B21 B22 T2 ops ;;
  rec (const_view T1 m) (const_view T2 m) M7 ;;
  combine m M1 M2 M3 M4 M5 M6 M7 C11 C12 C21 C22 ops ;;
  arena_rollback base.

Lemma strassen_rec_fuel_S (fuel : nat) (A B C : MatrixView) (ops : bool) (leaf : Z) :
  strassen_rec_fuel (S fuel) A B C ops leaf =
  (check (MATMUL_ENABLE_CHECKS
          && (neq (rows A) (cols A) || neq (rows B) (cols B)
              || neq (rows C) (cols C))) invalid_argument ;;
   check (MATMUL_ENABLE_CHECKS
          && (neq (rows A) (rows B) || neq (rows A) (rows C))) invalid_argument ;;
   if rows A =? 0 then ret tt
   else if rows A <=? leaf then gemm_naive A B C ops
   else if neq (rows A mod 2) 0 then throw invalid_argument
   else strassen_body (fun X Y D => strassen_rec_fuel fuel X Y D ops leaf)
                      A B C ops).
Proof. reflexivity. Qed.

Lemma lift_subview (V : MatrixView) (m r0 c0 qr qc : Z) (s : state) :
  r0 = qr * m -> c0 = qc * m -> 0 <= m -> 0 <= qr <= 1 -> 0 <= qc <= 1 ->
  rows V = 2 * m -> cols V = 2 * m ->
  lift (subview V r0 c0 m m) s = Ok (quadrant V m qr qc) s.
Proof.
  intros -> -> Hm Hqr Hqc Hr Hc. unfold lift.
  rewrite subview_in_bounds by nia. reflexivity.
Qed.

Lemma arena_view_fits (p : ptr) (m : Z) :
  0 <= m -> mat_bytes m <= PTRDIFF_MAX -> view_fits (mkView p m m m).
Proof.
  intros Hm Hb. unfold view_fits, mat_bytes in *. simpl.
  repeat split; try lia. assert (0 <= m * m) by nia. nia.
Qed.

Lemma arena_view_region (buf : ptr) (ao m : Z) (p : ptr) :
  0 <= m -> mat_bytes m <= PTRDIFF_MAX ->
  In_view (mkView (ptr_add buf ao) m m m) p ->
  blk p = blk buf /\ boff buf + ao <= boff p < boff buf + ao + mat_bytes m.
Proof.
  intros Hm Hb (i & j & Hi & Hj & ->). simpl in Hi, Hj.
  rewrite elem_ptr_cell by (try apply arena_view_fits; simpl; assumption).
  unfold cell, mat_bytes. simpl.
  assert (Hij := index_bound m m i j Hi Hj).
  split; [reflexivity|]. nia.
Qed.

Lemma arena_alloc_at (m o hw cap : Z) (buf : ptr) (t : state) :
  arena t = mkArena buf cap o hw ->
  0 < m -> mat_bytes m <= PTRDIFF_MAX -> 0 <= o -> cap <= PTRDIFF_MAX ->
  o + (scratch_align - 1) + mat_bytes m <= cap ->
  exists ao t',
    arena_alloc_matrix m m t = Ok (mkView (ptr_add buf ao) m m m) t' /\
    o <= ao <= o + (scratch_align - 1) /\
    heap t' = heap t /\ next_block t' = next_block t /\ counter t' = counter t /\
    arena t' = mkArena buf cap (ao + mat_bytes m) (Z.max hw (ao + mat_bytes m)).
Proof.
  intros Har Hm Hb Ho Hcap Hfit.
  assert (Hal := scratch_align_bounds).
  assert (Hmb : 0 <= mat_bytes m) by (unfold mat_bytes; nia).
  assert (Hok : arena_ok (arena t))
    by (rewrite Har; unfold arena_ok; simpl; lia).
  assert (Hfit' : off_bytes_ (arena t) + (scratch_align - 1) + mat_bytes m
                  <= cap_bytes_ (arena t)) by (rewrite Har; simpl; lia).
  destruct (alloc_matrix_fits m (arena t) Hm Hb Hok Hfit') as (ao & Hao & E).
  rewrite Har in Hao, E. simpl in Hao, E.
  exists ao. eexists. unfold arena_alloc_matrix. rewrite Har, E.
  split; [reflexivity|]. simpl. auto.
Qed.

(** What is known while the seven products are being computed: the arena
    stands at [o9] after the nine allocations, the counter has advanced by
    [dm] and [da], and nothing outside the scratch of [s0] has changed. *)
Definition level (s0 : state) (o9 hwb dm da : Z) (t : state) : Prop :=
  buf_ (arena t) = buf_ (arena s0) /\
  cap_bytes_ (arena t) = cap_bytes_ (arena s0) /\
  off_bytes_ (arena t) = o9 /\
  hwm_bytes (arena s0) <= hwm_bytes (arena t) <= hwb /\
  next_block t = next_block s0 /\
  bumped dm da (counter s0) (counter t) /\
  (forall p, ~ scratch (arena s0) p -> load (heap t) p = load (heap s0) p).

Lemma level_shows_quadrant (s0 : state) (o9 hwb dm da : Z) (t : state)
  (V : MatrixView) (m qr qc : Z) :
  level s0 o9 hwb dm da t ->
  view_fits V -> rows V = 2 * m -> cols V = 2 * m ->
  0 <= qr <= 1 -> 0 <= qc <= 1 ->
  (forall p, In_view V p -> ~ scratch (arena s0) p) ->
  shows t (quadrant V m qr qc) (quad (view_mat (heap s0) V) m qr qc).
Proof.
  intros (_ & _ & _ & _ & _ & _ & Hfr) HV Hr Hc Hqr Hqc Hout i j Hi Hj.
  simpl in Hi, Hj. unfold quad, view_mat.
  rewrite quadrant_cell by assumption.
  apply Hfr. apply Hout. apply In_view_intro; nia.
Qed.

Lemma level_zip (f : T -> T -> T) (zip : MatrixView -> MatrixView -> MatrixView -> bool -> M unit)
  (s0 : state) (o9 hwb dm da m : Z) (t : state) (X Y Out : MatrixView)
  (x y : Z -> Z -> T) (ops : bool) :
  (forall A B O s, rows B = rows A -> cols B = cols A ->
     rows O = rows A -> cols O = cols A -> 0 <= rows A -> 0 <= cols A ->
     view_inj O -> disjoint_views A O -> disjoint_views B O ->
     counter_ok (counter s) ->
     exists s', zip A B O ops s = Ok tt s' /\
       same_outside (In_view O) s s' /\
       bumped 0 (tick ops (rows A * cols A)) (counter s) (counter s') /\
       forall i j, 0 <= i < rows A -> 0 <= j < cols A ->
         load (heap s') (elem_ptr O i j) =
         f (load (heap s) (elem_ptr A i j)) (load (heap s) (elem_ptr B i j))) ->
  level s0 o9 hwb dm da t ->
  0 <= m ->
  rows X = m -> cols X = m -> rows Y = m -> cols Y = m ->
  rows Out = m -> cols Out = m -> view_fits Out ->
  (forall p, In_view Out p -> scratch (arena s0) p) ->
  disjoint_views X Out -> disjoint_views Y Out ->
  shows t X x -> shows t Y y ->
  exists t', zip X Y Out ops t = Ok tt t' /\
    level s0 o9 hwb dm (da + tick ops (m * m)) t' /\
    shows t' Out (fun i j => f (x i j) (y i j)) /\
    (forall p, ~ In_view Out p -> load (heap t') p = load (heap t) p).
Proof.
  intros Hzip (Hb & Hc & Ho & Hh & Hn & Hcnt & Hfr) Hm HrX HcX HrY HcY HrO HcO
         HfO HOs HdX HdY HsX HsY.
  destruct (Hzip X Y Out t) as (t' & E & (Har & Hnb & Hfr') & Hbump & Hv);
    try lia; try assumption.
  { apply view_fits_inj; assumption. }
  { apply Hcnt. }
  exists t'. split; [exact E|]. split; [|split; [|exact Hfr']].
  - unfold level. rewrite Har, Hnb.
    split; [exact Hb|]. split; [exact Hc|]. split; [exact Ho|].
    split; [exact Hh|]. split; [exact Hn|]. split.
    + eapply bumped_eq; [| |apply (bumped_trans _ _ _ _ _ _ _ Hcnt Hbump)];
        [lia | rewrite HrX, HcX; reflexivity].
    + intros p Hp. rewrite Hfr'; [apply Hfr; exact Hp|].
      intros Hin. apply Hp. apply HOs. exact Hin.
  - intros i j Hi Hj. rewrite Hv by lia.
    rewrite HsX, HsY by lia. reflexivity.
Qed.

(** The contract of [strassen_rec] on operands of size [2 ^ k]. *)
Definition rec_ok (k : nat) (leaf : Z) (ops : bool)
  (c : MatrixView -> MatrixView -> MatrixView -> M unit) : Prop :=
  forall (A B C : MatrixView) (s : state),
    let n := 2 ^ Z.of_nat k in
    rows A = n -> cols A = n -> rows B = n -> cols B = n ->
    rows C = n -> cols C = n ->
    view_fits A -> view_fits B -> view_fits C ->
    mat_bytes n <= PTRDIFF_MAX ->
    arena_ok (arena s) ->
    off_bytes_ (arena s) + arena_need k leaf <= cap_bytes_ (arena s) ->
    counter_ok (counter s) ->
    (forall p, In_view A p -> ~ In_view C p /\ ~ scratch (arena s) p) ->
    (forall p, In_view B p -> ~ In_view C p /\ ~ scratch (arena s) p) ->
    (forall p, In_view C p -> ~ scratch (arena s) p) ->
    exists s', c A B C s = Ok tt s' /\
      buf_ (arena s') = buf_ (arena s) /\
      cap_bytes_ (arena s') = cap_bytes_ (arena s) /\
      off_bytes_ (arena s') = off_bytes_ (arena s) /\
      hwm_bytes (arena s) <= hwm_bytes (arena s')
        <= Z.max (hwm_bytes (arena s)) (off_bytes_ (arena s) + arena_need k leaf) /\
      next_block s' = next_block s /\
      bumped (tick ops (strassen_mul_count k leaf n))
             (tick ops (strassen_add_count k leaf n))
             (counter s) (counter s') /\
      (forall p, ~ (In_view C p \/ scratch (arena s) p) ->
                 load (heap s') p = load (heap s) p) /\
      shows s' C (strassen_fun k leaf n (view_mat (heap s) A) (view_mat (heap s) B)).

(** The arena buffer of [s0] from offset [o] on. *)
Definition scratch_from (s0 : state) (o : Z) (p : ptr) : Prop :=
  blk p = blk (buf_ (arena s0)) /\ boff (buf_ (arena s0)) + o <= boff p.

Lemma level_rec (k : nat) (leaf : Z) (ops : bool)
  (rec : MatrixView -> MatrixView -> MatrixView -> M unit)
  (s0 : state) (o9 hwb dm da : Z) (t : state) (X Y D : MatrixView)
  (x y : Z -> Z -> T) :
  rec_ok k leaf ops rec ->
  level s0 o9 hwb dm da t ->
  rows X = 2 ^ Z.of_nat k -> cols X = 2 ^ Z.of_nat k ->
  rows Y = 2 ^ Z.of_nat k -> cols Y = 2 ^ Z.of_nat k ->
  rows D = 2 ^ Z.of_nat k -> cols D = 2 ^ Z.of_nat k ->
  view_fits X -> view_fits Y -> view_fits D ->
  mat_bytes (2 ^ Z.of_nat k) <= PTRDIFF_MAX ->
  off_bytes_ (arena s0) <= o9 -> 0 <= off_bytes_ (arena s0) ->
  cap_bytes_ (arena s0) <= PTRDIFF_MAX ->
  o9 + arena_need k leaf <= cap_bytes_ (arena s0) ->
  o9 + arena_need k leaf <= hwb ->
  (forall p, In_view X p -> ~ In_view D p /\ ~ scratch_from s0 o9 p) ->
  (forall p, In_view Y p -> ~ In_view D p /\ ~ scratch_from s0 o9 p) ->
  (forall p, In_view D p -> ~ scratch_from s0 o9 p /\ scratch (arena s0) p) ->
  shows t X x -> shows t Y y ->
  exists t', rec X Y D t = Ok tt t' /\
    level s0 o9 hwb (dm + tick ops (strassen_mul_count k leaf (2 ^ Z.of_nat k)))
                    (da + tick ops (strassen_add_count k leaf (2 ^ Z.of_nat k))) t' /\
    shows t' D (strassen_fun k leaf (2 ^ Z.of_nat k) x y) /\
    (forall p, ~ (In_view D p \/ scratch_from s0 o9 p) ->
               load (heap t') p = load (heap t) p).
Proof.
  intros Hrec (Hb & Hc & Ho & Hh & Hn & Hcnt & Hfr)
         HrX HcX HrY HcY HrZ HcZ HfX HfY HfZ Hbytes Hoff Hoff0 Hcap Hneed Hhwb
         HsepX HsepY HsepZ HsX HsY.
  assert (Hneed0 := arena_need_nonneg k leaf).
  assert (Hscr : forall p, scratch (arena t) p <-> scratch_from s0 o9 p).
  { intros p. unfold scratch, scratch_from. rewrite Hb, Ho. tauto. }
  destruct (Hrec X Y D t) as
      (t' & E & Hb' & Hc' & Ho' & Hh' & Hn' & Hcnt' & Hfr' & Hv);
    try assumption.
  - unfold arena_ok. rewrite Hc, Ho. lia.
  - rewrite Hc, Ho. exact Hneed.
  - apply Hcnt.
  - intros p Hp. rewrite Hscr. apply HsepX. exact Hp.
  - intros p Hp. rewrite Hscr. apply HsepY. exact Hp.
  - intros p Hp. rewrite Hscr. apply HsepZ. exact Hp.
  - assert (Hfr2 : forall p, ~ (In_view D p \/ scratch_from s0 o9 p) ->
                     load (heap t') p = load (heap t) p).
    { intros p Hp. apply Hfr'. rewrite Hscr. exact Hp. }
    exists t'. split; [exact E|]. split; [|split; [|exact Hfr2]].
    + unfold level.
      split; [congruence|]. split; [congruence|]. split; [congruence|].
      split; [rewrite Ho in Hh'; lia|]. split; [congruence|]. split.
      * apply (bumped_trans _ _ _ _ _ _ _ Hcnt Hcnt').
      * intros p Hp. rewrite Hfr2; [apply Hfr; exact Hp|].
        intros [Hin|(Hblk & Hlo)]; apply Hp.
        -- apply HsepZ. exact Hin.
        -- unfold scratch. split; [exact Hblk|lia].
    + intros i j Hi Hj. rewrite Hv by assumption.
      apply strassen_fun_ext; try lia.
      * apply shows_agree; assumption.
      * apply shows_agree; assumption.
Qed.

Lemma arena_need_S (k : nat) (leaf : Z) :
  leaf < 2 ^ Z.of_nat (S k) ->
  arena_need (S k) leaf =
  9 * (mat_bytes (2 ^ Z.of_nat k) + (scratch_align - 1)) + arena_need k leaf.
Proof.
  intros H. cbn [arena_need].
  destruct (Z.leb_spec (2 ^ Z.of_nat (S k)) leaf); [lia|reflexivity].
Qed.

Lemma strassen_mul_count_S (k : nat) (leaf n : Z) :
  leaf < n ->
  strassen_mul_count (S k) leaf n = 7 * strassen_mul_count k leaf (n / 2).
Proof.
  intros H. cbn [strassen_mul_count].
  destruct (Z.leb_spec n leaf); [lia|reflexivity].
Qed.

Lemma strassen_add_count_S (k : nat) (leaf n : Z) :
  leaf < n ->
  strassen_add_count (S k) leaf n =
  7 * strassen_add_count k leaf (n / 2) + 18 * ((n / 2) * (n / 2)).
Proof.
  intros H. cbn [strassen_add_count].
  destruct (Z.leb_spec n leaf); [lia|reflexivity].
Qed.

Lemma strassen_fun_S (k : nat) (leaf m : Z) (a b : Z -> Z -> T) (i j : Z) :
  leaf < 2 * m ->
  strassen_fun (S k) leaf (2 * m) a b i j =
  let a11 := quad a m 0 0 in let a12 := quad a m 0 1 in
  let a21 := quad a m 1 0 in let a22 := quad a m 1 1 in
  let b11 := quad b m 0 0 in let b12 := quad b m 0 1 in
  let b21 := quad b m 1 0 in let b22 := quad b m 1 1 in
  let P1 := strassen_fun k leaf m (madd a11 a22) (madd b11 b22) in
  let P2 := strassen_fun k leaf m (madd a21 a22) b11 in
  let P3 := strassen_fun k leaf m a11 (msub b12 b22) in
  let P4 := strassen_fun k leaf m a22 (msub b21 b11) in
  let P5 := strassen_fun k leaf m (madd a11 a12) b22 in
  let P6 := strassen_fun k leaf m (msub a21 a11) (madd b11 b12) in
  let P7 := strassen_fun k leaf m (msub a12 a22) (madd b21 b22) in
  if i <? m then
    if j <? m then Tadd (Tsub (Tadd (P1 i j) (P4 i j)) (P5 i j)) (P7 i j)
    else Tadd (P3 i (j - m)) (P5 i (j - m))
  else
    if j <? m then Tadd (P2 (i - m) j) (P4 (i - m) j)
    else Tadd (Tadd (Tsub (P1 (i - m) (j - m)) (P2 (i - m) (j - m)))
                    (P3 (i - m) (j - m)))
              (P6 (i - m) (j - m)).
Proof.
  intros H. cbn [strassen_fun].
  destruct (Z.leb_spec (2 * m) leaf); [lia|].
  replace (2 * m / 2) with m by (rewrite Z.mul_comm, Z.div_mul; lia).
  reflexivity.
Qed.

Lemma mat_bytes_double (m : Z) : mat_bytes (2 * m) = 4 * mat_bytes m.
Proof. unfold mat_bytes. ring. Qed.

Lemma arena_rollback_run (base : Z) (t : state) :
  base <= off_bytes_ (arena t) ->
  arena_rollback base t =
  Ok tt (mkState (heap t) (next_block t)
                 (mkArena (buf_ (arena t)) (cap_bytes_ (arena t)) base
                          (hwm_bytes (arena t)))
                 (counter t)).
Proof.
  intros H. unfold arena_rollback, rollback.
  destruct (Z.gtb_spec base (off_bytes_ (arena t))); [lia|reflexivity].
Qed.

Ltac proj_simpl :=
  cbn [blk boff buf_ off_bytes_ cap_bytes_ hwm_bytes rows cols stride data
       ptr_add arena heap counter next_block const_view] in *.

Ltac use_regions :=
  repeat match goal with
         | H : In_view (quadrant ?V ?m ?qr ?qc) ?p |- _ =>
           apply (quadrant_In_view V m qr qc p) in H;
           [|assumption|assumption|assumption|split; discriminate
            |split; discriminate]
         | H : In_view (mkView (ptr_add ?b ?ao) ?mm ?mm ?mm) ?p |- _ =>
           apply (arena_view_region b ao mm p) in H; [|assumption|assumption]
         | Hr : (forall q, In_view ?V q -> _), H : In_view ?V ?p |- _ =>
           apply Hr in H
         end.

Ltac split_all :=
  repeat match goal with
         | H : _ /\ _ |- _ => destruct H
         | H : _ \/ _ |- _ => destruct H
         | |- _ /\ _ => split
         | |- ~ _ => intro
         end.

(** Separation goals, in a context where [Heqbuf] and [Heqoff] name the
    buffer and the offset of the arena at entry. *)
Ltac sep :=
  cbv beta; unfold disjoint_views, scratch, scratch_from;
  match goal with
  | Hb : ?buf = buf_ (arena ?s), Ho : ?off = off_bytes_ (arena ?s) |- _ =>
    rewrite <- ?Hb, <- ?Ho
  end;
  intros; split_all; use_regions; split_all; use_regions; split_all;
  solve [lia | tauto].

Ltac forward_shows t t' Hfr :=
  repeat match goal with
         | H : shows t ?V ?X |- _ =>
           first [ assert (shows t' V X)
                     by (apply (shows_frame _ t t' V X Hfr); sep)
                 | idtac ];
           clear H
         end.

Lemma strassen_body_ok (k : nat) (leaf : Z) (ops : bool)
  (rec : MatrixView -> MatrixView -> MatrixView -> M unit) :
  rec_ok k leaf ops rec ->
  leaf < 2 ^ Z.of_nat (S k) ->
  rec_ok (S k) leaf ops (fun A B C => strassen_body rec A B C ops).
Proof.
  intros Hrec Hlt A B C s n HrA HcA HrB HcB HrC HcC HfA HfB HfC Hbytes
         (Hoff & Hcap) Hneed Hcnt HsA HsB HsC.
  subst n. rewrite arena_need_S in * by assumption.
  rewrite pow2_double in *.
  assert (Hm := pow2_pos k).
  assert (Hneed0 := arena_need_nonneg k leaf).
  assert (Hal := scratch_align_bounds).
  remember (2 ^ Z.of_nat k) as m eqn:Heqm.
  rewrite mat_bytes_double in Hbytes.
  assert (Hmb : 0 < mat_bytes m) by (unfold mat_bytes; nia).
  remember (mat_bytes m) as mb eqn:Heqmb.
  unfold scratch in HsA, HsB, HsC.
  remember (buf_ (arena s)) as buf eqn:Heqbuf.
  remember (off_bytes_ (arena s)) as off eqn:Heqoff.
  remember (cap_bytes_ (arena s)) as cap eqn:Heqcap.
  remember (hwm_bytes (arena s)) as hw eqn:Heqhw.
  assert (Har : arena s = mkArena buf cap off hw)
    by (subst buf off cap hw; destruct (arena s); reflexivity).
  unfold strassen_body.
  rewrite (bind_ok arena_mark _ s s (mark (arena s)) eq_refl).
  rewrite HrA. replace (2 * m / 2) with m by (rewrite Z.mul_comm, Z.div_mul; lia).
  assert (Hm0 : 0 <= m) by lia.
  rewrite (bind_ok _ _ _ _ _ (lift_subview A m 0 0 0 0 s eq_refl eq_refl Hm0
             ltac:(lia) ltac:(lia) HrA HcA)).
  rewrite (bind_ok _ _ _ _ _ (lift_subview A m 0 m 0 1 s eq_refl ltac:(lia) Hm0
             ltac:(lia) ltac:(lia) HrA HcA)).
  rewrite (bind_ok _ _ _ _ _ (lift_subview A m m 0 1 0 s ltac:(lia) eq_refl Hm0
             ltac:(lia) ltac:(lia) HrA HcA)).
  rewrite (bind_ok _ _ _ _ _ (lift_subview A m m m 1 1 s ltac:(lia) ltac:(lia) Hm0
             ltac:(lia) ltac:(lia) HrA HcA)).
  rewrite (bind_ok _ _ _ _ _ (lift_subview B m 0 0 0 0 s eq_refl eq_refl Hm0
             ltac:(lia) ltac:(lia) HrB HcB)).
  rewrite (bind_ok _ _ _ _ _ (lift_subview B m 0 m 0 1 s eq_refl ltac:(lia) Hm0
             ltac:(lia) ltac:(lia) HrB HcB)).
  rewrite (bind_ok _ _ _ _ _ (lift_subview B m m 0 1 0 s ltac:(lia) eq_refl Hm0
             ltac:(lia) ltac:(lia) HrB HcB)).
  rewrite (bind_ok _ _ _ _ _ (lift_subview B m m m 1 1 s ltac:(lia) ltac:(lia) Hm0
             ltac:(lia) ltac:(lia) HrB HcB)).
  rewrite (bind_ok _ _ _ _ _ (lift_subview C m 0 0 0 0 s eq_refl eq_refl Hm0
             ltac:(lia) ltac:(lia) HrC HcC)).
  rewrite (bind_ok _ _ _ _ _ (lift_subview C m 0 m 0 1 s eq_refl ltac:(lia) Hm0
             ltac:(lia) ltac:(lia) HrC HcC)).
  rewrite (bind_ok _ _ _ _ _ (lift_subview C m m 0 1 0 s ltac:(lia) eq_refl Hm0
             ltac:(lia) ltac:(lia) HrC HcC)).
  rewrite (bind_ok _ _ _ _ _ (lift_subview C m m m 1 1 s ltac:(lia) ltac:(lia) Hm0
             ltac:(lia) ltac:(lia) HrC HcC)).
  assert (Hmbb : mat_bytes m <= PTRDIFF_MAX) by lia.
  destruct (arena_alloc_at m _ _ _ _ s Har Hm Hmbb ltac:(lia) Hcap ltac:(lia))
    as (ao1 & t1 & E1 & Hao1 & Hh1 & Hn1 & Hc1 & Har1).
  rewrite (bind_ok _ _ _ _ _ E1). clear E1. rewrite <- Heqmb in Har1.
  destruct (arena_alloc_at m _ _ _ _ t1 Har1 Hm Hmbb ltac:(lia) Hcap ltac:(lia))
    as (ao2 & t2 & E2 & Hao2 & Hh2 & Hn2 & Hc2 & Har2).
  rewrite (bind_ok _ _ _ _ _ E2). clear E2. rewrite <- Heqmb in Har2.
  destruct (arena_alloc_at m _ _ _ _ t2 Har2 Hm Hmbb ltac:(lia) Hcap ltac:(lia))
    as (ao3 & t3 & E3 & Hao3 & Hh3 & Hn3 & Hc3 & Har3).
  rewrite (bind_ok _ _ _ _ _ E3). clear E3. rewrite <- Heqmb in Har3.
  destruct (arena_alloc_at m _ _ _ _ t3 Har3 Hm Hmbb ltac:(lia) Hcap ltac:(lia))
    as (ao4 & t4 & E4 & Hao4 & Hh4 & Hn4 & Hc4 & Har4).
  rewrite (bind_ok _ _ _ _ _ E4). clear E4. rewrite <- Heqmb in Har4.
  destruct (arena_alloc_at m _ _ _ _ t4 Har4 Hm Hmbb ltac:(lia) Hcap ltac:(lia))
    as (ao5 & t5 & E5 & Hao5 & Hh5 & Hn5 & Hc5 & Har5).
  rewrite (bind_ok _ _ _ _ _ E5). clear E5. rewrite <- Heqmb in Har5.
  destruct (arena_alloc_at m _ _ _ _ t5 Har5 Hm Hmbb ltac:(lia) Hcap ltac:(lia))
    as (ao6 & t6 & E6 & Hao6 & Hh6 & Hn6 & Hc6 & Har6).
  rewrite (bind_ok _ _ _ _ _ E6). clear E6. rewrite <- Heqmb in Har6.
  destruct (arena_alloc_at m _ _ _ _ t6 Har6 Hm Hmbb ltac:(lia) Hcap ltac:(lia))
    as (ao7 & t7 & E7 & Hao7 & Hh7 & Hn7 & Hc7 & Har7).
  rewrite (bind_ok _ _ _ _ _ E7). clear E7. rewrite <- Heqmb in Har7.
  destruct (arena_alloc_at m _ _ _ _ t7 Har7 Hm Hmbb ltac:(lia) Hcap ltac:(lia))
    as (ao8 & t8 & E8 & Hao8 & Hh8 & Hn8 & Hc8 & Har8).
  rewrite (bind_ok _ _ _ _ _ E8). clear E8. rewrite <- Heqmb in Har8.
  destruct (arena_alloc_at m _ _ _ _ t8 Har8 Hm Hmbb ltac:(lia) Hcap ltac:(lia))
    as (ao9 & t9 & E9 & Hao9 & Hh9 & Hn9 & Hc9 & Har9).
  rewrite (bind_ok _ _ _ _ _ E9). clear E9. rewrite <- Heqmb in Har9.
  proj_simpl.
  remember (ao9 + mb) as o9 eqn:Heqo9.
  remember (Z.max hw (off + (9 * (mb + (scratch_align - 1)) + arena_need k leaf)))
    as hwb eqn:Heqhwb.
  assert (Hlev : level s o9 hwb 0 0 t9).
  { unfold level. rewrite Har9, Har. proj_simpl.
    split; [reflexivity|]. split; [reflexivity|]. split; [reflexivity|].
    split; [lia|]. split; [congruence|]. split.
    - replace (counter t9) with (counter s) by congruence. apply bumped_refl, Hcnt.
    - intros p _. unfold load. congruence. }
  assert (Hchain : off <= ao1 /\ ao1 + mb <= ao2 /\ ao2 + mb <= ao3 /\
                   ao3 + mb <= ao4 /\ ao4 + mb <= ao5 /\ ao5 + mb <= ao6 /\
                   ao6 + mb <= ao7 /\ ao7 + mb <= ao8 /\ ao8 + mb <= ao9 /\
                   o9 + arena_need k leaf <= cap /\
                   o9 + arena_need k leaf <= hwb) by lia.
  clear Hao1 Hao2 Hao3 Hao4 Hao5 Hao6 Hao7 Hao8 Hao9.
  clear Har1 Har2 Har3 Har4 Har5 Har6 Har7 Har8 Har9.
  clear Hh1 Hh2 Hh3 Hh4 Hh5 Hh6 Hh7 Hh8 Hh9 Hn1 Hn2 Hn3 Hn4 Hn5 Hn6 Hn7 Hn8 Hn9.
  clear Hc1 Hc2 Hc3 Hc4 Hc5 Hc6 Hc7 Hc8 Hc9 t1 t2 t3 t4 t5 t6 t7 t8.
  clear Hneed Hal Heqhwb.
  destruct Hchain as (Hch0 & Hch1 & Hch2 & Hch3 & Hch4 & Hch5 & Hch6 & Hch7
                      & Hch8 & Hcap9 & Hhwb9).
  pose (a := view_mat (heap s) A). pose (b := view_mat (heap s) B).
  assert (HqA : forall t dm da qr qc, level s o9 hwb dm da t ->
            0 <= qr <= 1 -> 0 <= qc <= 1 ->
            shows t (quadrant A m qr qc) (quad a m qr qc)).
  { intros. eapply level_shows_quadrant; try eassumption. sep. }
  assert (HqB : forall t dm da qr qc, level s o9 hwb dm da t ->
            0 <= qr <= 1 -> 0 <= qc <= 1 ->
            shows t (quadrant B m qr qc) (quad b m qr qc)).
  { intros. eapply level_shows_quadrant; try eassumption. sep. }
  assert (Hfit : forall ao, view_fits (mkView (ptr_add buf ao) m m m)).
  { intros. apply arena_view_fits; lia. }
  assert (HfqA : forall qr qc, 0 <= qr <= 1 -> 0 <= qc <= 1 ->
            view_fits (quadrant A m qr qc)).
  { intros. apply quadrant_fits; solve [assumption | lia]. }
  assert (HfqB : forall qr qc, 0 <= qr <= 1 -> 0 <= qc <= 1 ->
            view_fits (quadrant B m qr qc)).
  { intros. apply quadrant_fits; solve [assumption | lia]. }
  assert (Hstep := fun dm da t X Y D x y =>
            level_rec k leaf ops rec s o9 hwb dm da t X Y D x y Hrec).
  rewrite <- Heqm, <- Heqoff, <- Heqcap in Hstep.
  assert (Hch0' : off <= o9) by lia.
  assert (Hoff0 : 0 <= off) by lia.
  destruct (level_zip Tadd mat_add s o9 hwb _ _ m t9
              (quadrant A m 0 0) (quadrant A m 1 1) (mkView (ptr_add buf ao8) m m m) _ _ ops
              (fun X Y O st => mat_add_spec X Y O ops st) Hlev Hm0
              eq_refl eq_refl eq_refl eq_refl eq_refl eq_refl (Hfit _)
              ltac:(sep) ltac:(sep) ltac:(sep)
              (HqA _ _ _ 0 0 Hlev ltac:(lia) ltac:(lia))
              (HqA _ _ _ 1 1 Hlev ltac:(lia) ltac:(lia)))
    as (u1 & E & Hlev1 & HsT1 & Hfr1).
  rewrite (bind_ok _ _ _ _ _ E). clear E.
  forward_shows t9 u1 Hfr1. clear Hfr1 Hlev.
  destruct (level_zip Tadd mat_add s o9 hwb _ _ m u1
              (quadrant B m 0 0) (quadrant B m 1 1) (mkView (ptr_add buf ao9) m m m) _ _ ops
              (fun X Y O st => mat_add_spec X Y O ops st) Hlev1 Hm0
              eq_refl eq_refl eq_refl eq_refl eq_refl eq_refl (Hfit _)
              ltac:(sep) ltac:(sep) ltac:(sep)
              (HqB _ _ _ 0 0 Hlev1 ltac:(lia) ltac:(lia))
              (HqB _ _ _ 1 1 Hlev1 ltac:(lia) ltac:(lia)))
    as (u2 & E & Hlev2 & HsT2 & Hfr2).
  rewrite (bind_ok _ _ _ _ _ E). clear E.
  forward_shows u1 u2 Hfr2. clear Hfr2 Hlev1.
  destruct (Hstep _ _ u2 (mkView (ptr_add buf ao8) m m m) (mkView
              (ptr_add buf ao9) m m m) (mkView (ptr_add buf ao1) m m m) _ _ Hlev2
              eq_refl eq_refl eq_refl eq_refl eq_refl eq_refl
              (Hfit _) (Hfit _) (Hfit _) Hmbb Hch0' Hoff0 Hcap Hcap9 Hhwb9
              ltac:(sep) ltac:(sep) ltac:(sep)
              ltac:(eassumption) ltac:(eassumption))
    as (u3 & E & Hlev3 & HsM1 & Hfr3).
  rewrite (bind_ok _ _ _ _ _ E). clear E.
  forward_shows u2 u3 Hfr3. clear Hfr3 Hlev2.
  destruct (level_zip Tadd mat_add s o9 hwb _ _ m u3
              (quadrant A m 1 0) (quadrant A m 1 1) (mkView (ptr_add buf ao8) m m m) _ _ ops
              (fun X Y O st => mat_add_spec X Y O ops st) Hlev3 Hm0
              eq_refl eq_refl eq_refl eq_refl eq_refl eq_refl (Hfit _)
              ltac:(sep) ltac:(sep) ltac:(sep)
              (HqA _ _ _ 1 0 Hlev3 ltac:(lia) ltac:(lia))
              (HqA _ _ _ 1 1 Hlev3 ltac:(lia) ltac:(lia)))
    as (u4 & E & Hlev4 & HsT1 & Hfr4).
  rewrite (bind_ok _ _ _ _ _ E). clear E.
  forward_shows u3 u4 Hfr4. clear Hfr4 Hlev3.
  destruct (Hstep _ _ u4 (mkView (ptr_add buf ao8) m m m) (quadrant B m 0 0) (mkView
              (ptr_add buf ao2) m m m) _ _ Hlev4
              eq_refl eq_refl eq_refl eq_refl eq_refl eq_refl
              (Hfit _) (HfqB 0 0 ltac:(lia) ltac:(lia))
              (Hfit _) Hmbb Hch0' Hoff0 Hcap Hcap9 Hhwb9
              ltac:(sep) ltac:(sep) ltac:(sep)
              ltac:(eassumption) (HqB _ _ _ 0 0 Hlev4 ltac:(lia) ltac:(lia)))
    as (u5 & E & Hlev5 & HsM2 & Hfr5).
  rewrite (bind_ok _ _ _ _ _ E). clear E.
  forward_shows u4 u5 Hfr5. clear Hfr5 Hlev4.
  destruct (level_zip Tsub mat_sub s o9 hwb _ _ m u5
              (quadrant B m 0 1) (quadrant B m 1 1) (mkView (ptr_add buf ao9) m m m) _ _ ops
              (fun X Y O st => mat_sub_spec X Y O ops st) Hlev5 Hm0
              eq_refl eq_refl eq_refl eq_refl eq_refl eq_refl (Hfit _)
              ltac:(sep) ltac:(sep) ltac:(sep)
              (HqB _ _ _ 0 1 Hlev5 ltac:(lia) ltac:(lia))
              (HqB _ _ _ 1 1 Hlev5 ltac:(lia) ltac:(lia)))
    as (u6 & E & Hlev6 & HsT2 & Hfr6).
  rewrite (bind_ok _ _ _ _ _ E). clear E.
  forward_shows u5 u6 Hfr6. clear Hfr6 Hlev5.
  destruct (Hstep _ _ u6 (quadrant A m 0 0) (mkView (ptr_add buf ao9) m m m) (mkView
              (ptr_add buf ao3) m m m) _ _ Hlev6
              eq_refl eq_refl eq_refl eq_refl eq_refl eq_refl
              (HfqA 0 0 ltac:(lia) ltac:(lia)) (Hfit _)
              (Hfit _) Hmbb Hch0' Hoff0 Hcap Hcap9 Hhwb9
              ltac:(sep) ltac:(sep) ltac:(sep)
              (HqA _ _ _ 0 0 Hlev6 ltac:(lia) ltac:(lia)) ltac:(eassumption))
    as (u7 & E & Hlev7 & HsM3 & Hfr7).
  rewrite (bind_ok _ _ _ _ _ E). clear E.
  forward_shows u6 u7 Hfr7. clear Hfr7 Hlev6.
  destruct (level_zip Tsub mat_sub s o9 hwb _ _ m u7
              (quadrant B m 1 0) (quadrant B m 0 0) (mkView (ptr_add buf ao9) m m m) _ _ ops
              (fun X Y O st => mat_sub_spec X Y O ops st) Hlev7 Hm0
              eq_refl eq_refl eq_refl eq_refl eq_refl eq_refl (Hfit _)
              ltac:(sep) ltac:(sep) ltac:(sep)
              (HqB _ _ _ 1 0 Hlev7 ltac:(lia) ltac:(lia))
              (HqB _ _ _ 0 0 Hlev7 ltac:(lia) ltac:(lia)))
    as (u8 & E & Hlev8 & HsT2 & Hfr8).
  rewrite (bind_ok _ _ _ _ _ E). clear E.
  forward_shows u7 u8 Hfr8. clear Hfr8 Hlev7.
  destruct (Hstep _ _ u8 (quadrant A m 1 1) (mkView (ptr_add buf ao9) m m m) (mkView
              (ptr_add buf ao4) m m m) _ _ Hlev8
              eq_refl eq_refl eq_refl eq_refl eq_refl eq_refl
              (HfqA 1 1 ltac:(lia) ltac:(lia)) (Hfit _)
              (Hfit _) Hmbb Hch0' Hoff0 Hcap Hcap9 Hhwb9
              ltac:(sep) ltac:(sep) ltac:(sep)
              (HqA _ _ _ 1 1 Hlev8 ltac:(lia) ltac:(lia)) ltac:(eassumption))
    as (u9 & E & Hlev9 & HsM4 & Hfr9).
  rewrite (bind_ok _ _ _ _ _ E). clear E.
  forward_shows u8 u9 Hfr9. clear Hfr9 Hlev8.
  destruct (level_zip Tadd mat_add s o9 hwb _ _ m u9
              (quadrant A m 0 0) (quadrant A m 0 1) (mkView (ptr_add buf ao8) m m m) _ _ ops
              (fun X Y O st => mat_add_spec X Y O ops st) Hlev9 Hm0
              eq_refl eq_refl eq_refl eq_refl eq_refl eq_refl (Hfit _)
              ltac:(sep) ltac:(sep) ltac:(sep)
              (HqA _ _ _ 0 0 Hlev9 ltac:(lia) ltac:(lia))
              (HqA _ _ _ 0 1 Hlev9 ltac:(lia) ltac:(lia)))
    as (u10 & E & Hlev10 & HsT1 & Hfr10).
  rewrite (bind_ok _ _ _ _ _ E). clear E.
  forward_shows u9 u10 Hfr10. clear Hfr10 Hlev9.
  destruct (Hstep _ _ u10 (mkView (ptr_add buf ao8) m m m) (quadrant B m 1 1) (mkView
              (ptr_add buf ao5) m m m) _ _ Hlev10
              eq_refl eq_refl eq_refl eq_refl eq_refl eq_refl
              (Hfit _) (HfqB 1 1 ltac:(lia) ltac:(lia))
              (Hfit _) Hmbb Hch0' Hoff0 Hcap Hcap9 Hhwb9
              ltac:(sep) ltac:(sep) ltac:(sep)
              ltac:(eassumption) (HqB _ _ _ 1 1 Hlev10 ltac:(lia) ltac:(lia)))
    as (u11 & E & Hlev11 & HsM5 & Hfr11).
  rewrite (bind_ok _ _ _ _ _ E). clear E.
  forward_shows u10 u11 Hfr11. clear Hfr11 Hlev10.
  destruct (level_zip Tsub mat_sub s o9 hwb _ _ m u11
              (quadrant A m 1 0) (quadrant A m 0 0) (mkView (ptr_add buf ao8) m m m) _ _ ops
              (fun X Y O st => mat_sub_spec X Y O ops st) Hlev11 Hm0
              eq_refl eq_refl eq_refl eq_refl eq_refl eq_refl (Hfit _)
              ltac:(sep) ltac:(sep) ltac:(sep)
              (HqA _ _ _ 1 0 Hlev11 ltac:(lia) ltac:(lia))
              (HqA _ _ _ 0 0 Hlev11 ltac:(lia) ltac:(lia)))
    as (u12 & E & Hlev12 & HsT1 & Hfr12).
  rewrite (bind_ok _ _ _ _ _ E). clear E.
  forward_shows u11 u12 Hfr12. clear Hfr12 Hlev11.
  destruct (level_zip Tadd mat_add s o9 hwb _ _ m u12
              (quadrant B m 0 0) (quadrant B m 0 1) (mkView (ptr_add buf ao9) m m m) _ _ ops
              (fun X Y O st => mat_add_spec X Y O ops st) Hlev12 Hm0
              eq_refl eq_refl eq_refl eq_refl eq_refl eq_refl (Hfit _)
              ltac:(sep) ltac:(sep) ltac:(sep)
              (HqB _ _ _ 0 0 Hlev12 ltac:(lia) ltac:(lia))
              (HqB _ _ _ 0 1 Hlev12 ltac:(lia) ltac:(lia)))
    as (u13 & E & Hlev13 & HsT2 & Hfr13).
  rewrite (bind_ok _ _ _ _ _ E). clear E.
  forward_shows u12 u13 Hfr13. clear Hfr13 Hlev12.
  destruct (Hstep _ _ u13 (mkView (ptr_add buf ao8) m m m) (mkView
              (ptr_add buf ao9) m m m) (mkView (ptr_add buf ao6) m m m) _ _ Hlev13
              eq_refl eq_refl eq_refl eq_refl eq_refl eq_refl
              (Hfit _) (Hfit _) (Hfit _) Hmbb Hch0' Hoff0 Hcap Hcap9 Hhwb9
              ltac:(sep) ltac:(sep) ltac:(sep)
              ltac:(eassumption) ltac:(eassumption))
    as (u14 & E & Hlev14 & HsM6 & Hfr14).
  rewrite (bind_ok _ _ _ _ _ E). clear E.
  forward_shows u13 u14 Hfr14. clear Hfr14 Hlev13.
  destruct (level_zip Tsub mat_sub s o9 hwb _ _ m u14
              (quadrant A m 0 1) (quadrant A m 1 1) (mkView (ptr_add buf ao8) m m m) _ _ ops
              (fun X Y O st => mat_sub_spec X Y O ops st) Hlev14 Hm0
              eq_refl eq_refl eq_refl eq_refl eq_refl eq_refl (Hfit _)
              ltac:(sep) ltac:(sep) ltac:(sep)
              (HqA _ _ _ 0 1 Hlev14 ltac:(lia) ltac:(lia))
              (HqA _ _ _ 1 1 Hlev14 ltac:(lia) ltac:(lia)))
    as (u15 & E & Hlev15 & HsT1 & Hfr15).
  rewrite (bind_ok _ _ _ _ _ E). clear E.
  forward_shows u14 u15 Hfr15. clear Hfr15 Hlev14.
  destruct (level_zip Tadd mat_add s o9 hwb _ _ m u15
              (quadrant B m 1 0) (quadrant B m 1 1) (mkView (ptr_add buf ao9) m m m) _ _ ops
              (fun X Y O st => mat_add_spec X Y O ops st) Hlev15 Hm0
              eq_refl eq_refl eq_refl eq_refl eq_refl eq_refl (Hfit _)
              ltac:(sep) ltac:(sep) ltac:(sep)
              (HqB _ _ _ 1 0 Hlev15 ltac:(lia) ltac:(lia))
              (HqB _ _ _ 1 1 Hlev15 ltac:(lia) ltac:(lia)))
    as (u16 & E & Hlev16 & HsT2 & Hfr16).
  rewrite (bind_ok _ _ _ _ _ E). clear E.
  forward_shows u15 u16 Hfr16. clear Hfr16 Hlev15.
  destruct (Hstep _ _ u16 (mkView (ptr_add buf ao8) m m m) (mkView
              (ptr_add buf ao9) m m m) (mkView (ptr_add buf ao7) m m m) _ _ Hlev16
              eq_refl eq_refl eq_refl eq_refl eq_refl eq_refl
              (Hfit _) (Hfit _) (Hfit _) Hmbb Hch0' Hoff0 Hcap Hcap9 Hhwb9
              ltac:(sep) ltac:(sep) ltac:(sep)
              ltac:(eassumption) ltac:(eassumption))
    as (u17 & E & Hlev17 & HsM7 & Hfr17).
  rewrite (bind_ok _ _ _ _ _ E). clear E.
  forward_shows u16 u17 Hfr17. clear Hfr17 Hlev16.
  destruct Hlev17 as (Hb17 & Hc17 & Ho17 & Hh17 & Hn17 & Hcnt17 & Hfr17).
  assert (HMs : forall X,
            In X [mkView (ptr_add buf ao1) m m m; mkView (ptr_add buf ao2) m m m;
                  mkView (ptr_add buf ao3) m m m; mkView (ptr_add buf ao4) m m m;
                  mkView (ptr_add buf ao5) m m m; mkView (ptr_add buf ao6) m m m;
                  mkView (ptr_add buf ao7) m m m] ->
            rows X = m /\ cols X = m /\ disjoint_views X C).
  { intros X HX. simpl in HX.
    destruct HX as [<-|[<-|[<-|[<-|[<-|[<-|[<-|[]]]]]]]];
      (split; [reflexivity|split; [reflexivity|sep]]). }
  destruct (combine_spec m _ _ _ _ _ _ _ C ops u17 sizeofT_pos Hm0 HfC HrC HcC
              HMs (proj1 Hcnt17))
    as (u18 & E & (Har18 & Hnb18 & Hfr18) & Hcnt18 & Hv).
  rewrite (bind_ok _ _ _ _ _ E). clear E.
  rewrite arena_rollback_run
    by (rewrite Har18, Ho17; unfold mark; rewrite <- Heqoff; lia).
  eexists. split; [reflexivity|]. proj_simpl. unfold mark.
  split; [congruence|]. split; [congruence|]. split; [congruence|].
  split; [rewrite Har18, Heqhw; exact Hh17|]. split; [congruence|].
  split; [|split].
  - eapply bumped_eq; [| |apply (bumped_trans _ _ _ _ _ _ _ Hcnt17 Hcnt18)].
    + rewrite strassen_mul_count_S by lia.
      replace (2 * m / 2) with m by (rewrite Z.mul_comm, Z.div_mul; lia).
      tick_norm.
    + rewrite strassen_add_count_S by lia.
      replace (2 * m / 2) with m by (rewrite Z.mul_comm, Z.div_mul; lia).
      tick_norm.
  - intros p Hp. rewrite Hfr18, Hfr17; tauto.
  - unfold shows. proj_simpl. intros i j Hi Hj. rewrite HrC in Hi. rewrite HcC in Hj.
    rewrite strassen_fun_S by lia. cbv zeta.
    destruct (Z.ltb_spec i m) as [Him|Him]; destruct (Z.ltb_spec j m) as [Hjm|Hjm].
    + destruct (Hv i j) as (V & _); try lia. rewrite V.
      repeat match goal with
             | Hs : shows u17 ?V _ |- context [load (heap u17) (elem_ptr ?V ?x ?y)] =>
               rewrite (Hs x y) by (proj_simpl; lia)
             end.
      reflexivity.
    + destruct (Hv i (j - m)) as (_ & V & _); try lia.
      replace (m + (j - m)) with j in V by lia. rewrite V.
      repeat match goal with
             | Hs : shows u17 ?V _ |- context [load (heap u17) (elem_ptr ?V ?x ?y)] =>
               rewrite (Hs x y) by (proj_simpl; lia)
             end.
      reflexivity.
    + destruct (Hv (i - m) j) as (_ & _ & V & _); try lia.
      replace (m + (i - m)) with i in V by lia. rewrite V.
      repeat match goal with
             | Hs : shows u17 ?V _ |- context [load (heap u17) (elem_ptr ?V ?x ?y)] =>
               rewrite (Hs x y) by (proj_simpl; lia)
             end.
      reflexivity.
    + destruct (Hv (i - m) (j - m)) as (_ & _ & _ & V); try lia.
      replace (m + (i - m)) with i in V by lia.
      replace (m + (j - m)) with j in V by lia. rewrite V.
      repeat match goal with
             | Hs : shows u17 ?V _ |- context [load (heap u17) (elem_ptr ?V ?x ?y)] =>
               rewrite (Hs x y) by (proj_simpl; lia)
             end.
      reflexivity.
Qed.

(** ** The recursive engine meets its contract *)

Lemma strassen_fun_leaf (k : nat) (leaf n : Z) (a b : Z -> Z -> T) :
  n <= leaf -> strassen_fun k leaf n a b = naive_entry a b n.
Proof.
  intros H. destruct k as [|k]; [reflexivity|]. cbn [strassen_fun].
  destruct (Z.leb_spec n leaf); [reflexivity|lia].
Qed.

Lemma strassen_mul_count_leaf (k : nat) (leaf n : Z) :
  n <= leaf -> strassen_mul_count k leaf n = naive_mul_count n.
Proof.
  intros H. destruct k as [|k]; [reflexivity|]. cbn [strassen_mul_count].
  destruct (Z.leb_spec n leaf); [reflexivity|lia].
Qed.

Lemma strassen_add_count_leaf (k : nat) (leaf n : Z) :
  n <= leaf -> strassen_add_count k leaf n = naive_add_count n.
Proof.
  intros H. destruct k as [|k]; [reflexivity|]. cbn [strassen_add_count].
  destruct (Z.leb_spec n leaf); [reflexivity|lia].
Qed.

Lemma pow2_even (k : nat) : 2 ^ Z.of_nat (S k) mod 2 = 0.
Proof. rewrite pow2_double, Z.mul_comm. apply Z.mod_mul. lia. Qed.

Lemma strassen_rec_fuel_ok (leaf : Z) (ops : bool) (fuel k : nat) :
  1 <= leaf -> (k < fuel)%nat ->
  rec_ok k leaf ops (fun A B C => strassen_rec_fuel fuel A B C ops leaf).
Proof.
  intros Hleaf. revert k. induction fuel as [|fuel IH]; intros k Hk; [lia|].
  destruct (Z_le_gt_dec (2 ^ Z.of_nat k) leaf) as [Hle|Hgt].
  - (* base case: the triple loop *)
    intros A B C s n HrA HcA HrB HcB HrC HcC HfA HfB HfC Hbytes
           Hok Hneed Hcnt HsA HsB HsC.
    assert (Hn := pow2_pos k). fold n in Hn, Hle.
    rewrite strassen_rec_fuel_S.
    rewrite !neq_false by congruence. simpl andb. unfold check.
    rewrite (bind_ok _ _ s s tt eq_refl). rewrite (bind_ok _ _ s s tt eq_refl).
    rewrite HrA.
    destruct (Z.eqb_spec n 0); [lia|].
    destruct (Z.leb_spec n leaf); [|lia].
    destruct (gemm_naive_spec A B C ops s) as (s' & E & (Har & Hnb & Hfr) & Hb & Hv);
      try congruence; try lia.
    { apply view_fits_inj; assumption. }
    { intros p Hp. apply HsA. exact Hp. }
    { intros p Hp. apply HsB. exact Hp. }
    assert (Hneed0 := arena_need_nonneg k leaf).
    exists s'. split; [exact E|]. rewrite Har.
    split; [reflexivity|]. split; [reflexivity|]. split; [reflexivity|].
    split; [lia|]. split; [exact Hnb|]. split; [|split].
    + rewrite strassen_mul_count_leaf, strassen_add_count_leaf by assumption.
      unfold naive_mul_count, naive_add_count.
      rewrite HrA, HcA, HcB in Hb. exact Hb.
    + intros p Hp. apply Hfr. tauto.
    + intros i j Hi Hj. rewrite strassen_fun_leaf by assumption.
      rewrite Hv by lia. rewrite HcA. reflexivity.
  - (* recursive case *)
    destruct k as [|k].
    { simpl in Hgt. lia. }
    assert (Hbody := strassen_body_ok k leaf ops
                       (fun X Y D => strassen_rec_fuel fuel X Y D ops leaf)
                       (IH k ltac:(lia)) ltac:(lia)).
    intros A B C s n HrA HcA HrB HcB HrC HcC HfA HfB HfC Hbytes
           Hok Hneed Hcnt HsA HsB HsC.
    assert (Hn := pow2_pos (S k)). fold n in Hn, Hgt.
    rewrite strassen_rec_fuel_S.
    rewrite !neq_false by congruence. simpl andb. unfold check.
    rewrite (bind_ok _ _ s s tt eq_refl). rewrite (bind_ok _ _ s s tt eq_refl).
    rewrite HrA.
    destruct (Z.eqb_spec n 0); [lia|].
    destruct (Z.leb_spec n leaf); [lia|].
    unfold n at 1. rewrite pow2_even. change (neq 0 0) with false. cbv iota.
    apply Hbody; assumption.
Qed.

Lemma strassen_rec_ok (leaf : Z) (ops : bool) (k : nat) :
  1 <= leaf ->
  rec_ok k leaf ops (fun A B C => strassen_rec A B C ops leaf).
Proof.
  intros Hleaf A B C s n HrA. unfold strassen_rec. rewrite HrA. unfold n.
  rewrite Z.log2_pow2, Nat2Z.id by lia.
  apply (strassen_rec_fuel_ok leaf ops (S k) k Hleaf ltac:(lia) A B C s HrA).
Qed.

(** ** The recursion computes the product *)

Section Correctness.

Variable Tone : T.
Variable Topp : T -> T.
Hypothesis Tring : ring_theory Tzero Tone Tadd Tmul Tsub Topp (@eq T).

Add Ring T_ring_correct : Tring.




End Correctness.

(** * The specification, sentence by sentence *)

(** ** Views and subviews share storage *)

(** C9. A subview that lies within its parent, of a view whose stride is at
    least its number of columns, shares the parent's block and stride, and
    its element [(i, j)] is the parent's element [(r0 + i, c0 + j)]: a write
    through either view is read back through the other. [subview] itself
    only computes a descriptor; it does not touch the store. *)
Theorem subview_shares_storage (V : MatrixView) (r0 c0 rcount ccount : Z) :
  view_fits V ->
  0 <= r0 -> 0 <= c0 -> 0 <= rcount -> 0 <= ccount ->
  r0 + rcount <= rows V -> c0 + ccount <= cols V ->
  exists S,
    subview V r0 c0 rcount ccount = inr S /\
    stride S = stride V /\ blk (data S) = blk (data V) /\
    rows S = rcount /\ cols S = ccount /\
    forall i j, 0 <= i < rcount -> 0 <= j < ccount ->
      elem_ptr S i j = elem_ptr V (r0 + i) (c0 + j) /\
      (forall s v, exists s',
         view_set S i j v s = Ok tt s' /\
         view_get V (r0 + i) (c0 + j) s' = Ok v s') /\
      (forall s v, exists s',
         view_set V (r0 + i) (c0 + j) v s = Ok tt s' /\
         view_get S i j s' = Ok v s').
Proof.
  intros HV Hr0 Hc0 Hrc Hcc Hr Hc.
  exists (subview_of V r0 c0 rcount ccount).
  split; [apply subview_in_bounds; assumption|].
  split; [reflexivity|]. split; [reflexivity|].
  split; [reflexivity|]. split; [reflexivity|].
  intros i j Hi Hj.
  assert (Hcell : elem_ptr (subview_of V r0 c0 rcount ccount) i j =
                  elem_ptr V (r0 + i) (c0 + j))
    by (apply subview_of_cell; assumption).
  split; [exact Hcell|]. split; intros s v.
  - rewrite view_set_in by (simpl; lia). eexists. split; [reflexivity|].
    rewrite view_get_in by lia. simpl heap.
    rewrite Hcell, load_store_same. reflexivity.
  - rewrite view_set_in by lia. eexists. split; [reflexivity|].
    rewrite view_get_in by (simpl; lia). simpl heap.
    rewrite Hcell, load_store_same. reflexivity.
Qed.

(** ** Mark and rollback *)

(** C8, as the code has it. [rollback m] fails exactly when [m] exceeds the
    current offset, leaving the arena as it was; otherwise it succeeds and
    the offset becomes [m]. A mark is a bare offset: nothing ties it to the
    arena it was taken from. *)
Theorem rollback_by_offset_only (m : Z) (s : state) :
  (off_bytes_ (arena s) < m /\ arena_rollback m s = Throw invalid_argument s) \/
  (m <= off_bytes_ (arena s) /\
   exists s', arena_rollback m s = Ok tt s' /\
     used_bytes (arena s') = m /\
     buf_ (arena s') = buf_ (arena s) /\
     capacity_bytes (arena s') = capacity_bytes (arena s) /\
     heap s' = heap s /\ counter s' = counter s).
Proof.
  unfold arena_rollback, rollback.
  destruct (Z.gtb_spec m (off_bytes_ (arena s))) as [Hgt|Hle].
  - left. split; [lia|reflexivity].
  - right. split; [lia|]. eexists. split; [reflexivity|]. repeat split.
Qed.

(** ** Empty operands *)

(** C10. On 0 x 0 operands the recursive core returns at once: no
    exception, and the store, the arena, the block allocator and the
    counter are exactly as before. *)
Theorem empty_operands_return_immediately (A B C : MatrixView) (ops : bool)
  (leaf : Z) (s : state) :
  rows A = 0 -> cols A = 0 -> rows B = 0 -> cols B = 0 ->
  rows C = 0 -> cols C = 0 ->
  strassen_rec A B C ops leaf s = Ok tt s.
Proof.
  intros HrA HcA HrB HcB HrC HcC.
  unfold strassen_rec. rewrite strassen_rec_fuel_S.
  rewrite !neq_false by congruence. rewrite HrA. reflexivity.
Qed.

(** ** Preconditions of the pre-sized entry point *)

Lemma check_pass (e : exn) (s : state) : check false e s = Ok tt s.
Proof. reflexivity. Qed.

Lemma check_fail (e : exn) (s : state) : check true e s = Throw e s.
Proof. reflexivity. Qed.

(** The precondition checks of the pre-sized entry point reject a size
    that is not a power of two, whatever else holds. *)
Lemma prealloc_not_pow2 (A B C : MatrixView) (ops : bool)
  (cfg : StrassenConfig) (s : state) :
  0 <= rows A < two64 ->
  (forall k, 0 <= k -> rows A <> 2 ^ k) ->
  gemm_strassen_pow2_prealloc A B C ops cfg s = Throw invalid_argument s.
Proof.
  intros Hn Hnot. unfold gemm_strassen_pow2_prealloc.
  rewrite (is_power_of_two_false _ Hn Hnot).
  change (MATMUL_ENABLE_CHECKS && negb false) with true.
  repeat match goal with
         | |- bind (check ?b invalid_argument) _ s = _ =>
           lazymatch b with
           | true => reflexivity
           | _ => destruct b;
                  [reflexivity|rewrite (bind_ok _ _ s s tt (check_pass _ s))]
           end
         end.
Qed.

(** ** Mark/rollback discipline of the recursive engine *)

Lemma check_ok_inv (b : bool) (e : exn) (s s' : state) (u : unit) :
  check b e s = Ok u s' -> b = false /\ s' = s.
Proof.
  destruct b; simpl; intros H; [discriminate|]. injection H as _ <-. auto.
Qed.

Lemma arena_rollback_ok_inv (base : Z) (t t' : state) (u : unit) :
  arena_rollback base t = Ok u t' -> off_bytes_ (arena t') = base.
Proof.
  unfold arena_rollback, rollback.
  destruct (base >? off_bytes_ (arena t)); intros H; [discriminate|].
  injection H as _ <-. reflexivity.
Qed.

Lemma strassen_body_restores
  (rec : MatrixView -> MatrixView -> MatrixView -> M unit)
  (A B C : MatrixView) (ops : bool) (s s' : state) :
  strassen_body rec A B C ops s = Ok tt s' ->
  off_bytes_ (arena s') = off_bytes_ (arena s).
Proof.
  unfold strassen_body. intros H.
  apply bind_ok_inv in H. destruct H as (base & t & Hmark & H).
  unfold arena_mark in Hmark. injection Hmark as <- <-.
  repeat (apply bind_ok_inv in H; destruct H as (? & ? & _ & H)).
  apply arena_rollback_ok_inv in H. exact H.
Qed.

Lemma strassen_rec_fuel_restores (fuel : nat) (A B C : MatrixView) (ops : bool)
  (leaf : Z) (s s' : state) :
  strassen_rec_fuel fuel A B C ops leaf s = Ok tt s' ->
  off_bytes_ (arena s') = off_bytes_ (arena s).
Proof.
  destruct fuel as [|fuel]; [discriminate|]. rewrite strassen_rec_fuel_S.
  intros H.
  apply bind_ok_inv in H. destruct H as ([] & t1 & Hc1 & H).
  apply check_ok_inv in Hc1. destruct Hc1 as [_ ->].
  apply bind_ok_inv in H. destruct H as ([] & t2 & Hc2 & H).
  apply check_ok_inv in Hc2. destruct Hc2 as [_ ->].
  destruct (rows A =? 0).
  { injection H as <-. reflexivity. }
  destruct (rows A <=? leaf).
  { generalize (confined_run _ _ s (gemm_naive_confined A B C ops)).
    rewrite H. intros (Har & _). now rewrite Har. }
  destruct (neq (rows A mod 2) 0); [discriminate|].
  apply strassen_body_restores in H. exact H.
Qed.

(** C5. Whenever a top-level call of the recursive engine returns normally,
    the arena's used-byte count is what it was before the call: the
    allocations of the call have been rolled back to the mark taken at entry. *)
Theorem successful_call_restores_used_bytes (A B C : MatrixView) (ops : bool)
  (leaf : Z) (s s' : state) :
  strassen_rec A B C ops leaf s = Ok tt s' ->
  used_bytes (arena s') = used_bytes (arena s).
Proof. unfold strassen_rec, used_bytes. apply strassen_rec_fuel_restores. Qed.

(** ** The sizing policy *)

Lemma levels_loop_pow2 (k fuel : nat) (l : Z) :
  (k <= fuel)%nat -> 0 <= l -> l + Z.of_nat k < two64 ->
  levels_loop fuel (2 ^ Z.of_nat k) l = l + Z.of_nat k.
Proof.
  revert fuel l. induction k as [|k IH]; intros fuel l Hf Hl Hb.
  - destruct fuel; simpl; lia.
  - destruct fuel as [|fuel]; [lia|]. cbn [levels_loop].
    assert (Hp := pow2_pos k). rewrite pow2_double.
    destruct (Z.gtb_spec (2 * 2 ^ Z.of_nat k) 1); [|lia].
    rewrite Z.shiftr_div_pow2 by lia. change (2 ^ 1) with 2.
    replace (2 * 2 ^ Z.of_nat k / 2) with (2 ^ Z.of_nat k)
      by (rewrite Z.mul_comm, Z.div_mul; lia).
    rewrite wrap_small by lia. rewrite IH by lia. lia.
Qed.

(** The value of the sizing formula for [n = 2 ^ k], when it fits 64 bits. *)
Definition scratch_budget (k : nat) : Z :=
  3 * mat_bytes (2 ^ Z.of_nat k) + 9 * Z.of_nat k * kScratchAlignmentBytes + 1024.

Lemma strassen_scratch_bytes_pow2 (k : nat) :
  scratch_budget k <= SIZE_MAX ->
  strassen_scratch_bytes (2 ^ Z.of_nat k) = inr (scratch_budget k).
Proof.
  unfold scratch_budget, mat_bytes, SIZE_MAX, kScratchAlignmentBytes.
  intros Hb. assert (Hp := pow2_pos k). set (n := 2 ^ Z.of_nat k) in *.
  assert (Hnn : 0 < n * n) by nia.
  assert (Hnns : n * n <= n * n * sizeofT) by nia.
  assert (Hk : (k <= 64)%nat).
  { destruct (le_gt_dec k 64) as [|Hgt]; [assumption|exfalso].
    assert (2 ^ 64 <= n) by (apply Z.pow_le_mono_r; lia).
    change (2 ^ 64) with two64 in *. unfold two64 in *. nia. }
  assert (Hlev : levels_loop 64 n 0 = Z.of_nat k).
  { unfold n. rewrite levels_loop_pow2 by (unfold two64; lia). lia. }
  unfold two64 in Hb.
  unfold strassen_scratch_bytes.
  destruct (Z.eqb_spec n 0); [lia|].
  rewrite !Hlev. unfold kScratchAlignmentBytes.
  rewrite !(wrap_small (n * n)) by (unfold two64; lia).
  rewrite !(wrap_small (3 * (n * n))) by (unfold two64; lia).
  rewrite !(wrap_small (3 * (n * n) * sizeofT)) by (unfold two64; nia).
  rewrite !(wrap_small (9 * Z.of_nat k)) by (unfold two64; lia).
  rewrite !(wrap_small (9 * Z.of_nat k * 16)) by (unfold two64; lia).
  rewrite !(wrap_small (9 * Z.of_nat k * 16 + 1024)) by (unfold two64; lia).
  rewrite !wrap_small by (unfold two64; nia).
  destruct (Z.gtb_spec (3 * (n * n) * sizeofT + (9 * Z.of_nat k * 16 + 1024))
                       SIZE_MAX) as [Hgt|Hle].
  - unfold SIZE_MAX, two64 in Hgt. nia.
  - f_equal. ring.
Qed.

(** Elements of scratch live at the deepest point of the recursion, and the
    number of levels that allocate. *)
Fixpoint scratch_elems (k : nat) (leaf : Z) : Z :=
  match k with
  | O => 0
  | S k' =>
    if 2 ^ Z.of_nat k <=? leaf then 0
    else 9 * (2 ^ Z.of_nat k' * 2 ^ Z.of_nat k') + scratch_elems k' leaf
  end.

Fixpoint scratch_levels (k : nat) (leaf : Z) : Z :=
  match k with
  | O => 0
  | S k' => if 2 ^ Z.of_nat k <=? leaf then 0 else 1 + scratch_levels k' leaf
  end.

Lemma arena_need_split (k : nat) (leaf : Z) :
  arena_need k leaf =
  scratch_elems k leaf * sizeofT
  + 9 * (scratch_align - 1) * scratch_levels k leaf.
Proof.
  induction k as [|k IH]; [simpl; ring|].
  cbn [arena_need scratch_elems scratch_levels].
  destruct (_ <=? _); [ring|]. rewrite IH. unfold mat_bytes. ring.
Qed.

Lemma scratch_elems_bound (k : nat) (leaf : Z) :
  0 <= scratch_elems k leaf < 3 * (2 ^ Z.of_nat k * 2 ^ Z.of_nat k).
Proof.
  induction k as [|k IH]; [simpl; lia|].
  cbn [scratch_elems]. assert (Hp := pow2_pos k).
  rewrite pow2_double. set (m := 2 ^ Z.of_nat k) in *.
  destruct (_ <=? _); nia.
Qed.

Lemma scratch_levels_bound (k : nat) (leaf : Z) :
  0 <= scratch_levels k leaf <= Z.of_nat k.
Proof.
  induction k as [|k IH]; [simpl; lia|].
  cbn [scratch_levels]. destruct (_ <=? _); lia.
Qed.

Lemma arena_need_budget (k : nat) (leaf : Z) :
  alignofT <= 16 ->
  arena_need k leaf + 1024 < scratch_budget k.
Proof.
  intros Hal. rewrite arena_need_split. unfold scratch_budget, mat_bytes.
  assert (He := scratch_elems_bound k leaf).
  assert (Hl := scratch_levels_bound k leaf).
  assert (Hsa : scratch_align = 16).
  { unfold scratch_align, kScratchAlignmentBytes. lia. }
  rewrite Hsa. unfold kScratchAlignmentBytes.
  set (n := 2 ^ Z.of_nat k) in *. nia.
Qed.

(** ** Procedures that cannot throw *)

Definition total {A} (c : M A) : Prop :=
  forall s, exists a s', c s = Ok a s'.

Lemma total_ret {A} (a : A) : total (ret a).
Proof. intros s. now exists a, s. Qed.

Lemma total_bind {A B} (c : M A) (f : A -> M B) :
  total c -> (forall a, total (f a)) -> total (bind c f).
Proof.
  intros Hc Hf s. destruct (Hc s) as (a & s1 & E).
  destruct (Hf a s1) as (b & s2 & E2). exists b, s2.
  now rewrite (bind_ok _ _ _ _ _ E).
Qed.

Lemma total_for_loop {X} (body : Z -> X -> M X) (cnt : nat) (lo : Z) (x : X) :
  (forall i y, lo <= i < lo + Z.of_nat cnt -> total (body i y)) ->
  total (for_loop cnt lo x body).
Proof.
  revert lo x. induction cnt as [|cnt IH]; intros lo x Hb.
  - apply total_ret.
  - simpl. apply total_bind.
    + apply Hb. lia.
    + intros y. apply IH. intros i z Hi. apply Hb. lia.
Qed.

Lemma total_for_range {X} (body : Z -> X -> M X) (lo hi : Z) (x : X) :
  (forall i y, lo <= i < hi -> total (body i y)) ->
  total (for_range lo hi x body).
Proof. intros Hb. apply total_for_loop. intros i y Hi. apply Hb. lia. Qed.

Lemma total_for_each (body : Z -> M unit) (lo hi : Z) :
  (forall i, lo <= i < hi -> total (body i)) -> total (for_each lo hi body).
Proof. intros Hb. apply total_for_range. intros i _. apply Hb. Qed.

Lemma total_view_get (V : MatrixView) (r c : Z) :
  0 <= r < rows V -> 0 <= c < cols V -> total (view_get V r c).
Proof. intros Hr Hc s. rewrite view_get_in by assumption. eauto. Qed.

Lemma total_view_set (V : MatrixView) (r c : Z) (v : T) :
  0 <= r < rows V -> 0 <= c < cols V -> total (view_set V r c v).
Proof. intros Hr Hc s. rewrite view_set_in by assumption. eauto. Qed.

Lemma total_count_mul (ops : bool) (k : Z) : total (count_mul ops k).
Proof. intros s. destruct (count_mul_run ops k s) as (s' & E & _). eauto. Qed.

Lemma total_count_add (ops : bool) (k : Z) : total (count_add ops k).
Proof. intros s. destruct (count_add_run ops k s) as (s' & E & _). eauto. Qed.

Ltac total_step :=
  first
    [ apply total_bind; [|intros ?]
    | apply total_for_each; intros ? ?
    | apply total_for_range; intros ? ? ?
    | apply total_view_get; lia
    | apply total_view_set; lia
    | apply total_count_mul | apply total_count_add | apply total_ret ].

Lemma gemm_naive_total (A B C : MatrixView) (ops : bool) :
  cols A = rows B -> rows C = rows A -> cols C = cols B -> 0 <= cols A ->
  total (gemm_naive A B C ops).
Proof.
  intros HAB HrC HcC Hk. unfold gemm_naive, gemm_naive_impl.
  rewrite !neq_false by congruence. simpl andb. unfold check.
  apply total_bind; [apply total_ret|intros _].
  apply total_bind; [apply total_ret|intros _].
  apply total_for_each; intros i Hi. apply total_for_each; intros j Hj.
  destruct (Z.eqb_spec (cols A) 0); repeat total_step.
Qed.

Lemma combine_total (m : Z) (M1 M2 M3 M4 M5 M6 M7 C11 C12 C21 C22 : MatrixView)
  (ops : bool) :
  (forall X, In X [M1; M2; M3; M4; M5; M6; M7; C11; C12; C21; C22] ->
     rows X = m /\ cols X = m) ->
  total (combine m M1 M2 M3 M4 M5 M6 M7 C11 C12 C21 C22 ops).
Proof.
  intros HX. unfold combine.
  apply total_for_each; intros i Hi. apply total_for_each; intros j Hj.
  repeat first
    [ apply total_bind; [|intros ?]
    | apply total_count_add
    | match goal with
      | |- total (view_get ?V _ _) =>
        destruct (HX V ltac:(simpl; tauto)); apply total_view_get; lia
      | |- total (view_set ?V _ _ _) =>
        destruct (HX V ltac:(simpl; tauto)); apply total_view_set; lia
      end ].
Qed.

(** ** Operands of a call *)

(** Three [n x n] views, each within one object. *)
Definition square_operands (n : Z) (A B C : MatrixView) : Prop :=
  rows A = n /\ cols A = n /\ rows B = n /\ cols B = n /\
  rows C = n /\ cols C = n /\
  view_fits A /\ view_fits B /\ view_fits C.

(** The destination overlaps neither source, and none of the three
    overlaps the free part of the arena. *)
Definition separated (A B C : MatrixView) (a : ScratchArena) : Prop :=
  (forall p, In_view A p -> ~ In_view C p /\ ~ scratch a p) /\
  (forall p, In_view B p -> ~ In_view C p /\ ~ scratch a p) /\
  (forall p, In_view C p -> ~ scratch a p).

Lemma strassen_rec_run (k : nat) (A B C : MatrixView) (ops : bool) (leaf : Z)
  (s : state) :
  1 <= leaf ->
  square_operands (2 ^ Z.of_nat k) A B C ->
  separated A B C (arena s) ->
  counter_ok (counter s) ->
  mat_bytes (2 ^ Z.of_nat k) <= PTRDIFF_MAX ->
  arena_ok (arena s) ->
  off_bytes_ (arena s) + arena_need k leaf <= cap_bytes_ (arena s) ->
  exists s', strassen_rec A B C ops leaf s = Ok tt s' /\
    buf_ (arena s') = buf_ (arena s) /\
    cap_bytes_ (arena s') = cap_bytes_ (arena s) /\
    off_bytes_ (arena s') = off_bytes_ (arena s) /\
    hwm_bytes (arena s) <= hwm_bytes (arena s')
      <= Z.max (hwm_bytes (arena s)) (off_bytes_ (arena s) + arena_need k leaf) /\
    next_block s' = next_block s /\
    bumped (tick ops (strassen_mul_count k leaf (2 ^ Z.of_nat k)))
           (tick ops (strassen_add_count k leaf (2 ^ Z.of_nat k)))
           (counter s) (counter s') /\
    (forall p, ~ (In_view C p \/ scratch (arena s) p) ->
               load (heap s') p = load (heap s) p) /\
    shows s' C (strassen_fun k leaf (2 ^ Z.of_nat k)
                  (view_mat (heap s) A) (view_mat (heap s) B)).
Proof.
  intros Hleaf (HrA & HcA & HrB & HcB & HrC & HcC & HfA & HfB & HfC)
         (HsA & HsB & HsC) Hcnt Hb Hok Hneed.
  apply (strassen_rec_ok leaf ops k Hleaf A B C s); assumption.
Qed.

(** ** Scratch budget *)

(** C3. Let [n = 2 ^ k] and let the sizing formula's value for [n] be an
    object size (so that its 64-bit evaluation does not wrap), for a scalar
    type aligned to at most 16 bytes. If the engine runs on an arena at
    offset 0 whose capacity is at least [strassen_scratch_bytes n], then it
    returns normally, so no allocation hits the capacity branch, and the
    peak of the arena offset is at most the live scratch data plus the
    alignment padding, where the data is fewer than [3 n^2] elements, the
    padding at most [9 * 16 * log2 n] bytes, and both together leave the
    fixed margin of the formula untouched. *)
Theorem scratch_budget_never_exceeded (k : nat) (A B C : MatrixView) (ops : bool)
  (leaf : Z) (s : state) (sb : Z) :
  1 <= leaf -> alignofT <= 16 ->
  square_operands (2 ^ Z.of_nat k) A B C ->
  separated A B C (arena s) ->
  counter_ok (counter s) ->
  scratch_budget k <= PTRDIFF_MAX ->
  strassen_scratch_bytes (2 ^ Z.of_nat k) = inr sb ->
  off_bytes_ (arena s) = 0 ->
  sb <= cap_bytes_ (arena s) <= PTRDIFF_MAX ->
  let n := 2 ^ Z.of_nat k in
  let live := scratch_elems k leaf in
  let padding := 9 * (scratch_align - 1) * scratch_levels k leaf in
  exists s', strassen_rec A B C ops leaf s = Ok tt s' /\
    hwm_bytes (arena s')
      <= Z.max (hwm_bytes (arena s)) (live * sizeofT + padding) /\
    live < 3 * (n * n) /\
    padding <= 9 * Z.log2 n * kScratchAlignmentBytes /\
    live * sizeofT + padding + 1024 < sb /\
    (hwm_bytes (arena s) <= sb -> hwm_bytes (arena s') <= sb).
Proof.
  intros Hleaf Hal Hops Hsep Hcnt Hbud Hsb Hoff Hcap n live padding.
  assert (Hbud' : scratch_budget k <= SIZE_MAX)
    by (unfold SIZE_MAX, two64, PTRDIFF_MAX in *; lia).
  rewrite (strassen_scratch_bytes_pow2 k Hbud') in Hsb. injection Hsb as <-.
  assert (Hneed := arena_need_budget k leaf Hal).
  assert (Hneed0 := arena_need_nonneg k leaf).
  assert (Hsplit := arena_need_split k leaf).
  assert (Hmb : mat_bytes (2 ^ Z.of_nat k) <= PTRDIFF_MAX).
  { unfold scratch_budget, kScratchAlignmentBytes in Hbud.
    assert (0 <= mat_bytes (2 ^ Z.of_nat k))
      by (unfold mat_bytes; assert (Hp := pow2_pos k); nia).
    lia. }
  destruct (strassen_rec_run k A B C ops leaf s Hleaf Hops Hsep Hcnt Hmb)
    as (s' & E & _ & _ & _ & Hhw & _).
  { unfold arena_ok. lia. }
  { lia. }
  exists s'. split; [exact E|].
  fold live padding in Hsplit.
  assert (He := scratch_elems_bound k leaf). fold live n in He.
  assert (Hl := scratch_levels_bound k leaf).
  assert (Hsa : scratch_align = 16)
    by (unfold scratch_align, kScratchAlignmentBytes; lia).
  assert (Hlog : Z.log2 n = Z.of_nat k) by (apply Z.log2_pow2; lia).
  rewrite Hlog, Hoff in *. unfold kScratchAlignmentBytes.
  assert (Hpad : padding <= 9 * Z.of_nat k * 16)
    by (unfold padding; rewrite Hsa; lia).
  unfold scratch_budget, kScratchAlignmentBytes in *.
  repeat split; lia.
Qed.

(** ** Operation counts *)

Lemma naive_add_count_eq (n : Z) : naive_add_count n = n * n * (n - 1).
Proof.
  unfold naive_add_count. destruct (Z.eqb_spec n 0) as [->|]; reflexivity.
Qed.

Lemma tick_true (x : Z) : tick true x = x.
Proof. reflexivity. Qed.

(** C4. With a counter supplied and counting compiled in:
    - the triple loop on [N x N] operands adds [N^3] to the multiply counter
      and [N^2 (N - 1)] to the add counter (64-bit counters);
    - the recursive engine on [n = 2 ^ k] adds [strassen_mul_count] and
      [strassen_add_count], which at or below the leaf size are the counts of
      the triple loop and above it satisfy [mul(n) = 7 mul(n/2)] and
      [add(n) = 7 add(n/2) + 18 (n/2)^2];
    - [mat_sub] counts one add per element exactly as [mat_add] does, and
      the combination step counts 8 adds per element. *)
Theorem operation_counts (N : Z) (An Bn Cn : MatrixView) (sn : state)
  (k : nat) (A B C : MatrixView) (leaf : Z) (s : state) :
  0 <= N ->
  rows An = N -> cols An = N -> rows Bn = N -> cols Bn = N ->
  rows Cn = N -> cols Cn = N ->
  counter_ok (counter sn) ->
  1 <= leaf ->
  square_operands (2 ^ Z.of_nat k) A B C ->
  separated A B C (arena s) ->
  counter_ok (counter s) ->
  mat_bytes (2 ^ Z.of_nat k) <= PTRDIFF_MAX ->
  arena_ok (arena s) ->
  off_bytes_ (arena s) + arena_need k leaf <= cap_bytes_ (arena s) ->
  let n := 2 ^ Z.of_nat k in
  (exists sn', gemm_naive An Bn Cn true sn = Ok tt sn' /\
     mul (counter sn') = wrap (mul (counter sn) + N * N * N) /\
     add (counter sn') = wrap (add (counter sn) + N * N * (N - 1))) /\
  (exists s', strassen_rec A B C true leaf s = Ok tt s' /\
     mul (counter s') = wrap (mul (counter s) + strassen_mul_count k leaf n) /\
     add (counter s') = wrap (add (counter s) + strassen_add_count k leaf n)) /\
  (n <= leaf ->
     strassen_mul_count k leaf n = n * n * n /\
     strassen_add_count k leaf n = n * n * (n - 1)) /\
  (leaf < n ->
     strassen_mul_count k leaf n = 7 * strassen_mul_count (pred k) leaf (n / 2) /\
     strassen_add_count k leaf n =
       7 * strassen_add_count (pred k) leaf (n / 2) + 18 * ((n / 2) * (n / 2))) /\
  (forall X Y Out, 0 <= rows X -> 0 <= cols X ->
     counts 0 (rows X * cols X) (mat_sub X Y Out true) /\
     counts 0 (rows X * cols X) (mat_add X Y Out true)) /\
  (forall m M1 M2 M3 M4 M5 M6 M7 C11 C12 C21 C22, 0 <= m ->
     counts 0 (8 * (m * m)) (combine m M1 M2 M3 M4 M5 M6 M7 C11 C12 C21 C22 true)).
Proof.
  intros HN HrAn HcAn HrBn HcBn HrCn HcCn Hcntn Hleaf Hops Hsep Hcnt Hmb
         Hok Hneed n.
  split; [|split; [|split; [|split; [|split]]]].
  - destruct (gemm_naive_total An Bn Cn true) with (s := sn) as ([] & sn' & E);
      try congruence; try lia.
    exists sn'. split; [exact E|].
    assert (Hc := counts_run _ _ _ _ _ _
                    (gemm_naive_counts An Bn Cn true ltac:(lia) ltac:(lia) ltac:(lia))
                    Hcntn E).
    rewrite !tick_true in Hc. rewrite HrAn, HcAn, HcBn in Hc.
    fold (naive_add_count N) in Hc. rewrite naive_add_count_eq in Hc.
    destruct Hc as (_ & Hm & Ha). split; assumption.
  - destruct (strassen_rec_run k A B C true leaf s Hleaf Hops Hsep Hcnt Hmb Hok Hneed)
      as (s' & E & _ & _ & _ & _ & _ & Hc & _).
    exists s'. split; [exact E|]. rewrite !tick_true in Hc.
    destruct Hc as (_ & Hm & Ha). split; assumption.
  - intros Hle.
    rewrite strassen_mul_count_leaf, strassen_add_count_leaf by assumption.
    rewrite naive_add_count_eq. split; reflexivity.
  - intros Hlt. destruct k as [|k].
    + unfold n in Hlt. simpl in Hlt. lia.
    + rewrite strassen_mul_count_S, strassen_add_count_S by assumption.
      split; reflexivity.
  - intros X Y Out Hr Hc. split.
    + apply (mat_sub_counts X Y Out true Hr Hc).
    + apply (mat_add_counts X Y Out true Hr Hc).
  - intros m M1 M2 M3 M4 M5 M6 M7 C11 C12 C21 C22 Hm.
    apply (combine_counts m M1 M2 M3 M4 M5 M6 M7 C11 C12 C21 C22 true Hm).
Qed.

(** ** Agreement with the triple loop *)

Lemma In_view_blk (V : MatrixView) (p : ptr) : In_view V p -> blk p = blk (data V).
Proof. intros (r & c & _ & _ & ->). reflexivity. Qed.

Lemma with_arena_ok {A} (a : ScratchArena) (body : M A) (s s1 : state) (x : A) :
  body (mkState (heap s) (next_block s) a (counter s)) = Ok x s1 ->
  with_arena a body s =
  Ok x (mkState (heap s1) (next_block s1) (arena s) (counter s1)).
Proof. intros H. unfold with_arena. now rewrite H. Qed.

Lemma ScratchArena_new_run (cap : Z) (s : state) :
  0 < cap ->
  ScratchArena_new cap s =
  Ok (mkArena (mkptr (next_block s) 0) cap 0 0)
     (mkState (heap s) (next_block s + 1) (arena s) (counter s)).
Proof.
  intros Hcap. unfold ScratchArena_new, bind, AlignedBuffer_allocate.
  destruct (Z.eqb_spec cap 0); [lia|]. reflexivity.
Qed.

(** The engine on a fresh arena of the size given by the sizing policy. *)
Lemma sized_arena_run (k : nat) (A B C : MatrixView) (ops : bool) (leaf : Z)
  (s : state) :
  1 <= leaf -> alignofT <= 16 ->
  square_operands (2 ^ Z.of_nat k) A B C ->
  (forall p, In_view A p -> ~ In_view C p) ->
  (forall p, In_view B p -> ~ In_view C p) ->
  blk (data A) <> next_block s -> blk (data B) <> next_block s ->
  blk (data C) <> next_block s ->
  counter_ok (counter s) ->
  scratch_budget k <= PTRDIFF_MAX ->
  exists cap s',
    strassen_scratch_bytes (2 ^ Z.of_nat k) = inr cap /\
    (ar <- ScratchArena_new cap ;; with_arena ar (strassen_rec A B C ops leaf)) s
    = Ok tt s' /\
    arena s' = arena s /\
    (forall p, ~ In_view C p -> blk p <> next_block s ->
               load (heap s') p = load (heap s) p) /\
    shows s' C (strassen_fun k leaf (2 ^ Z.of_nat k)
                  (view_mat (heap s) A) (view_mat (heap s) B)).
Proof.
  intros Hleaf Hal Hops HdA HdB HbA HbB HbC Hcnt Hbud.
  assert (Hbud' : scratch_budget k <= SIZE_MAX)
    by (unfold SIZE_MAX, two64, PTRDIFF_MAX in *; lia).
  assert (Hneed := arena_need_budget k leaf Hal).
  assert (Hneed0 := arena_need_nonneg k leaf).
  assert (Hmb0 : 0 <= mat_bytes (2 ^ Z.of_nat k))
    by (unfold mat_bytes; assert (Hp := pow2_pos k); nia).
  assert (Hmb : mat_bytes (2 ^ Z.of_nat k) <= PTRDIFF_MAX).
  { unfold scratch_budget, kScratchAlignmentBytes in Hbud. lia. }
  exists (scratch_budget k).
  set (ar := mkArena (mkptr (next_block s) 0) (scratch_budget k) 0 0).
  set (s1 := mkState (heap s) (next_block s + 1) ar (counter s)).
  destruct (strassen_rec_run k A B C ops leaf s1 Hleaf Hops) as
      (s2 & E & _ & _ & _ & _ & Hnb & _ & Hfr & Hv).
  { unfold separated, scratch. simpl.
    split; [|split]; intros q Hq; [split; [apply HdA; exact Hq|]
                                  |split; [apply HdB; exact Hq|] |];
      apply In_view_blk in Hq; intros [Hb _]; congruence. }
  { exact Hcnt. }
  { exact Hmb. }
  { unfold arena_ok. simpl. lia. }
  { simpl. lia. }
  eexists. split; [apply strassen_scratch_bytes_pow2; exact Hbud'|].
  split.
  { cbv beta. unfold bind.
    rewrite (ScratchArena_new_run (scratch_budget k))
      by (unfold scratch_budget, kScratchAlignmentBytes; lia).
    apply with_arena_ok. exact E. }
  simpl. split; [reflexivity|]. split; [|exact Hv].
  intros p HpC Hpb. rewrite Hfr; [reflexivity|].
  unfold scratch. simpl. intros [H|[H _]]; contradiction.
Qed.

Lemma pow2_exponent_small (k : nat) :
  mat_bytes (2 ^ Z.of_nat k) <= PTRDIFF_MAX -> Z.of_nat k < 64.
Proof.
  intros Hb. destruct (Z_lt_ge_dec (Z.of_nat k) 64) as [|Hge]; [assumption|].
  exfalso. assert (H64 : 2 ^ 64 <= 2 ^ Z.of_nat k) by (apply Z.pow_le_mono_r; lia).
  change (2 ^ 64) with 18446744073709551616 in H64.
  unfold mat_bytes, PTRDIFF_MAX in Hb. nia.
Qed.

Lemma lift_inr {A} (a : A) (s : state) : lift (inr a) s = Ok a s.
Proof. reflexivity. Qed.

(** On operands of one power-of-two size the pre-sized entry point passes
    its checks and runs the engine. *)
Lemma prealloc_pow2 (k : nat) (A B C : MatrixView) (ops : bool)
  (cfg : StrassenConfig) (s : state) :
  square_operands (2 ^ Z.of_nat k) A B C ->
  mat_bytes (2 ^ Z.of_nat k) <= PTRDIFF_MAX ->
  gemm_strassen_pow2_prealloc A B C ops cfg s =
  strassen_rec A B C ops (leaf_size cfg) s.
Proof.
  intros (HrA & HcA & HrB & HcB & HrC & HcC & _) Hmb.
  assert (Hk := pow2_exponent_small k Hmb).
  unfold gemm_strassen_pow2_prealloc.
  rewrite !neq_false by congruence. rewrite HrA.
  rewrite is_power_of_two_pow2 by lia. simpl andb. simpl negb.
  rewrite !(bind_ok _ _ s s tt (check_pass _ s)). reflexivity.
Qed.

(** C7, as the code has it. When the size is not a power of two the
    pre-sized entry point throws [invalid_argument] and leaves the whole
    state, and so [C] and the arena, as it was. The capacity of the arena
    is not among the preconditions: on a power-of-two size the call returns
    normally on every arena whose free room covers the scratch matrices of
    the recursion, whatever its capacity. *)
Theorem prealloc_rejects_non_power_of_two (A B C : MatrixView) (ops : bool)
  (cfg : StrassenConfig) (s : state) :
  (0 <= rows A < two64 ->
   (forall k, 0 <= k -> rows A <> 2 ^ k) ->
   gemm_strassen_pow2_prealloc A B C ops cfg s = Throw invalid_argument s) /\
  (forall k : nat,
     1 <= leaf_size cfg ->
     square_operands (2 ^ Z.of_nat k) A B C ->
     separated A B C (arena s) ->
     counter_ok (counter s) ->
     mat_bytes (2 ^ Z.of_nat k) <= PTRDIFF_MAX ->
     arena_ok (arena s) ->
     off_bytes_ (arena s) + arena_need k (leaf_size cfg)
     <= cap_bytes_ (arena s) ->
     exists s', gemm_strassen_pow2_prealloc A B C ops cfg s = Ok tt s' /\
       used_bytes (arena s') = used_bytes (arena s) /\
       capacity_bytes (arena s') = capacity_bytes (arena s)).
Proof.
  split.
  - apply prealloc_not_pow2.
  - intros k Hleaf Hops Hsep Hcnt Hmb Hok Hneed.
    destruct (strassen_rec_run k A B C ops (leaf_size cfg) s Hleaf Hops Hsep
                Hcnt Hmb Hok Hneed) as (s' & E & _ & Hc & Ho & _).
    exists s'. rewrite (prealloc_pow2 k) by assumption.
    split; [exact E|]. split; assumption.
Qed.

Section Equivalence.

Variable Tone : T.
Variable Topp : T -> T.
Hypothesis Tring : ring_theory Tzero Tone Tadd Tmul Tsub Topp (@eq T).


End Equivalence.

(** ** Behaviour on failure *)

Lemma triple_pure_l {A} (P : state -> Prop) (phi : Prop) (c : M A) Q E :
  (phi -> triple P c Q E) -> triple (fun t => P t /\ phi) c Q E.
Proof. intros H s (HP & Hphi). apply (H Hphi s HP). Qed.

Lemma triple_lift {A} (P : state -> Prop) (r : exn + A) :
  triple P (lift r) (fun a t => P t /\ r = inr a) (fun _ t => P t).
Proof. intros s HP. unfold lift. destruct r; auto. Qed.

Lemma subview_inr (V S : MatrixView) (r0 c0 rcount ccount : Z) :
  subview V r0 c0 rcount ccount = inr S -> S = subview_of V r0 c0 rcount ccount.
Proof.
  unfold subview. destruct (_ && _); intros H; [discriminate|].
  now injection H as <-.
Qed.

(** Relative to the state [s0] at entry: same arena buffer and capacity, an
    offset not below the one at entry, and no write outside the arena's
    block. *)
Definition within_arena (s0 t : state) : Prop :=
  buf_ (arena t) = buf_ (arena s0) /\
  cap_bytes_ (arena t) = cap_bytes_ (arena s0) /\
  arena_ok (arena t) /\
  off_bytes_ (arena s0) <= off_bytes_ (arena t) /\
  forall p, blk p <> blk (buf_ (arena s0)) -> load (heap t) p = load (heap s0) p.

(** The same, with writes to the block of [C] allowed and the offset back
    where it was. *)
Definition within_arena_and (C : MatrixView) (s0 t : state) : Prop :=
  buf_ (arena t) = buf_ (arena s0) /\
  cap_bytes_ (arena t) = cap_bytes_ (arena s0) /\
  off_bytes_ (arena t) = off_bytes_ (arena s0) /\
  forall p, blk p <> blk (buf_ (arena s0)) -> blk p <> blk (data C) ->
            load (heap t) p = load (heap s0) p.

Lemma within_arena_refl (s : state) : arena_ok (arena s) -> within_arena s s.
Proof. intros H. unfold within_arena. repeat split; try apply H; lia. Qed.

Lemma within_arena_trans (s0 t t' : state) :
  within_arena s0 t -> within_arena t t' -> within_arena s0 t'.
Proof.
  intros (Hb & Hc & Hok & Ho & Hf) (Hb' & Hc' & Hok' & Ho' & Hf').
  unfold within_arena. split; [congruence|]. split; [congruence|].
  split; [exact Hok'|]. split; [lia|].
  intros p Hp. rewrite Hf' by (rewrite Hb; exact Hp). apply Hf. exact Hp.
Qed.

Lemma confined_within (W : ptr -> Prop) (s0 t t' : state) :
  within_arena s0 t -> same_outside W t t' ->
  (forall p, W p -> blk p = blk (buf_ (arena s0))) ->
  within_arena s0 t'.
Proof.
  intros (Hb & Hc & Hok & Ho & Hf) (Har & _ & Hfr) HW.
  unfold within_arena. rewrite Har.
  split; [exact Hb|]. split; [exact Hc|]. split; [exact Hok|]. split; [exact Ho|].
  intros p Hp. rewrite Hfr; [apply Hf; exact Hp|].
  intros HWp. apply Hp. apply HW. exact HWp.
Qed.

Lemma triple_confined_within {A} (W : ptr -> Prop) (c : M A) (s0 : state) :
  confined W c ->
  (forall p, W p -> blk p = blk (buf_ (arena s0))) ->
  triple (within_arena s0) c (fun _ => within_arena s0) (fun _ => within_arena s0).
Proof.
  intros Hc HW t Ht. generalize (confined_run W c t Hc).
  destruct (c t); auto; intros Hso; eapply confined_within; eassumption.
Qed.

Lemma triple_alloc_within (m : Z) (s0 : state) :
  0 < m -> 4 * mat_bytes m <= PTRDIFF_MAX ->
  triple (within_arena s0) (arena_alloc_matrix m m)
         (fun V t => within_arena s0 t /\
                     (rows V = m /\ cols V = m /\
                      blk (data V) = blk (buf_ (arena s0))))
         (fun _ => within_arena s0).
Proof.
  intros Hm Hb t (Hbuf & Hcap & Hok & Ho & Hf). unfold arena_alloc_matrix.
  destruct (alloc_matrix m m (arena t)) as [e|[V a']] eqn:E.
  - unfold within_arena. auto.
  - destruct (alloc_matrix_monotone m (arena t) a' V ltac:(lia) Hb Hok E)
      as (HrV & HcV & _ & HbV & Hb' & Hc' & Ho' & Hok').
    unfold within_arena. simpl.
    repeat split; try congruence; try apply Hok'; try lia.
    + exact Hf.
    + rewrite HbV by lia. congruence.
Qed.

(** What the engine guarantees on each exit, with no assumption on the
    operands beyond their size being an object size. *)
Definition contained (c : MatrixView -> MatrixView -> MatrixView -> M unit)
  (n : Z) : Prop :=
  forall A B C s,
    rows A = n -> arena_ok (arena s) ->
    triple (fun t => t = s) (c A B C)
           (fun _ t => within_arena_and C s t)
           (fun _ t => within_arena s t).

Lemma triple_contained_within
  (rec : MatrixView -> MatrixView -> MatrixView -> M unit) (m : Z)
  (X Y D : MatrixView) (s0 : state) :
  contained rec m -> rows X = m ->
  blk (data D) = blk (buf_ (arena s0)) ->
  triple (within_arena s0) (rec X Y D)
         (fun _ => within_arena s0) (fun _ => within_arena s0).
Proof.
  intros Hrec HrX HbD t Ht.
  assert (Ht' := Ht). destruct Ht' as (Hb & Hc & Hok & Ho & Hf).
  specialize (Hrec X Y D t HrX Hok t eq_refl).
  destruct (rec X Y D t) as [[] t'|e t'|]; auto.
  - destruct Hrec as (Hb' & Hc' & Ho' & Hf').
    unfold within_arena. split; [congruence|]. split; [congruence|].
    split; [unfold arena_ok in *; rewrite Hc', Ho'; exact Hok|].
    split; [lia|].
    intros p Hp. rewrite Hf'; [apply Hf; exact Hp| |]; congruence.
  - eapply within_arena_trans; eassumption.
Qed.

Lemma triple_combine_within (m : Z) (M1 M2 M3 M4 M5 M6 M7 C : MatrixView)
  (r1 c1 r2 c2 r3 c3 r4 c4 : Z) (ops : bool) (s0 : state) :
  (forall X, In X [M1; M2; M3; M4; M5; M6; M7] -> rows X = m /\ cols X = m) ->
  triple (within_arena s0)
         (combine m M1 M2 M3 M4 M5 M6 M7
                  (subview_of C r1 c1 m m) (subview_of C r2 c2 m m)
                  (subview_of C r3 c3 m m) (subview_of C r4 c4 m m) ops)
         (fun _ t =>
            buf_ (arena t) = buf_ (arena s0) /\
            cap_bytes_ (arena t) = cap_bytes_ (arena s0) /\
            off_bytes_ (arena s0) <= off_bytes_ (arena t) /\
            forall p, blk p <> blk (buf_ (arena s0)) -> blk p <> blk (data C) ->
                      load (heap t) p = load (heap s0) p)
         (fun _ => within_arena s0).
Proof.
  intros HM t (Hb & Hc & Hok & Ho & Hf).
  destruct (combine_total m M1 M2 M3 M4 M5 M6 M7
              (subview_of C r1 c1 m m) (subview_of C r2 c2 m m)
              (subview_of C r3 c3 m m) (subview_of C r4 c4 m m) ops)
    with (s := t) as ([] & t' & E).
  { intros X HX. simpl in HX.
    destruct HX as [<-|[<-|[<-|[<-|[<-|[<-|[<-|[<-|[<-|[<-|[<-|[]]]]]]]]]]]];
      try (apply HM; simpl; tauto); split; reflexivity. }
  generalize (confined_run _ _ t
                (combine_confined m M1 M2 M3 M4 M5 M6 M7
                   (subview_of C r1 c1 m m) (subview_of C r2 c2 m m)
                   (subview_of C r3 c3 m m) (subview_of C r4 c4 m m) ops)).
  rewrite E. intros (Har & _ & Hfr). rewrite Har.
  split; [exact Hb|]. split; [exact Hc|]. split; [exact Ho|].
  intros p Hp HpC. rewrite Hfr; [apply Hf; exact Hp|].
  intros [H|[H|[H|H]]]; apply In_view_blk in H; apply HpC; exact H.
Qed.

Ltac contained_lift :=
  eapply triple_bind;
  [ apply triple_lift
  | let V := fresh "V" in
    let HV := fresh "HV" in
    intros V; apply triple_pure_l; intros HV;
    apply subview_inr in HV; subst V ].

Ltac contained_alloc Hm Hb :=
  eapply triple_bind;
  [ apply triple_alloc_within; [exact Hm | exact Hb]
  | let V := fresh "W" in
    let HrV := fresh "HrW" in
    let HcV := fresh "HcW" in
    let HbV := fresh "HbW" in
    intros V; apply triple_pure_l; intros (HrV & HcV & HbV) ].

Ltac contained_zip s :=
  eapply triple_bind;
  [ lazymatch goal with
    | |- triple _ (mat_add _ _ _ _) _ _ =>
      apply (triple_confined_within _ _ s (mat_add_confined _ _ _ _))
    | |- triple _ (mat_sub _ _ _ _) _ _ =>
      apply (triple_confined_within _ _ s (mat_sub_confined _ _ _ _))
    end;
    let p := fresh "p" in
    let Hp := fresh "Hp" in
    intros p Hp; apply In_view_blk in Hp; congruence
  | intro; cbv beta ].

Ltac contained_rec Hrec s :=
  eapply triple_bind;
  [ apply (triple_contained_within _ _ _ _ _ s Hrec);
    [ first [reflexivity | assumption] | assumption ]
  | intro; cbv beta ].

Lemma strassen_body_contained
  (rec : MatrixView -> MatrixView -> MatrixView -> M unit)
  (A B C : MatrixView) (ops : bool) (s : state) :
  contained rec (rows A / 2) ->
  0 < rows A / 2 -> 4 * mat_bytes (rows A / 2) <= PTRDIFF_MAX ->
  arena_ok (arena s) ->
  triple (fun t => t = s) (strassen_body rec A B C ops)
         (fun _ t => within_arena_and C s t)
         (fun _ t => within_arena s t).
Proof.
  intros Hrec Hm Hb Hok t ->. unfold strassen_body.
  rewrite (bind_ok arena_mark _ s s (mark (arena s)) eq_refl).
  set (m := rows A / 2) in *.
  match goal with
  | |- match ?c s with _ => _ end =>
    assert (Hrest : triple (within_arena s) c
                      (fun _ t => within_arena_and C s t)
                      (fun _ t => within_arena s t))
  end.
  { do 12 contained_lift.
    do 9 (contained_alloc Hm Hb).
    contained_zip s. contained_zip s. contained_rec Hrec s.
    contained_zip s. contained_rec Hrec s.
    contained_zip s. contained_rec Hrec s.
    contained_zip s. contained_rec Hrec s.
    contained_zip s. contained_rec Hrec s.
    contained_zip s. contained_zip s. contained_rec Hrec s.
    contained_zip s. contained_zip s. contained_rec Hrec s.
    eapply triple_bind.
    - apply triple_combine_within. intros X HX. simpl in HX.
      destruct HX as [<-|[<-|[<-|[<-|[<-|[<-|[<-|[]]]]]]]]; split; assumption.
    - intros u t (Hbuf & Hcap & Hoff & Hfr).
      rewrite arena_rollback_run by (unfold mark; exact Hoff).
      unfold within_arena_and, mark. simpl. auto. }
  apply (Hrest s (within_arena_refl s Hok)).
Qed.

Lemma log2_half (n : Z) : 2 <= n -> Z.log2 (n / 2) = Z.log2 n - 1.
Proof.
  intros Hn. destruct (Z.log2_spec n ltac:(lia)) as [Hlo Hhi].
  assert (Hk : 1 <= Z.log2 n).
  { change 1 with (Z.log2 2). apply Z.log2_le_mono. exact Hn. }
  apply Z.log2_unique; [lia|].
  replace (Z.succ (Z.log2 n - 1)) with (Z.log2 n) by lia.
  rewrite Z.pow_succ_r in Hhi by lia.
  replace (Z.log2 n) with (Z.succ (Z.log2 n - 1)) in Hlo by lia.
  rewrite Z.pow_succ_r in Hlo by lia.
  assert (Hp : 0 < 2 ^ (Z.log2 n - 1)) by (apply Z.pow_pos_nonneg; lia).
  split.
  - apply Z.div_le_lower_bound; lia.
  - apply Z.div_lt_upper_bound; lia.
Qed.

Lemma strassen_rec_fuel_contained (ops : bool) (leaf : Z) (fuel : nat) (n : Z) :
  0 <= n -> Z.log2 n < Z.of_nat fuel -> mat_bytes n <= PTRDIFF_MAX ->
  contained (fun A B C => strassen_rec_fuel fuel A B C ops leaf) n.
Proof.
  revert n. induction fuel as [|fuel IH]; intros n Hn Hlog Hb.
  { assert (H := Z.log2_nonneg n). lia. }
  intros A B C s HrA Hok t ->. rewrite strassen_rec_fuel_S.
  destruct (MATMUL_ENABLE_CHECKS
            && (neq (rows A) (cols A) || neq (rows B) (cols B)
                || neq (rows C) (cols C))) eqn:Hc1.
  { simpl. apply within_arena_refl. exact Hok. }
  rewrite (bind_ok _ _ s s tt (check_pass _ s)).
  destruct (MATMUL_ENABLE_CHECKS
            && (neq (rows A) (rows B) || neq (rows A) (rows C))) eqn:Hc2.
  { simpl. apply within_arena_refl. exact Hok. }
  rewrite (bind_ok _ _ s s tt (check_pass _ s)).
  simpl in Hc1, Hc2.
  apply orb_false_iff in Hc1. destruct Hc1 as [Hc1 HsqC].
  apply orb_false_iff in Hc1. destruct Hc1 as [HsqA HsqB].
  apply orb_false_iff in Hc2. destruct Hc2 as [HAB HAC].
  apply neq_false_inv in HsqA, HsqB, HsqC, HAB, HAC.
  destruct (Z.eqb_spec (rows A) 0) as [Hz|Hnz].
  { simpl. unfold within_arena_and. auto. }
  destruct (rows A <=? leaf).
  { destruct (gemm_naive_total A B C ops) with (s := s) as ([] & s' & E);
      try congruence; try lia.
    generalize (confined_run _ _ s (gemm_naive_confined A B C ops)).
    rewrite E. intros (Har & _ & Hfr). unfold within_arena_and. rewrite Har.
    repeat split. intros p _ HpC. apply Hfr. intros Hin.
    apply In_view_blk in Hin. contradiction. }
  destruct (neq (rows A mod 2) 0) eqn:Hodd.
  { simpl. apply within_arena_refl. exact Hok. }
  apply neq_false_inv in Hodd.
  assert (Hdm := Z.div_mod (rows A) 2 ltac:(lia)).
  assert (Hm : 0 < rows A / 2) by lia.
  assert (Hb4 : 4 * mat_bytes (rows A / 2) <= PTRDIFF_MAX).
  { rewrite <- mat_bytes_double. replace (2 * (rows A / 2)) with (rows A) by lia.
    rewrite HrA. exact Hb. }
  assert (Hmb0 : 0 <= mat_bytes (rows A / 2)) by (unfold mat_bytes; nia).
  apply (strassen_body_contained _ A B C ops s); try assumption; try reflexivity.
  apply IH; try lia.
  rewrite log2_half by lia. rewrite HrA. lia.
Qed.

(** C6. Let the operands' size be an object size, the arena well formed,
    and [C] live outside the arena's buffer. A top-level call of the engine
    or of the pre-sized entry point always terminates; if it throws, for
    whatever reason, the block holding [C] is exactly as it was before the
    call; and a call with non-square or mismatched operands throws
    [invalid_argument] without changing the state at all. *)
Theorem failure_leaves_destination_untouched (A B C : MatrixView) (ops : bool)
  (cfg : StrassenConfig) (leaf : Z) (s : state) :
  0 <= rows A -> mat_bytes (rows A) <= PTRDIFF_MAX ->
  arena_ok (arena s) ->
  blk (data C) <> blk (buf_ (arena s)) ->
  strassen_rec A B C ops leaf s <> Diverge /\
  (forall e s',
     strassen_rec A B C ops leaf s = Throw e s' \/
     gemm_strassen_pow2_prealloc A B C ops cfg s = Throw e s' ->
     forall o, heap s' (blk (data C)) o = heap s (blk (data C)) o) /\
  (rows A <> cols A \/ rows B <> cols B \/ rows C <> cols C \/
   rows A <> rows B \/ rows A <> rows C ->
   strassen_rec A B C ops leaf s = Throw invalid_argument s /\
   gemm_strassen_pow2_prealloc A B C ops cfg s = Throw invalid_argument s).
Proof.
  intros Hn Hb Hok HC.
  assert (Hcont : forall lf,
            triple (fun t => t = s) (strassen_rec A B C ops lf)
                   (fun _ t => within_arena_and C s t)
                   (fun _ t => within_arena s t)).
  { intros lf. unfold strassen_rec.
    apply (strassen_rec_fuel_contained ops lf _ (rows A)); try assumption;
      try reflexivity. lia. }
  assert (Hthrow : forall lf e s',
            strassen_rec A B C ops lf s = Throw e s' ->
            forall o, heap s' (blk (data C)) o = heap s (blk (data C)) o).
  { intros lf e s' E o. specialize (Hcont lf s eq_refl). rewrite E in Hcont.
    destruct Hcont as (_ & _ & _ & _ & Hfr).
    apply (Hfr (mkptr (blk (data C)) o)). exact HC. }
  split; [|split].
  - specialize (Hcont leaf s eq_refl). intros E. now rewrite E in Hcont.
  - intros e s' [E|E]; [apply (Hthrow leaf e s' E)|].
    unfold gemm_strassen_pow2_prealloc in E.
    repeat match type of E with
           | bind (check ?b invalid_argument) _ s = _ =>
             destruct b;
             [ rewrite (bind_throw _ _ s s invalid_argument (check_fail _ s)) in E;
               injection E as _ <-; reflexivity
             | rewrite (bind_ok _ _ s s tt (check_pass _ s)) in E ]
           end.
    apply (Hthrow (leaf_size cfg) e s' E).
  - intros Hbad.
    assert (Hrec : forall lf, strassen_rec A B C ops lf s = Throw invalid_argument s).
    { intros lf. unfold strassen_rec. rewrite strassen_rec_fuel_S.
      destruct (Z.eq_dec (rows A) (cols A)) as [HA|HA];
        [|rewrite (neq_true _ _ HA); reflexivity].
      destruct (Z.eq_dec (rows B) (cols B)) as [HB|HB];
        [|rewrite (neq_true _ _ HB), orb_true_r; reflexivity].
      destruct (Z.eq_dec (rows C) (cols C)) as [HCq|HCq];
        [|rewrite (neq_true _ _ HCq), orb_true_r; reflexivity].
      rewrite (neq_false _ _ HA), (neq_false _ _ HB), (neq_false _ _ HCq).
      simpl andb. rewrite (bind_ok _ _ s s tt (check_pass _ s)).
      destruct (Z.eq_dec (rows A) (rows B)) as [HAB|HAB];
        [|rewrite (neq_true _ _ HAB); reflexivity].
      destruct (Z.eq_dec (rows A) (rows C)) as [HAC|HAC];
        [|rewrite (neq_true _ _ HAC), orb_true_r; reflexivity].
      exfalso. tauto. }
    split; [apply Hrec|].
    unfold gemm_strassen_pow2_prealloc.
    repeat match goal with
           | |- bind (check ?b invalid_argument) _ s = _ =>
             destruct b;
             [reflexivity|rewrite (bind_ok _ _ s s tt (check_pass _ s))]
           end.
    apply Hrec.
Qed.

(** ** The next power of two, and owning matrices *)

Lemma next_power_of_two_loop_spec (fuel : nat) (j : nat) (n : Z) :
  0 < n <= 2 ^ 62 -> (j <= 62)%nat -> (63 <= fuel + j)%nat ->
  (j = O \/ 2 ^ Z.of_nat j / 2 < n) ->
  exists k : nat,
    next_power_of_two_loop fuel (2 ^ Z.of_nat j) n = Some (2 ^ Z.of_nat k) /\
    n <= 2 ^ Z.of_nat k /\ (k = O \/ 2 ^ Z.of_nat k / 2 < n).
Proof.
  intros Hn. revert j. induction fuel as [|fuel IH]; intros j Hj Hf Hinv.
  - lia.
  - assert (Hp := pow2_pos j).
    assert (Hle : 2 ^ Z.of_nat j <= 2 ^ 62) by (apply Z.pow_le_mono_r; lia).
    change (2 ^ 62) with 4611686018427387904 in *.
    cbn [next_power_of_two_loop].
    destruct (Z.ltb_spec (2 ^ Z.of_nat j) n) as [Hlt|Hge].
    + assert (Hj' : (j < 62)%nat).
      { destruct (Nat.eq_dec j 62) as [->|]; [|lia]. exfalso.
        change (2 ^ Z.of_nat 62) with 4611686018427387904 in Hlt. lia. }
      rewrite Z.shiftl_mul_pow2 by lia. change (2 ^ 1) with 2.
      rewrite wrap_small by (unfold two64; lia).
      replace (2 ^ Z.of_nat j * 2) with (2 ^ Z.of_nat (S j))
        by (rewrite pow2_double; lia).
      apply IH; try lia. right. rewrite pow2_half. exact Hlt.
    + exists j. split; [|split; [lia|exact Hinv]].
      destruct fuel; reflexivity.
Qed.

Lemma next_power_of_two_spec (n : Z) :
  0 < n <= 2 ^ 62 ->
  exists k : nat,
    next_power_of_two n = Some (2 ^ Z.of_nat k) /\
    n <= 2 ^ Z.of_nat k /\ (k = O \/ 2 ^ Z.of_nat k / 2 < n).
Proof.
  intros Hn. unfold next_power_of_two.
  destruct (Z.eqb_spec n 0); [lia|].
  apply (next_power_of_two_loop_spec 65 0 n Hn); try lia; now left.
Qed.

Lemma between_powers_not_power (k : nat) (n : Z) :
  2 ^ Z.of_nat k / 2 < n < 2 ^ Z.of_nat k ->
  forall j, 0 <= j -> n <> 2 ^ j.
Proof.
  intros [Hlo Hhi] j Hj ->. destruct k as [|k].
  - simpl in Hhi. assert (0 < 2 ^ j) by (apply Z.pow_pos_nonneg; lia). lia.
  - rewrite pow2_half in Hlo.
    apply Z.pow_lt_mono_r_iff in Hlo; try lia.
    apply Z.pow_lt_mono_r_iff in Hhi; lia.
Qed.

Lemma next_power_of_two_between (k : nat) (n : Z) :
  2 ^ Z.of_nat k / 2 < n < 2 ^ Z.of_nat k -> 2 ^ Z.of_nat k <= 2 ^ 62 ->
  next_power_of_two n = Some (2 ^ Z.of_nat k).
Proof.
  intros [Hlo Hhi] Hk.
  assert (Hn0 : 0 < n).
  { assert (0 <= 2 ^ Z.of_nat k / 2) by (apply Z.div_pos; [apply Z.lt_le_incl, pow2_pos|lia]).
    lia. }
  destruct (next_power_of_two_spec n ltac:(lia)) as (k' & E & Hge & Hmin).
  rewrite E. f_equal. f_equal. f_equal.
  assert (Hkk : (k' <= k)%nat).
  { destruct Hmin as [->|Hmin]; [lia|].
    destruct k' as [|k']; [lia|]. rewrite pow2_half in Hmin.
    assert (2 ^ Z.of_nat k' < 2 ^ Z.of_nat k) by lia.
    apply Z.pow_lt_mono_r_iff in H; lia. }
  destruct (Nat.eq_dec k' k) as [|Hne]; [assumption|exfalso].
  destruct k as [|k]; [lia|]. rewrite pow2_half in Hlo.
  assert (2 ^ Z.of_nat k' <= 2 ^ Z.of_nat k) by (apply Z.pow_le_mono_r; lia).
  lia.
Qed.


(** The matrix [Matrix(n, n)] owns, once its buffer is the fresh block [b]. *)
Definition owned (b n : Z) : Matrix :=
  mkMatrix n n n (mkBuffer (mkptr b 0) (mat_bytes n)).

Lemma square_le_bytes (n : Z) : 0 <= n -> n * n <= mat_bytes n.
Proof.
  intros Hn. unfold mat_bytes.
  assert (0 <= n * n) by (apply Z.mul_nonneg_nonneg; lia).
  assert (0 <= n * n * (sizeofT - 1)) by (apply Z.mul_nonneg_nonneg; lia).
  lia.
Qed.

Lemma Matrix_new_run (n : Z) (s : state) :
  0 < n -> mat_bytes n <= PTRDIFF_MAX ->
  Matrix_new n n s =
  Ok (owned (next_block s) n)
     (mkState (heap s) (next_block s + 1) (arena s) (counter s)).
Proof.
  intros Hn Hb. assert (Hsq := square_le_bytes n ltac:(lia)).
  assert (0 < n * n) by (apply Z.mul_pos_pos; lia).
  unfold Matrix_new, bind, AlignedBuffer_allocate, owned.
  unfold PTRDIFF_MAX in Hb.
  rewrite (wrap_small (n * n)) by (unfold two64; lia).
  fold (mat_bytes n). rewrite wrap_small by (unfold two64; lia).
  destruct (Z.eqb_spec (mat_bytes n) 0); [lia|]. reflexivity.
Qed.

Lemma owned_view_fits (b n : Z) :
  0 <= n -> mat_bytes n <= PTRDIFF_MAX -> view_fits (Matrix_view (owned b n)).
Proof.
  intros Hn Hb. assert (Hsq := square_le_bytes n Hn).
  unfold view_fits. simpl. lia.
Qed.

Lemma owned_elem_ptr (b n i j : Z) :
  0 <= n -> mat_bytes n <= PTRDIFF_MAX -> 0 <= i < n -> 0 <= j < n ->
  elem_ptr (Matrix_view (owned b n)) i j = elem_add (mkptr b 0) (i * n + j).
Proof.
  intros Hn Hb Hi Hj.
  rewrite elem_ptr_cell by (try apply owned_view_fits; simpl; lia).
  reflexivity.
Qed.

Lemma elem_add_inj (p : ptr) (q q' : Z) :
  elem_add p q = elem_add p q' -> q = q'.
Proof.
  unfold elem_add, ptr_add. intros H. injection H as H. nia.
Qed.

(** [Matrix::fill] writes the value to every element of the buffer and to
    nothing else. *)
Lemma Matrix_fill_run (b n : Z) (v : T) (t : state) :
  0 <= n -> mat_bytes n <= PTRDIFF_MAX ->
  exists t', Matrix_fill (owned b n) v t = Ok tt t' /\
    next_block t' = next_block t /\ arena t' = arena t /\
    counter t' = counter t /\
    (forall p, blk p <> b -> load (heap t') p = load (heap t) p) /\
    shows t' (Matrix_view (owned b n)) (fun _ _ => v).
Proof.
  intros Hn Hb. assert (Hsq := square_le_bytes n Hn).
  assert (Hnn : 0 <= n * n) by (apply Z.mul_nonneg_nonneg; lia).
  pose (I := fun (i : Z) (t' : state) =>
               next_block t' = next_block t /\ arena t' = arena t /\
               counter t' = counter t /\
               (forall p, blk p <> b -> load (heap t') p = load (heap t) p) /\
               forall q, 0 <= q < i ->
                 load (heap t') (elem_add (mkptr b 0) q) = v).
  assert (Hx : triple (I 0) (Matrix_fill (owned b n) v)
                      (fun _ => I (n * n)) no_throw).
  { unfold Matrix_fill. simpl. unfold PTRDIFF_MAX in Hb.
    rewrite wrap_small by (unfold two64; lia).
    apply triple_for_each; [lia|].
    intros i Hi t' (H1 & H2 & H3 & H4 & H5). unfold ptr_set, I. simpl.
    repeat (split; [assumption|]). split.
    - intros p Hp. rewrite load_store_other; [apply H4; exact Hp|].
      intros Heq. apply Hp. rewrite <- Heq. reflexivity.
    - intros q Hq. destruct (Z.eq_dec q i) as [->|Hne].
      + apply load_store_same.
      + rewrite load_store_other; [apply H5; lia|].
        intros Heq. apply elem_add_inj in Heq. lia. }
  specialize (Hx t). unfold I at 1 in Hx.
  specialize (Hx ltac:(repeat split; intros; lia)).
  destruct (Matrix_fill (owned b n) v t) as [[] t'| |]; try contradiction.
  destruct Hx as (H1 & H2 & H3 & H4 & H5).
  exists t'. repeat (split; [assumption || reflexivity|]).
  intros i j Hi Hj. simpl in Hi, Hj.
  rewrite owned_elem_ptr by assumption. apply H5. apply index_bound; lia.
Qed.


Lemma load_store_blk (h : Z -> Z -> T) (p q : ptr) (v : T) :
  blk p <> blk q -> load (store h p v) q = load h q.
Proof. intros H. apply load_store_other. intros ->. now apply H. Qed.

Lemma elem_ptr_blk (V : MatrixView) (r c : Z) : blk (elem_ptr V r c) = blk (data V).
Proof. reflexivity. Qed.

(** * The rest of the library

    Properties of the functions around the recursive engine, read off the
    code. *)

(** ** Powers of two *)

(** X1. On 64-bit values [is_power_of_two n] holds exactly when [n] is one
    of [2 ^ 0 .. 2 ^ 63]; in particular it rejects 0. *)
Theorem is_power_of_two_iff (n : Z) :
  0 <= n < two64 ->
  (is_power_of_two n = true <-> exists k, 0 <= k < 64 /\ n = 2 ^ k).
Proof.
  intros Hn. split.
  - apply is_power_of_two_inv. exact Hn.
  - intros (k & Hk & ->). apply is_power_of_two_pow2. exact Hk.
Qed.

Lemma next_power_of_two_loop_exit (fuel j : nat) (n : Z) :
  0 < n <= 2 ^ 63 -> (j <= 63)%nat -> (64 <= fuel + j)%nat ->
  (j = O \/ 2 ^ Z.of_nat j / 2 < n) ->
  exists k : nat, (k <= 63)%nat /\
    next_power_of_two_loop fuel (2 ^ Z.of_nat j) n = Some (2 ^ Z.of_nat k) /\
    n <= 2 ^ Z.of_nat k /\ (k = O \/ 2 ^ Z.of_nat k / 2 < n).
Proof.
  intros Hn. revert j. induction fuel as [|fuel IH]; intros j Hj Hf Hinv.
  - lia.
  - assert (Hp := pow2_pos j).
    assert (Hle : 2 ^ Z.of_nat j <= 2 ^ 63) by (apply Z.pow_le_mono_r; lia).
    change (2 ^ 63) with 9223372036854775808 in *.
    cbn [next_power_of_two_loop].
    destruct (Z.ltb_spec (2 ^ Z.of_nat j) n) as [Hlt|Hge].
    + assert (Hj' : (j < 63)%nat).
      { destruct (Nat.eq_dec j 63) as [->|]; [|lia]. exfalso.
        change (2 ^ Z.of_nat 63) with 9223372036854775808 in Hlt. lia. }
      rewrite Z.shiftl_mul_pow2 by lia. change (2 ^ 1) with 2.
      rewrite wrap_small by (unfold two64; lia).
      replace (2 ^ Z.of_nat j * 2) with (2 ^ Z.of_nat (S j))
        by (rewrite pow2_double; lia).
      apply IH; try lia. right. rewrite pow2_half. exact Hlt.
    + exists j. split; [exact Hj|]. split; [|split; [lia|exact Hinv]].
      destruct fuel; reflexivity.
Qed.

(** X2. For [n] up to [2 ^ 63], [next_power_of_two n] returns the least
    power of two that is at least [n] (1 for [n = 0]). *)
Theorem next_power_of_two_least (n : Z) :
  0 <= n <= 2 ^ 63 ->
  exists k : nat, (k <= 63)%nat /\
    next_power_of_two n = Some (2 ^ Z.of_nat k) /\
    n <= 2 ^ Z.of_nat k /\
    forall j, 0 <= j -> n <= 2 ^ j -> 2 ^ Z.of_nat k <= 2 ^ j.
Proof.
  intros Hn. unfold next_power_of_two.
  destruct (Z.eqb_spec n 0) as [->|Hne].
  - exists O. split; [lia|]. split; [reflexivity|]. split; [simpl; lia|].
    intros j Hj _. simpl. assert (0 < 2 ^ j) by (apply Z.pow_pos_nonneg; lia). lia.
  - destruct (next_power_of_two_loop_exit 65 0 n) as (k & Hk & E & Hge & Hmin);
      try lia.
    exists k. split; [exact Hk|]. split; [exact E|]. split; [exact Hge|].
    intros j Hj Hnj. destruct Hmin as [->|Hmin].
    + simpl. assert (0 < 2 ^ j) by (apply Z.pow_pos_nonneg; lia). lia.
    + destruct k as [|k]; [simpl in *; lia|]. rewrite pow2_half in Hmin.
      assert (Hlt : 2 ^ Z.of_nat k < 2 ^ j) by lia.
      apply Z.pow_lt_mono_r_iff in Hlt; [|lia|lia].
      apply Z.pow_le_mono_r; lia.
Qed.

Lemma next_power_of_two_loop_zero (fuel : nat) (n : Z) :
  0 < n -> next_power_of_two_loop fuel 0 n = None.
Proof.
  intros Hn. induction fuel as [|fuel IH]; cbn [next_power_of_two_loop];
    destruct (Z.ltb_spec 0 n); try lia; [reflexivity|].
  change (wrap (Z.shiftl 0 1)) with 0. exact IH.
Qed.

Lemma next_power_of_two_loop_hangs (fuel j : nat) (n : Z) :
  2 ^ 63 < n -> (j <= 63)%nat ->
  next_power_of_two_loop fuel (2 ^ Z.of_nat j) n = None.
Proof.
  intros Hn. revert j. induction fuel as [|fuel IH]; intros j Hj;
    assert (Hle : 2 ^ Z.of_nat j <= 2 ^ 63) by (apply Z.pow_le_mono_r; lia);
    cbn [next_power_of_two_loop];
    (destruct (Z.ltb_spec (2 ^ Z.of_nat j) n); [|lia]); [reflexivity|].
  rewrite Z.shiftl_mul_pow2 by lia. change (2 ^ 1) with 2.
  destruct (Nat.eq_dec j 63) as [->|Hne].
  - change (wrap (2 ^ Z.of_nat 63 * 2)) with 0.
    apply next_power_of_two_loop_zero. change (2 ^ 63) with 9223372036854775808 in Hn.
    lia.
  - assert (Hlt : 2 ^ Z.of_nat (S j) <= 2 ^ 63) by (apply Z.pow_le_mono_r; lia).
    change (2 ^ 63) with 9223372036854775808 in Hlt.
    assert (Hp := pow2_pos (S j)).
    replace (2 ^ Z.of_nat j * 2) with (2 ^ Z.of_nat (S j))
      by (rewrite pow2_double; lia).
    rewrite wrap_small by (unfold two64; lia).
    apply IH. lia.
Qed.

(** X3. For [n] above [2 ^ 63] the loop of [next_power_of_two] never exits:
    [p] runs through the powers of two up to [2 ^ 63], the next shift makes
    it 0, and 0 stays below [n]. No number of iterations yields a result. *)
Theorem next_power_of_two_never_returns (n : Z) :
  2 ^ 63 < n ->
  (forall fuel, next_power_of_two_loop fuel 1 n = None) /\
  next_power_of_two n = None.
Proof.
  intros Hn. split.
  - intros fuel. apply (next_power_of_two_loop_hangs fuel 0 n Hn). lia.
  - unfold next_power_of_two.
    change (2 ^ 63) with 9223372036854775808 in Hn.
    destruct (Z.eqb_spec n 0); [lia|].
    apply (next_power_of_two_loop_hangs 65 0 n); [|lia].
    change (2 ^ 63) with 9223372036854775808. exact Hn.
Qed.

(** ** The sizing formula on any size *)

Lemma levels_loop_log2 (fuel : nat) (t l : Z) :
  0 < t < 2 ^ Z.of_nat fuel -> 0 <= l -> l + Z.log2 t < two64 ->
  levels_loop fuel t l = l + Z.log2 t.
Proof.
  revert t l. induction fuel as [|fuel IH]; intros t l Ht Hl Hb.
  - simpl in Ht. lia.
  - cbn [levels_loop]. destruct (Z.gtb_spec t 1) as [Hgt|Hle].
    + rewrite Z.shiftr_div_pow2 by lia. change (2 ^ 1) with 2.
      assert (Hlog := log2_half t ltac:(lia)).
      assert (Hl0 := Z.log2_nonneg (t / 2)).
      rewrite wrap_small by lia.
      rewrite IH; try lia.
      rewrite pow2_double in Ht. split.
      * apply Z.div_str_pos. lia.
      * apply Z.div_lt_upper_bound; lia.
    + replace t with 1 by lia. simpl. lia.
Qed.

Lemma wrap_add_r (x y : Z) : wrap (x + wrap y) = wrap (x + y).
Proof. unfold wrap. apply Zplus_mod_idemp_r. Qed.

Lemma wrap_mul_l (x y : Z) : wrap (wrap x * y) = wrap (x * y).
Proof. unfold wrap. apply Zmult_mod_idemp_l. Qed.

Lemma wrap_mul_r (x y : Z) : wrap (x * wrap y) = wrap (x * y).
Proof. unfold wrap. apply Zmult_mod_idemp_r. Qed.

(** X4. [strassen_scratch_bytes] never throws: its overflow test compares a
    64-bit value with the largest 64-bit value. For every [n] it returns
    [3 n^2 sizeof(T) + 9 * 16 * floor(log2 n) + 1024] reduced modulo
    [2 ^ 64], so a budget that does not fit is silently wrapped. *)
Theorem strassen_scratch_bytes_wraps (n : Z) :
  0 <= n < two64 ->
  strassen_scratch_bytes n =
  inr (if n =? 0 then 0
       else wrap (3 * (n * n) * sizeofT
                  + 9 * Z.log2 n * kScratchAlignmentBytes + 1024)).
Proof.
  intros Hn. unfold strassen_scratch_bytes.
  destruct (Z.eqb_spec n 0) as [|Hne]; [reflexivity|]. cbv zeta.
  assert (Hlog : 0 <= Z.log2 n < 64).
  { split; [apply Z.log2_nonneg|]. apply Z.log2_lt_pow2; [lia|].
    rewrite <- two64_eq. lia. }
  rewrite (levels_loop_log2 64 n 0)
    by (try (change (2 ^ Z.of_nat 64) with two64); unfold two64 in *; lia).
  rewrite Z.add_0_l.
  match goal with
  | |- (if ?t >? SIZE_MAX then _ else _) = _ =>
    assert (Ht : 0 <= t < two64) by apply wrap_range;
    destruct (Z.gtb_spec t SIZE_MAX) as [Hgt|_];
    [unfold SIZE_MAX in Hgt; lia|]
  end.
  f_equal.
  repeat first [rewrite wrap_add_l | rewrite wrap_add_r
               | rewrite wrap_mul_l | rewrite wrap_mul_r].
  rewrite <- (wrap_add_l (wrap _ * sizeofT)), wrap_mul_l, wrap_add_l.
  rewrite <- (wrap_add_r _ (wrap _ * _ + 1024)).
  rewrite <- (wrap_add_l (wrap _ * kScratchAlignmentBytes)), wrap_mul_l, wrap_add_l.
  rewrite wrap_add_r.
  f_equal. ring.
Qed.

(** ** The arena allocator *)

(** The mask expression of [align_up] rounds up to a multiple. *)
Lemma align_up_multiple (x e : Z) :
  0 <= e <= 32 -> 0 <= x <= PTRDIFF_MAX ->
  x <= align_up x (2 ^ e) < x + 2 ^ e /\
  align_up x (2 ^ e) mod 2 ^ e = 0.
Proof.
  intros He Hx. rewrite align_up_pow2 by assumption.
  assert (Hp : 0 < 2 ^ e) by (apply Z.pow_pos_nonneg; lia).
  set (a := 2 ^ e) in *. set (q := (x + (a - 1)) / a).
  assert (Hdm := Z.div_mod (x + (a - 1)) a ltac:(lia)).
  assert (Hm := Z.mod_pos_bound (x + (a - 1)) a Hp).
  fold q in Hdm. split; [lia|]. apply Z.mod_mul. lia.
Qed.

(** X5. For a power of two [a = 2 ^ e] the mask expression of [align_up]
    yields the least multiple of [a] that is at least [x]. *)
Theorem align_up_least_multiple (x e : Z) :
  0 <= e <= 32 -> 0 <= x <= PTRDIFF_MAX ->
  x <= align_up x (2 ^ e) < x + 2 ^ e /\
  align_up x (2 ^ e) mod 2 ^ e = 0 /\
  forall y, x <= y -> y mod 2 ^ e = 0 -> align_up x (2 ^ e) <= y.
Proof.
  intros He Hx. rewrite align_up_pow2 by assumption.
  assert (Hp : 0 < 2 ^ e) by (apply Z.pow_pos_nonneg; lia).
  set (a := 2 ^ e) in *. set (q := (x + (a - 1)) / a).
  assert (Hdm := Z.div_mod (x + (a - 1)) a ltac:(lia)).
  assert (Hm := Z.mod_pos_bound (x + (a - 1)) a Hp).
  fold q in Hdm. split; [lia|]. split.
  - apply Z.mod_mul. lia.
  - intros y Hy Hya.
    assert (Hyq := Z.div_mod y a ltac:(lia)). rewrite Hya in Hyq.
    assert (Hlt : (q - 1) * a < y / a * a) by lia.
    apply Z.mul_lt_mono_pos_r in Hlt; [|exact Hp].
    assert (q * a <= y / a * a) by (apply Z.mul_le_mono_nonneg_r; lia).
    lia.
Qed.

(** A non-empty request on a well-formed arena either fits or fails. *)
Lemma alloc_matrix_cases (r c : Z) (a : ScratchArena) :
  0 <= r -> 0 <= c -> 2 * (r * c * sizeofT) <= PTRDIFF_MAX -> arena_ok a ->
  let ao := align_up (off_bytes_ a) scratch_align in
  let bytes := r * c * sizeofT in
  off_bytes_ a <= ao < off_bytes_ a + scratch_align /\
  (0 < r -> 0 < c -> ao + bytes <= cap_bytes_ a ->
   alloc_matrix r c a =
   inr (mkView (ptr_add (buf_ a) ao) r c c,
        mkArena (buf_ a) (cap_bytes_ a) (ao + bytes)
                (Z.max (hwm_bytes a) (ao + bytes)))) /\
  (0 < r -> 0 < c -> cap_bytes_ a < ao + bytes ->
   alloc_matrix r c a = inl bad_alloc).
Proof.
  intros Hr Hc Hb (Hoff & Hcap) ao bytes.
  destruct scratch_align_pow2 as (e & He & Ha).
  destruct (align_up_multiple (off_bytes_ a) e ltac:(lia) ltac:(lia))
    as (Hao & _).
  rewrite <- Ha in Hao. fold ao in Hao.
  assert (Hal := scratch_align_bounds). change (2 ^ 32) with 4294967296 in Hal.
  split; [exact Hao|].
  assert (Hrun : 0 < r -> 0 < c ->
            alloc_matrix r c a =
            if ao + bytes >? cap_bytes_ a then inl bad_alloc
            else inr (mkView (ptr_add (buf_ a) ao) r c c,
                      mkArena (buf_ a) (cap_bytes_ a) (ao + bytes)
                              (Z.max (hwm_bytes a) (ao + bytes)))).
  { intros Hr0 Hc0. unfold alloc_matrix. fold scratch_align. fold ao.
    destruct (Z.eqb_spec r 0); [lia|]. destruct (Z.eqb_spec c 0); [lia|].
    simpl orb. cbv iota zeta. unfold PTRDIFF_MAX in *.
    assert (Hrc : 0 < r * c) by (apply Z.mul_pos_pos; lia).
    assert (Hle : r * c <= r * c * sizeofT).
    { assert (0 <= r * c * (sizeofT - 1)) by (apply Z.mul_nonneg_nonneg; lia).
      clear - H. lia. }
    assert (Hw : 0 <= ao + r * c * sizeofT < two64)
      by (clear - Hle Hrc Hb Hao Hoff Hcap Hal; unfold two64; lia).
    rewrite (wrap_small (r * c)) by (clear - Hle Hrc Hb; unfold two64; lia).
    rewrite (wrap_small (r * c * sizeofT))
      by (clear - Hle Hrc Hb; unfold two64; lia).
    rewrite (wrap_small (ao + r * c * sizeofT)) by exact Hw.
    reflexivity. }
  split.
  - intros Hr0 Hc0 Hfit. rewrite (Hrun Hr0 Hc0).
    destruct (Z.gtb_spec (ao + bytes) (cap_bytes_ a)); [lia|reflexivity].
  - intros Hr0 Hc0 Hshort. rewrite (Hrun Hr0 Hc0).
    destruct (Z.gtb_spec (ao + bytes) (cap_bytes_ a)); [reflexivity|lia].
Qed.

(** X6. [alloc_matrix] on a well-formed arena: a request with a zero
    dimension returns a null view and leaves the arena alone; otherwise the
    matrix is placed at the first offset at or after the cursor that is a
    multiple of [max(16, alignof(T))], the call succeeds exactly when the
    matrix then ends within the capacity (for requests small enough that
    the 64-bit sum cannot wrap), the view is contiguous
    ([stride = cols]) and the cursor moves to its end; if it does not fit
    the call throws [bad_alloc]. *)
Theorem alloc_matrix_spec (r c : Z) (a : ScratchArena) :
  0 <= r -> 0 <= c -> 2 * (r * c * sizeofT) <= PTRDIFF_MAX -> arena_ok a ->
  let ao := align_up (off_bytes_ a) scratch_align in
  let bytes := r * c * sizeofT in
  off_bytes_ a <= ao < off_bytes_ a + scratch_align /\
  ao mod scratch_align = 0 /\
  (r = 0 \/ c = 0 -> alloc_matrix r c a = inr (mkView nullptr r c c, a)) /\
  (0 < r -> 0 < c -> ao + bytes <= cap_bytes_ a ->
   alloc_matrix r c a =
   inr (mkView (ptr_add (buf_ a) ao) r c c,
        mkArena (buf_ a) (cap_bytes_ a) (ao + bytes)
                (Z.max (hwm_bytes a) (ao + bytes)))) /\
  (0 < r -> 0 < c -> cap_bytes_ a < ao + bytes ->
   alloc_matrix r c a = inl bad_alloc).
Proof.
  intros Hr Hc Hb Hok ao bytes.
  destruct (alloc_matrix_cases r c a Hr Hc Hb Hok) as (Hao & Hfit & Hshort).
  fold ao in Hao, Hfit, Hshort. fold bytes in Hfit, Hshort.
  split; [exact Hao|]. split; [|split; [|split; assumption]].
  - destruct scratch_align_pow2 as (e & He & Ha).
    destruct Hok as (Hoff & Hcap).
    destruct (align_up_multiple (off_bytes_ a) e ltac:(lia) ltac:(lia))
      as (_ & Hmod).
    rewrite <- Ha in Hmod. exact Hmod.
  - intros H0. unfold alloc_matrix.
    destruct H0 as [->| ->]; rewrite ?Z.eqb_refl, ?orb_true_r; reflexivity.
Qed.

(** Where the elements of a contiguous view lie. *)
Lemma contiguous_view_region (buf : ptr) (ao r c : Z) (p : ptr) :
  0 <= r -> 0 <= c -> r * c * sizeofT <= PTRDIFF_MAX ->
  In_view (mkView (ptr_add buf ao) r c c) p ->
  blk p = blk buf /\
  boff buf + ao <= boff p /\ boff p + sizeofT <= boff buf + ao + r * c * sizeofT.
Proof.
  intros Hr Hc Hb (i & j & Hi & Hj & ->). simpl in Hi, Hj.
  assert (Hrc : 0 <= r * c) by (apply Z.mul_nonneg_nonneg; lia).
  assert (0 <= r * c * (sizeofT - 1)) by (apply Z.mul_nonneg_nonneg; lia).
  rewrite elem_ptr_cell by (unfold view_fits; simpl; lia).
  unfold cell. simpl.
  assert (Hij := index_bound c r i j Hi Hj).
  split; [reflexivity|]. nia.
Qed.

(** What a successful allocation returns, in one equation. *)
Lemma alloc_matrix_ok_inv (r c : Z) (a a' : ScratchArena) (V : MatrixView) :
  0 < r -> 0 < c -> 2 * (r * c * sizeofT) <= PTRDIFF_MAX -> arena_ok a ->
  alloc_matrix r c a = inr (V, a') ->
  let ao := align_up (off_bytes_ a) scratch_align in
  off_bytes_ a <= ao /\ ao + r * c * sizeofT <= cap_bytes_ a /\
  V = mkView (ptr_add (buf_ a) ao) r c c /\
  a' = mkArena (buf_ a) (cap_bytes_ a) (ao + r * c * sizeofT)
               (Z.max (hwm_bytes a) (ao + r * c * sizeofT)).
Proof.
  intros Hr Hc Hb Hok H ao.
  destruct (alloc_matrix_cases r c a ltac:(lia) ltac:(lia) Hb Hok)
    as (Hao & Hfit & Hshort).
  fold ao in Hao, Hfit, Hshort.
  destruct (Z_le_gt_dec (ao + r * c * sizeofT) (cap_bytes_ a)) as [Hle|Hgt].
  - rewrite (Hfit Hr Hc Hle) in H. injection H as <- <-.
    repeat split; lia.
  - rewrite (Hshort Hr Hc ltac:(lia)) in H. discriminate.
Qed.

(** X7. Two matrices allocated one after the other from a well-formed arena
    do not overlap, and both lie in the arena's buffer between the cursor
    before the first allocation and the capacity. *)
Theorem successive_allocations_disjoint (r1 c1 r2 c2 : Z)
  (a a1 a2 : ScratchArena) (V1 V2 : MatrixView) :
  0 < r1 -> 0 < c1 -> 0 < r2 -> 0 < c2 ->
  2 * (r1 * c1 * sizeofT) <= PTRDIFF_MAX ->
  2 * (r2 * c2 * sizeofT) <= PTRDIFF_MAX ->
  arena_ok a ->
  alloc_matrix r1 c1 a = inr (V1, a1) ->
  alloc_matrix r2 c2 a1 = inr (V2, a2) ->
  (forall p, In_view V1 p -> ~ In_view V2 p) /\
  (forall p, In_view V1 p \/ In_view V2 p ->
     blk p = blk (buf_ a) /\
     boff (buf_ a) + off_bytes_ a <= boff p /\
     boff p + sizeofT <= boff (buf_ a) + cap_bytes_ a).
Proof.
  intros Hr1 Hc1 Hr2 Hc2 Hb1 Hb2 Hok E1 E2.
  destruct (alloc_matrix_ok_inv r1 c1 a a1 V1 Hr1 Hc1 Hb1 Hok E1)
    as (Ho1 & Hf1 & -> & Ha1).
  assert (Hok1 : arena_ok a1).
  { destruct Hok as (Hoff & Hcap). rewrite Ha1. unfold arena_ok. simpl.
    assert (0 < r1 * c1 * sizeofT) by (repeat apply Z.mul_pos_pos; lia). lia. }
  destruct (alloc_matrix_ok_inv r2 c2 a1 a2 V2 Hr2 Hc2 Hb2 Hok1 E2)
    as (Ho2 & Hf2 & -> & Ha2).
  rewrite Ha1 in Ho2, Hf2. cbn [off_bytes_ cap_bytes_ buf_] in Ho2, Hf2.
  rewrite Ha1. cbn [off_bytes_ cap_bytes_ buf_].
  set (ao1 := align_up (off_bytes_ a) scratch_align) in *.
  set (ao2 := align_up (ao1 + r1 * c1 * sizeofT) scratch_align) in *.
  split.
  - intros p Hp1 Hp2.
    apply contiguous_view_region in Hp1; try lia.
    apply contiguous_view_region in Hp2; try lia.
  - intros p [Hp|Hp]; apply contiguous_view_region in Hp; lia.
Qed.

(** X8. Mark, allocate, roll back: after a successful allocation a rollback
    to the mark taken before it succeeds and puts the cursor back where it
    was, and the same request is then served at the same address. *)
Theorem rollback_to_mark_reuses (r c : Z) (a a' : ScratchArena) (V : MatrixView) :
  0 < r -> 0 < c -> 2 * (r * c * sizeofT) <= PTRDIFF_MAX -> arena_ok a ->
  alloc_matrix r c a = inr (V, a') ->
  exists b b',
    rollback (mark a) a' = inr b /\
    used_bytes b = used_bytes a /\
    buf_ b = buf_ a /\ capacity_bytes b = capacity_bytes a /\
    alloc_matrix r c b = inr (V, b') /\ used_bytes b' = used_bytes a'.
Proof.
  intros Hr Hc Hb Hok E.
  destruct (alloc_matrix_ok_inv r c a a' V Hr Hc Hb Hok E) as (Ho & Hf & HV & Ha').
  set (ao := align_up (off_bytes_ a) scratch_align) in *.
  assert (Hpos : 0 < r * c * sizeofT) by (repeat apply Z.mul_pos_pos; lia).
  clear E. subst V a'.
  set (b := mkArena (buf_ a) (cap_bytes_ a) (off_bytes_ a)
                    (Z.max (hwm_bytes a) (ao + r * c * sizeofT))).
  assert (Hokb : arena_ok b) by exact Hok.
  destruct (alloc_matrix_cases r c b ltac:(lia) ltac:(lia) Hb Hokb)
    as (_ & Hfit & _).
  cbn [off_bytes_ cap_bytes_ buf_ hwm_bytes b] in Hfit. fold ao in Hfit.
  exists b. eexists. split.
  - unfold rollback, mark. cbn [off_bytes_ buf_ cap_bytes_ hwm_bytes].
    destruct (Z.gtb_spec (off_bytes_ a) (ao + r * c * sizeofT)); [lia|].
    reflexivity.
  - split; [reflexivity|]. split; [reflexivity|]. split; [reflexivity|].
    rewrite (Hfit Hr Hc Hf). split; reflexivity.
Qed.

(** ** The kernels on their own *)

Section Kernels.

Variable Tone : T.
Variable Topp : T -> T.
Hypothesis Tring : ring_theory Tzero Tone Tadd Tmul Tsub Topp (@eq T).

(** X9. [gemm_naive] on rectangular operands, [A] of size [m x k], [B] of
    size [k x n] and a destination of size [m x n] that overlaps neither:
    the call returns normally, element [(i, j)] of [C] is the sum over [p]
    of [A(i, p) * B(p, j)] (zero when [k = 0]), nothing outside [C] is
    written, and the counter grows by [m n k] multiplications and
    [m n (k - 1)] additions. *)
Theorem gemm_naive_product (A B C : MatrixView) (ops : bool) (s : state) :
  cols A = rows B -> rows C = rows A -> cols C = cols B ->
  0 <= rows A -> 0 <= cols A -> 0 <= cols B ->
  view_fits C -> disjoint_views A C -> disjoint_views B C ->
  counter_ok (counter s) ->
  exists s', gemm_naive A B C ops s = Ok tt s' /\
    (forall i j, 0 <= i < rows A -> 0 <= j < cols B ->
       load (heap s') (elem_ptr C i j) =
       sumn (fun p => Tmul (load (heap s) (elem_ptr A i p))
                           (load (heap s) (elem_ptr B p j)))
            (Z.to_nat (cols A))) /\
    (forall p, ~ In_view C p -> load (heap s') p = load (heap s) p) /\
    arena s' = arena s /\
    mul (counter s') = wrap (mul (counter s) + tick ops (rows A * cols B * cols A)) /\
    add (counter s') =
    wrap (add (counter s)
          + tick ops (rows A * cols B * (if cols A =? 0 then 0 else cols A - 1))).
Proof.
  intros HAB HrC HcC Hm Hk Hn HfC HdA HdB Hcnt.
  destruct (gemm_naive_spec A B C ops s) as (s' & E & (Har & _ & Hfr) & Hc & Hv);
    try assumption.
  { apply view_fits_inj; assumption. }
  exists s'. split; [exact E|]. split; [|split; [exact Hfr|split; [exact Har|]]].
  - intros i j Hi Hj. rewrite Hv by assumption.
    unfold naive_entry. rewrite (naive_dot_sum Tone Topp Tring) by assumption.
    reflexivity.
  - destruct Hc as (_ & Hmul & Hadd). split; assumption.
Qed.

End Kernels.

(** X10. Dimension checks come first: when the shapes do not match,
    [gemm_naive], [mat_add] and [mat_sub] throw [invalid_argument] and the
    store, the arena and the counter are exactly as before. *)
Theorem kernels_reject_mismatch (A B C : MatrixView) (ops : bool) (s : state) :
  (cols A <> rows B \/ rows C <> rows A \/ cols C <> cols B ->
   gemm_naive A B C ops s = Throw invalid_argument s) /\
  (rows A <> rows B \/ cols A <> cols B \/ rows C <> rows A \/ cols C <> cols A ->
   mat_add A B C ops s = Throw invalid_argument s /\
   mat_sub A B C ops s = Throw invalid_argument s).
Proof.
  split.
  - intros H. unfold gemm_naive, gemm_naive_impl.
    destruct (Z.eq_dec (cols A) (rows B)) as [E1|E1].
    + rewrite (neq_false _ _ E1). simpl andb.
      rewrite (bind_ok _ _ s s tt (check_pass _ s)).
      assert (Hb : neq (rows C) (rows A) || neq (cols C) (cols B) = true).
      { destruct H as [H|[H|H]]; [contradiction| |];
          rewrite (neq_true _ _ H), ?orb_true_r; reflexivity. }
      rewrite Hb. reflexivity.
    + rewrite (neq_true _ _ E1). reflexivity.
  - intros H.
    assert (Hb : dims_differ A B C = true).
    { unfold dims_differ.
      destruct H as [H|[H|[H|H]]]; rewrite (neq_true _ _ H), ?orb_true_r;
        reflexivity. }
    unfold mat_add, mat_sub. rewrite Hb. split; reflexivity.
Qed.

(** X11. [mat_add] and [mat_sub] on operands of one shape and a destination
    that overlaps neither: element [(i, j)] of the destination becomes
    [A(i, j) + B(i, j)], respectively [A(i, j) - B(i, j)], nothing else is
    written, and each counts one addition per element. *)
Theorem mat_add_sub_elementwise (A B Out : MatrixView) (ops : bool) (s : state) :
  rows B = rows A -> cols B = cols A -> rows Out = rows A -> cols Out = cols A ->
  0 <= rows A -> 0 <= cols A ->
  view_fits Out -> disjoint_views A Out -> disjoint_views B Out ->
  counter_ok (counter s) ->
  (exists s', mat_add A B Out ops s = Ok tt s' /\
     (forall i j, 0 <= i < rows A -> 0 <= j < cols A ->
        load (heap s') (elem_ptr Out i j) =
        Tadd (load (heap s) (elem_ptr A i j)) (load (heap s) (elem_ptr B i j))) /\
     (forall p, ~ In_view Out p -> load (heap s') p = load (heap s) p) /\
     mul (counter s') = mul (counter s) /\
     add (counter s') = wrap (add (counter s) + tick ops (rows A * cols A))) /\
  (exists s', mat_sub A B Out ops s = Ok tt s' /\
     (forall i j, 0 <= i < rows A -> 0 <= j < cols A ->
        load (heap s') (elem_ptr Out i j) =
        Tsub (load (heap s) (elem_ptr A i j)) (load (heap s) (elem_ptr B i j))) /\
     (forall p, ~ In_view Out p -> load (heap s') p = load (heap s) p) /\
     mul (counter s') = mul (counter s) /\
     add (counter s') = wrap (add (counter s) + tick ops (rows A * cols A))).
Proof.
  intros HrB HcB HrO HcO Hr Hc HfO HdA HdB Hcnt.
  assert (Hinj : view_inj Out) by (apply view_fits_inj; assumption).
  assert (Hmul : forall o o', bumped 0 (tick ops (rows A * cols A)) o o' ->
                   counter_ok o -> mul o' = mul o /\
                   add o' = wrap (add o + tick ops (rows A * cols A))).
  { intros o o' (_ & Hm & Ha) (Ho & _). split; [|exact Ha].
    rewrite Hm, Z.add_0_r. apply wrap_small. exact Ho. }
  split.
  - destruct (mat_add_spec A B Out ops s) as (s' & E & (_ & _ & Hfr) & Hb & Hv);
      try assumption.
    exists s'. split; [exact E|]. split; [exact Hv|]. split; [exact Hfr|].
    apply Hmul; assumption.
  - destruct (mat_sub_spec A B Out ops s) as (s' & E & (_ & _ & Hfr) & Hb & Hv);
      try assumption.
    exists s'. split; [exact E|]. split; [exact Hv|]. split; [exact Hfr|].
    apply Hmul; assumption.
Qed.

(** ** The recursive engine: what it refuses and what it counts *)

(** X14. The recursive engine on an odd size above the leaf size throws
    [invalid_argument] before it marks the arena or touches anything. *)
Theorem strassen_rec_rejects_odd (A B C : MatrixView) (ops : bool) (leaf : Z)
  (s : state) :
  rows A = cols A -> rows B = cols B -> rows C = cols C ->
  rows A = rows B -> rows A = rows C ->
  leaf < rows A -> rows A mod 2 = 1 ->
  strassen_rec A B C ops leaf s = Throw invalid_argument s.
Proof.
  intros HA HB HC HAB HAC Hleaf Hodd.
  unfold strassen_rec. rewrite strassen_rec_fuel_S.
  rewrite !neq_false by assumption. simpl andb.
  rewrite !(bind_ok _ _ s s tt (check_pass _ s)).
  destruct (Z.eqb_spec (rows A) 0) as [E|_]; [rewrite E in Hodd; discriminate|].
  destruct (Z.leb_spec (rows A) leaf); [lia|].
  rewrite neq_true by lia. reflexivity.
Qed.

Lemma pure_strassen_counts (k : nat) :
  strassen_mul_count k 1 (2 ^ Z.of_nat k) = 7 ^ Z.of_nat k /\
  strassen_add_count k 1 (2 ^ Z.of_nat k) = 6 * (7 ^ Z.of_nat k - 4 ^ Z.of_nat k).
Proof.
  induction k as [|k [IHm IHa]]; [split; reflexivity|].
  assert (Hp := pow2_pos k).
  assert (Hlt : 1 < 2 ^ Z.of_nat (S k)) by (rewrite pow2_double; lia).
  rewrite strassen_mul_count_S, strassen_add_count_S by exact Hlt.
  rewrite pow2_half, IHm, IHa.
  assert (H4 : 2 ^ Z.of_nat k * 2 ^ Z.of_nat k = 4 ^ Z.of_nat k).
  { rewrite <- Z.pow_mul_l. reflexivity. }
  rewrite H4.
  replace (Z.of_nat (S k)) with (Z.succ (Z.of_nat k)) by lia.
  rewrite !Z.pow_succ_r by lia. split; ring.
Qed.

(** X15. With the default leaf size 1 the recursion goes down to single
    elements: on operands of size [2 ^ k] the engine performs exactly
    [7 ^ k] scalar multiplications and [6 (7 ^ k - 4 ^ k)] scalar additions
    and subtractions, as the counter records them. *)
Theorem pure_strassen_operation_counts (k : nat) (A B C : MatrixView) (s : state) :
  square_operands (2 ^ Z.of_nat k) A B C ->
  separated A B C (arena s) ->
  counter_ok (counter s) ->
  mat_bytes (2 ^ Z.of_nat k) <= PTRDIFF_MAX ->
  arena_ok (arena s) ->
  off_bytes_ (arena s) + arena_need k 1 <= cap_bytes_ (arena s) ->
  exists s', strassen_rec A B C true 1 s = Ok tt s' /\
    mul (counter s') = wrap (mul (counter s) + 7 ^ Z.of_nat k) /\
    add (counter s') =
    wrap (add (counter s) + 6 * (7 ^ Z.of_nat k - 4 ^ Z.of_nat k)).
Proof.
  intros Hops Hsep Hcnt Hmb Hok Hneed.
  destruct (strassen_rec_run k A B C true 1 s ltac:(lia) Hops Hsep Hcnt Hmb Hok Hneed)
    as (s' & E & _ & _ & _ & _ & _ & Hc & _).
  exists s'. split; [exact E|]. rewrite !tick_true in Hc.
  destruct (pure_strassen_counts k) as [Hm Ha]. rewrite Hm, Ha in Hc.
  destruct Hc as (_ & Hmul & Hadd). split; assumption.
Qed.

(** ** The owning matrix *)

(** X16. [Matrix(r, c)] followed by [fill(v)]: for a non-empty shape the
    matrix owns a fresh block (nothing that existed is touched), its view is
    contiguous, and every element read through the view is [v]; for an empty
    shape no storage is allocated and [fill] does nothing. *)
Theorem Matrix_new_fill (r c : Z) (v : T) (s : state) :
  0 <= r -> 0 <= c -> r * c * sizeofT <= PTRDIFF_MAX ->
  exists X s1 s2,
    Matrix_new r c s = Ok X s1 /\ Matrix_fill X v s1 = Ok tt s2 /\
    rows (Matrix_view X) = r /\ cols (Matrix_view X) = c /\
    stride (Matrix_view X) = c /\
    arena s2 = arena s /\ counter s2 = counter s /\
    (r = 0 \/ c = 0 -> s2 = s /\ data (Matrix_view X) = nullptr) /\
    (0 < r -> 0 < c ->
     data (Matrix_view X) = mkptr (next_block s) 0 /\
     next_block s2 = next_block s + 1 /\
     (forall p, blk p <> next_block s -> load (heap s2) p = load (heap s) p) /\
     forall i j, 0 <= i < r -> 0 <= j < c ->
       view_get (Matrix_view X) i j s2 = Ok v s2).
Proof.
  intros Hr Hc Hb.
  assert (Hrc : 0 <= r * c) by (apply Z.mul_nonneg_nonneg; lia).
  assert (Hle : r * c <= r * c * sizeofT).
  { assert (0 <= r * c * (sizeofT - 1)) by (apply Z.mul_nonneg_nonneg; lia).
    clear - H. lia. }
  unfold PTRDIFF_MAX in Hb.
  assert (Hw1 : wrap (r * c) = r * c)
    by (apply wrap_small; clear - Hrc Hle Hb; unfold two64; lia).
  assert (Hw2 : wrap (r * c * sizeofT) = r * c * sizeofT)
    by (apply wrap_small; clear - Hrc Hle Hb; unfold two64; lia).
  unfold Matrix_new, bind, AlignedBuffer_allocate. rewrite Hw1, Hw2.
  destruct (Z.eqb_spec (r * c * sizeofT) 0) as [E0|Hne].
  - (* an empty shape *)
    assert (Hz : r * c = 0) by (clear - E0 Hrc Hle; lia).
    eexists. exists s, s. split; [reflexivity|]. split.
    { unfold Matrix_fill. simpl. rewrite Hw1, Hz. reflexivity. }
    repeat (split; [reflexivity|]). split.
    + intros _. split; reflexivity.
    + intros Hr0 Hc0. exfalso.
      assert (0 < r * c) by (apply Z.mul_pos_pos; lia). lia.
  - set (b := next_block s).
    set (s1 := mkState (heap s) (b + 1) (arena s) (counter s)).
    set (X := mkMatrix r c c (mkBuffer (mkptr b 0) (r * c * sizeofT))).
    pose (I := fun (i : Z) (t' : state) =>
                 next_block t' = b + 1 /\ arena t' = arena s /\
                 counter t' = counter s /\
                 (forall p, blk p <> b -> load (heap t') p = load (heap s) p) /\
                 forall q, 0 <= q < i ->
                   load (heap t') (elem_add (mkptr b 0) q) = v).
    assert (Hx : triple (I 0) (Matrix_fill X v) (fun _ => I (r * c)) no_throw).
    { unfold Matrix_fill. simpl. rewrite Hw1.
      apply triple_for_each; [lia|].
      intros i Hi t' (H1 & H2 & H3 & H4 & H5). unfold ptr_set, I. simpl.
      repeat (split; [assumption|]). split.
      - intros p Hp. rewrite load_store_other; [apply H4; exact Hp|].
        intros Heq. apply Hp. rewrite <- Heq. reflexivity.
      - intros q Hq. destruct (Z.eq_dec q i) as [->|Hnq].
        + apply load_store_same.
        + rewrite load_store_other; [apply H5; lia|].
          intros Heq. apply elem_add_inj in Heq. lia. }
    specialize (Hx s1). unfold I at 1 in Hx.
    specialize (Hx ltac:(repeat split; intros; lia)).
    destruct (Matrix_fill X v s1) as [[] s2| |] eqn:E2; try contradiction.
    destruct Hx as (H1 & H2 & H3 & H4 & H5).
    exists X, s1, s2. split; [reflexivity|]. split; [exact E2|].
    repeat (split; [assumption || reflexivity|]). split.
    + intros Hz. exfalso. clear - Hz Hne. destruct Hz as [-> | ->];
        apply Hne; ring.
    + intros Hr0 Hc0. split; [reflexivity|]. split; [exact H1|].
      split; [exact H4|]. intros i j Hi Hj.
      rewrite view_get_in by (simpl; lia). f_equal.
      assert (HfX : view_fits (Matrix_view X)).
      { unfold view_fits, PTRDIFF_MAX. simpl.
        split; [exact Hr|]. split; [lia|]. clear - Hle Hb. lia. }
      rewrite elem_ptr_cell by (try exact HfX; simpl; lia).
      unfold cell. simpl.
      change (mkptr b (0 + (i * c + j) * sizeofT))
        with (elem_add (mkptr b 0) (i * c + j)).
      apply H5. apply index_bound; lia.
Qed.

(** ** Views of views *)

(** X17. Subviews compose: a subview of a subview is the subview of the
    parent at the summed offsets, the same descriptor field for field. *)
Theorem subview_compose (V : MatrixView)
  (r0 c0 rc cc r1 c1 rc' cc' : Z) :
  view_fits V ->
  0 <= r0 -> 0 <= c0 -> 0 <= r1 -> 0 <= c1 -> 0 <= rc' -> 0 <= cc' ->
  r0 + rc <= rows V -> c0 + cc <= cols V ->
  r1 + rc' <= rc -> c1 + cc' <= cc ->
  exists S S',
    subview V r0 c0 rc cc = inr S /\
    subview S r1 c1 rc' cc' = inr S' /\
    subview V (r0 + r1) (c0 + c1) rc' cc' = inr S'.
Proof.
  intros (Hr & Hc & Hf) Hr0 Hc0 Hr1 Hc1 Hrc' Hcc' Hrb Hcb Hrb' Hcb'.
  exists (subview_of V r0 c0 rc cc).
  exists (subview_of (subview_of V r0 c0 rc cc) r1 c1 rc' cc').
  split; [apply subview_in_bounds; lia|].
  split; [apply subview_in_bounds; simpl; lia|].
  rewrite subview_in_bounds by lia. f_equal.
  unfold subview_of, elem_add, ptr_add. simpl.
  assert (H0 : 0 <= r0 * stride V) by (apply Z.mul_nonneg_nonneg; lia).
  assert (H1 : 0 <= r1 * stride V) by (apply Z.mul_nonneg_nonneg; lia).
  assert (H2 : 0 <= (rows V - (r0 + r1)) * stride V)
    by (apply Z.mul_nonneg_nonneg; lia).
  unfold PTRDIFF_MAX in Hf.
  rewrite (wrap_small (r0 * stride V)) by (clear - H0 H1 H2 Hf; unfold two64; lia).
  rewrite (wrap_small (r1 * stride V)) by (clear - H0 H1 H2 Hf; unfold two64; lia).
  rewrite (wrap_small ((r0 + r1) * stride V))
    by (clear - H0 H1 H2 Hf; unfold two64; lia).
  f_equal. f_equal. ring.
Qed.

(** X18. The bounds check of [subview] adds in 64 bits. While the sums
    [r0 + rcount] and [c0 + ccount] fit, a request is refused exactly when
    it leaves the parent. When [r0 + rcount] wraps, the request leaves the
    parent (its last row is beyond every 64-bit row count) and still passes
    the check whenever the wrapped sum is within the parent's rows: it is
    not refused. *)
Theorem subview_bounds_check_wraps (V : MatrixView) (r0 c0 rcount ccount : Z) :
  0 <= r0 < two64 -> 0 <= rcount < two64 -> 0 <= c0 -> 0 <= ccount ->
  c0 + ccount < two64 -> rows V < two64 ->
  (r0 + rcount < two64 ->
   (subview V r0 c0 rcount ccount = inl invalid_argument <->
    rows V < r0 + rcount \/ cols V < c0 + ccount)) /\
  (two64 <= r0 + rcount ->
   r0 + rcount - two64 <= rows V -> c0 + ccount <= cols V ->
   rows V < r0 + rcount /\
   subview V r0 c0 rcount ccount <> inl invalid_argument).
Proof.
  intros Hr0 Hrc Hc0 Hcc Hcs HV. unfold subview. split.
  - intros Hrs.
    rewrite (wrap_small (r0 + rcount)), (wrap_small (c0 + ccount)) by lia.
    simpl andb.
    destruct (Z.gtb_spec (r0 + rcount) (rows V)) as [G1|G1];
      destruct (Z.gtb_spec (c0 + ccount) (cols V)) as [G2|G2];
      simpl orb; cbv iota;
      split; intros Hx; try reflexivity; try discriminate; lia.
  - intros Hrs Hr Hc. split; [lia|].
    assert (Hw : wrap (r0 + rcount) = r0 + rcount - two64).
    { unfold wrap. symmetry. apply (Z.mod_unique _ _ 1); lia. }
    rewrite Hw. rewrite (wrap_small (c0 + ccount)) by lia. simpl andb.
    destruct (Z.gtb_spec (r0 + rcount - two64) (rows V)); [lia|].
    destruct (Z.gtb_spec (c0 + ccount) (cols V)); [lia|]. discriminate.
Qed.

(** ** bench.cpp: the operation counts the benchmark reports *)

(** [ops_naive(n, mul, add)]: the two outputs as a pair. *)
Definition ops_naive (n : Z) : Z * Z :=
  (wrap (wrap (n * n) * n),
   wrap (wrap (n * n) * (if n >? 0 then wrap (n - 1) else 0))).

(** [ops_strassen(n, leaf, mul, add)]; each call halves [n], so 65 levels
    decide every 64-bit [n]. *)
Fixpoint ops_strassen_fuel (fuel : nat) (n leaf : Z) : option (Z * Z) :=
  if n <=? leaf then Some (ops_naive n)
  else
    match fuel with
    | O => None
    | S fuel' =>
      let m := n / 2 in
      match ops_strassen_fuel fuel' m leaf with
      | None => None
      | Some (m_mul, m_add) =>
        Some (wrap (7 * m_mul),
              wrap (wrap (7 * m_add) + wrap (wrap (18 * m) * m)))
      end
    end.

Definition ops_strassen (n leaf : Z) : option (Z * Z) :=
  ops_strassen_fuel 65 n leaf.

(** [real_equiv_ops]. *)
Definition real_equiv_ops (is_complex : bool) (field_mul field_add : Z) : Z * Z :=
  if negb is_complex then (field_mul, field_add)
  else (wrap (4 * field_mul),
        wrap (wrap (2 * field_mul) + wrap (2 * field_add))).

(** [while ((p << 1) <= max_n) p <<= 1;] *)
Fixpoint largest_pow2_loop (fuel : nat) (p max_n : Z) : option Z :=
  if wrap (Z.shiftl p 1) <=? max_n then
    match fuel with
    | O => None
    | S fuel' => largest_pow2_loop fuel' (wrap (Z.shiftl p 1)) max_n
    end
  else Some p.

(** [for (n = 2; n <= p; n <<= 1) v.push_back(n);] *)
Fixpoint push_pow2_loop (fuel : nat) (n p : Z) (v : list Z) : option (list Z) :=
  if n <=? p then
    match fuel with
    | O => None
    | S fuel' => push_pow2_loop fuel' (wrap (Z.shiftl n 1)) p (v ++ [n])
    end
  else Some v.

(** [sizes_pow2_up_to(max_n)]; [None] when a loop does not exit. *)
Definition sizes_pow2_up_to (max_n : Z) : option (list Z) :=
  if max_n <? 2 then Some []
  else
    match largest_pow2_loop 65 1 max_n with
    | None => None
    | Some p => push_pow2_loop 65 2 p []
    end.

Lemma ops_naive_counts (n : Z) :
  0 <= n ->
  ops_naive n = (wrap (naive_mul_count n), wrap (naive_add_count n)).
Proof.
  intros Hn. unfold ops_naive, naive_mul_count, naive_add_count.
  rewrite !wrap_mul_l. f_equal.
  destruct (Z.gtb_spec n 0); destruct (Z.eqb_spec n 0); try lia.
  now rewrite wrap_mul_r.
Qed.

Lemma ops_strassen_fuel_counts (k fuel : nat) (leaf : Z) :
  1 <= leaf -> (k <= fuel)%nat ->
  ops_strassen_fuel fuel (2 ^ Z.of_nat k) leaf =
  Some (wrap (strassen_mul_count k leaf (2 ^ Z.of_nat k)),
        wrap (strassen_add_count k leaf (2 ^ Z.of_nat k))).
Proof.
  intros Hleaf. revert fuel. induction k as [|k IH]; intros fuel Hf.
  - change (2 ^ Z.of_nat 0) with 1.
    assert (E : ops_strassen_fuel fuel 1 leaf = Some (ops_naive 1)).
    { destruct fuel; cbn [ops_strassen_fuel];
        (destruct (Z.leb_spec 1 leaf); [reflexivity|lia]). }
    rewrite E. reflexivity.
  - assert (Hp := pow2_pos (S k)).
    destruct (Z.leb_spec (2 ^ Z.of_nat (S k)) leaf) as [Hle|Hgt].
    + assert (E : ops_strassen_fuel fuel (2 ^ Z.of_nat (S k)) leaf
                  = Some (ops_naive (2 ^ Z.of_nat (S k)))).
      { destruct fuel; cbn [ops_strassen_fuel];
          (destruct (Z.leb_spec (2 ^ Z.of_nat (S k)) leaf); [reflexivity|lia]). }
      rewrite E, ops_naive_counts by lia.
      rewrite strassen_mul_count_leaf, strassen_add_count_leaf by assumption.
      reflexivity.
    + destruct fuel as [|fuel]; [lia|]. cbn [ops_strassen_fuel].
      destruct (Z.leb_spec (2 ^ Z.of_nat (S k)) leaf); [lia|].
      rewrite pow2_half. rewrite IH by lia.
      rewrite strassen_mul_count_S, strassen_add_count_S by assumption.
      rewrite pow2_half. f_equal. f_equal.
      * now rewrite wrap_mul_r.
      * rewrite wrap_mul_r, wrap_mul_l, wrap_add_l, wrap_add_r.
        f_equal. ring.
Qed.

(** X19. The closed forms of [bench.cpp] are the counts of the
    instrumented kernels: started on a counter at zero, [gemm_naive] on
    [N x N] operands leaves in the counter the pair [ops_naive(N)], and the
    engine on size [2 ^ k] leaves the pair [ops_strassen(2 ^ k, leaf)],
    64-bit wrap-around included. *)
Theorem bench_counts_match_kernels (N : Z) (An Bn Cn : MatrixView) (sn : state)
  (k : nat) (A B C : MatrixView) (leaf : Z) (s : state) :
  0 <= N ->
  rows An = N -> cols An = N -> rows Bn = N -> cols Bn = N ->
  rows Cn = N -> cols Cn = N ->
  counter sn = mkOps 0 0 -> counter s = mkOps 0 0 ->
  1 <= leaf ->
  square_operands (2 ^ Z.of_nat k) A B C ->
  separated A B C (arena s) ->
  mat_bytes (2 ^ Z.of_nat k) <= PTRDIFF_MAX ->
  arena_ok (arena s) ->
  off_bytes_ (arena s) + arena_need k leaf <= cap_bytes_ (arena s) ->
  (exists sn', gemm_naive An Bn Cn true sn = Ok tt sn' /\
     ops_naive N = (mul (counter sn'), add (counter sn'))) /\
  (exists s', strassen_rec A B C true leaf s = Ok tt s' /\
     ops_strassen (2 ^ Z.of_nat k) leaf
     = Some (mul (counter s'), add (counter s'))).
Proof.
  intros HN HrAn HcAn HrBn HcBn HrCn HcCn Hcn Hcs Hleaf Hops Hsep Hmb Hok Hneed.
  assert (Hz : counter_ok (mkOps 0 0)) by (unfold counter_ok, two64; simpl; lia).
  split.
  - destruct (gemm_naive_total An Bn Cn true) with (s := sn) as ([] & sn' & E);
      try congruence; try lia.
    exists sn'. split; [exact E|].
    assert (Hc := counts_run _ _ _ _ _ _
                    (gemm_naive_counts An Bn Cn true ltac:(lia) ltac:(lia) ltac:(lia))
                    ltac:(rewrite Hcn; exact Hz) E).
    rewrite !tick_true in Hc. rewrite HrAn, HcAn, HcBn, Hcn in Hc.
    destruct Hc as (_ & Hm & Ha). simpl in Hm, Ha.
    rewrite ops_naive_counts by assumption. rewrite Hm, Ha. reflexivity.
  - destruct (strassen_rec_run k A B C true leaf s Hleaf Hops Hsep
                ltac:(rewrite Hcs; exact Hz) Hmb Hok Hneed)
      as (s' & E & _ & _ & _ & _ & _ & Hc & _).
    exists s'. split; [exact E|]. rewrite !tick_true, Hcs in Hc.
    destruct Hc as (_ & Hm & Ha). simpl in Hm, Ha.
    unfold ops_strassen. rewrite ops_strassen_fuel_counts; [|assumption|].
    + rewrite Hm, Ha. reflexivity.
    + assert (Hk := pow2_exponent_small k Hmb). lia.
Qed.

(** [2 ^ e] for a [nat] exponent: the sizes the benchmark runs. *)
Definition pow2_of (e : nat) : Z := 2 ^ Z.of_nat e.

Lemma log2_nat_bounds (max_n : Z) :
  2 <= max_n < 2 ^ 63 ->
  let L := Z.to_nat (Z.log2 max_n) in
  (1 <= L <= 62)%nat /\ pow2_of L <= max_n < pow2_of (S L).
Proof.
  intros Hm L. unfold pow2_of.
  assert (Hlog := Z.log2_spec max_n ltac:(lia)).
  assert (H1 : 1 <= Z.log2 max_n).
  { change 1 with (Z.log2 2). apply Z.log2_le_mono. lia. }
  assert (H62 : Z.log2 max_n < 63) by (apply Z.log2_lt_pow2; lia).
  unfold L. rewrite Nat2Z.inj_succ, Z2Nat.id by lia. split; lia.
Qed.

Lemma shift_pow2 (j : nat) :
  (j <= 62)%nat -> wrap (Z.shiftl (pow2_of j) 1) = pow2_of (S j).
Proof.
  intros Hj. unfold pow2_of. rewrite Z.shiftl_mul_pow2 by lia.
  change (2 ^ 1) with 2.
  assert (Hp := pow2_pos (S j)).
  assert (Hle : 2 ^ Z.of_nat (S j) <= 2 ^ 63) by (apply Z.pow_le_mono_r; lia).
  change (2 ^ 63) with 9223372036854775808 in Hle.
  replace (2 ^ Z.of_nat j * 2) with (2 ^ Z.of_nat (S j))
    by (rewrite pow2_double; lia).
  apply wrap_small. unfold two64. lia.
Qed.

Lemma pow2_of_le (i j : nat) : pow2_of i <= pow2_of j <-> (i <= j)%nat.
Proof.
  unfold pow2_of. rewrite <- Z.pow_le_mono_r_iff by lia. lia.
Qed.

Lemma largest_pow2_loop_spec (max_n : Z) (L fuel j : nat) :
  (L <= 62)%nat -> pow2_of L <= max_n < pow2_of (S L) ->
  (j <= L)%nat -> (L - j < fuel)%nat ->
  largest_pow2_loop fuel (pow2_of j) max_n = Some (pow2_of L).
Proof.
  intros HL Hm. revert j. induction fuel as [|fuel IH]; intros j Hj Hf; [lia|].
  cbn [largest_pow2_loop]. rewrite shift_pow2 by lia.
  destruct (Nat.eq_dec j L) as [->|Hne].
  - destruct (Z.leb_spec (pow2_of (S L)) max_n); [lia|reflexivity].
  - assert (Hle : pow2_of (S j) <= pow2_of L) by (apply pow2_of_le; lia).
    destruct (Z.leb_spec (pow2_of (S j)) max_n); [|lia].
    apply IH; lia.
Qed.

Lemma push_pow2_loop_spec (L fuel i : nat) (v : list Z) :
  (L <= 62)%nat -> (1 <= i <= S L)%nat -> (S L - i < fuel)%nat ->
  push_pow2_loop fuel (pow2_of i) (pow2_of L) v =
  Some (v ++ map pow2_of (seq i (S L - i))).
Proof.
  intros HL. revert i v. induction fuel as [|fuel IH]; intros i v Hi Hf; [lia|].
  cbn [push_pow2_loop].
  destruct (Z.leb_spec (pow2_of i) (pow2_of L)) as [Hle|Hgt].
  - apply pow2_of_le in Hle. rewrite shift_pow2 by lia.
    rewrite IH by lia.
    replace (S L - i)%nat with (S (S L - S i)) by lia.
    cbn [seq map]. rewrite <- app_assoc. reflexivity.
  - assert (Hi' : i = S L).
    { destruct (Nat.eq_dec i (S L)) as [|Hne]; [assumption|exfalso].
      assert (pow2_of i <= pow2_of L) by (apply pow2_of_le; lia). lia. }
    subst i. rewrite Nat.sub_diag. cbn [seq map]. now rewrite app_nil_r.
Qed.

(** X20. For [max_n] below [2 ^ 63], [sizes_pow2_up_to(max_n)] is the list
    [2, 4, ..., 2 ^ floor(log2 max_n)] in increasing order, empty when
    [max_n < 2]: exactly the powers of two from 2 up to [max_n]. *)
Theorem sizes_pow2_up_to_spec (max_n : Z) :
  0 <= max_n < 2 ^ 63 ->
  sizes_pow2_up_to max_n =
  Some (map pow2_of (seq 1 (Z.to_nat (Z.log2 max_n)))).
Proof.
  intros Hm. unfold sizes_pow2_up_to.
  destruct (Z.ltb_spec max_n 2) as [Hlt|Hge].
  - assert (E : Z.log2 max_n = 0).
    { destruct (Z.eq_dec max_n 0) as [->|]; [reflexivity|].
      replace max_n with 1 by lia. reflexivity. }
    rewrite E. reflexivity.
  - destruct (log2_nat_bounds max_n ltac:(lia)) as (HL & Hb).
    set (L := Z.to_nat (Z.log2 max_n)) in *.
    assert (E1 := largest_pow2_loop_spec max_n L 65 0 ltac:(lia) Hb
                    ltac:(lia) ltac:(lia)).
    assert (E2 := push_pow2_loop_spec L 65 1 [] ltac:(lia) ltac:(lia) ltac:(lia)).
    change (pow2_of 0) with 1 in E1. change (pow2_of 1) with 2 in E2.
    rewrite E1, E2.
    replace (S L - 1)%nat with L by lia. reflexivity.
Qed.

Lemma largest_pow2_loop_zero (fuel : nat) (max_n : Z) :
  0 <= max_n -> largest_pow2_loop fuel 0 max_n = None.
Proof.
  intros Hm. induction fuel as [|fuel IH]; cbn [largest_pow2_loop];
    change (wrap (Z.shiftl 0 1)) with 0;
    (destruct (Z.leb_spec 0 max_n); [|lia]); [reflexivity|exact IH].
Qed.

Lemma largest_pow2_loop_hangs (fuel j : nat) (max_n : Z) :
  2 ^ 63 <= max_n -> (j <= 63)%nat ->
  largest_pow2_loop fuel (pow2_of j) max_n = None.
Proof.
  intros Hm. revert j. induction fuel as [|fuel IH]; intros j Hj;
    cbn [largest_pow2_loop].
  - destruct (Nat.eq_dec j 63) as [->|Hne].
    + change (wrap (Z.shiftl (pow2_of 63) 1)) with 0.
      change (2 ^ 63) with 9223372036854775808 in Hm.
      destruct (Z.leb_spec 0 max_n); [reflexivity|lia].
    + rewrite shift_pow2 by lia.
      assert (Hle : pow2_of (S j) <= pow2_of 63) by (apply pow2_of_le; lia).
      change (pow2_of 63) with (2 ^ 63) in Hle.
      destruct (Z.leb_spec (pow2_of (S j)) max_n); [reflexivity|lia].
  - destruct (Nat.eq_dec j 63) as [->|Hne].
    + change (wrap (Z.shiftl (pow2_of 63) 1)) with 0.
      change (2 ^ 63) with 9223372036854775808 in Hm.
      destruct (Z.leb_spec 0 max_n); [|lia].
      apply largest_pow2_loop_zero. lia.
    + rewrite shift_pow2 by lia.
      assert (Hle : pow2_of (S j) <= pow2_of 63) by (apply pow2_of_le; lia).
      change (pow2_of 63) with (2 ^ 63) in Hle.
      destruct (Z.leb_spec (pow2_of (S j)) max_n); [|lia].
      apply IH. lia.
Qed.

(** X21. For [max_n] of [2 ^ 63] or more the first loop of
    [sizes_pow2_up_to] never exits: [p << 1] wraps to 0, which is never
    above [max_n], so the benchmark would not start. *)
Theorem sizes_pow2_up_to_never_returns (max_n : Z) :
  2 ^ 63 <= max_n ->
  (forall fuel, largest_pow2_loop fuel 1 max_n = None) /\
  sizes_pow2_up_to max_n = None.
Proof.
  intros Hm. split.
  - intros fuel. apply (largest_pow2_loop_hangs fuel 0 max_n Hm). lia.
  - unfold sizes_pow2_up_to.
    change (2 ^ 63) with 9223372036854775808 in Hm.
    destruct (Z.ltb_spec max_n 2); [lia|].
    assert (E := largest_pow2_loop_hangs 65 0 max_n).
    change (pow2_of 0) with 1 in E. rewrite E; [reflexivity| |lia].
    change (2 ^ 63) with 9223372036854775808. exact Hm.
Qed.

(** ** generators.hpp, for a real scalar type *)

Inductive MatrixKind : Type :=
| Zeros
| Identity
| RandomUniform
| SymmetricUniform
| HermitianUniform.

Section Generators.

Variable Tone : T.             (* T{1} *)
Variable G : Type.             (* the state of std::mt19937_64 *)
Variable draw : G -> T * G.    (* dist(rng): a value of [lo, hi) and the next state *)

(** The lambda [zero_all]. *)
Definition zero_all (V : MatrixView) : M unit :=
  for_each 0 (rows V) (fun i =>
    for_each 0 (cols V) (fun j => view_set V i j Tzero)).

(** [fill_matrix(M, kind, seed, lo, hi)] with [is_complex_v<T>] false;
    [rng] is the generator constructed from the seed. *)
Definition fill_matrix (V : MatrixView) (kind : MatrixKind) (rng : G) : M unit :=
  match kind with
  | Zeros => zero_all V
  | Identity =>
    check (neq (rows V) (cols V)) invalid_argument ;;
    zero_all V ;;
    for_each 0 (rows V) (fun i => view_set V i i Tone)
  | RandomUniform =>
    _ <- for_range 0 (rows V) rng (fun i g =>
           for_range 0 (cols V) g (fun j g =>
             let (v, g') := draw g in
             view_set V i j v ;; ret g')) ;;
    ret tt
  | SymmetricUniform | HermitianUniform =>
    check (neq (rows V) (cols V)) invalid_argument ;;
    let n := rows V in
    _ <- for_range 0 n rng (fun i g =>
           for_range i n g (fun j g =>
             let (v, g') := draw g in
             view_set V i j v ;; view_set V j i v ;; ret g')) ;;
    ret tt
  end.

Lemma zero_all_run (V : MatrixView) (s : state) :
  0 <= rows V -> 0 <= cols V -> view_inj V ->
  exists s', zero_all V s = Ok tt s' /\
    heap_outside (In_view V) (heap s) s' /\
    forall i j, 0 <= i < rows V -> 0 <= j < cols V ->
      load (heap s') (elem_ptr V i j) = Tzero.
Proof.
  intros Hr Hc Hinj.
  assert (Hx : triple (heap_outside (In_view V) (heap s)) (zero_all V)
                 (fun _ s' => heap_outside (In_view V) (heap s) s' /\
                    forall i j, 0 <= i < rows V -> 0 <= j < cols V ->
                      load (heap s') (elem_ptr V i j) = Tzero)
                 no_throw).
  { apply (nested_loop_pointwise (rows V) (cols V)
             (fun i j => view_set V i j Tzero)
             (heap_outside (In_view V) (heap s))
             (fun i j t => load (heap t) (elem_ptr V i j) = Tzero) Hr Hc).
    intros i j Hi Hj t (HI & Hprev).
    rewrite view_set_in by assumption. cbn [heap]. split; [|split].
    - intros p Hp. cbn [heap].
      rewrite load_store_other; [apply HI; exact Hp|].
      intros Heq. apply Hp. rewrite <- Heq. apply In_view_intro; assumption.
    - apply load_store_same.
    - intros i' j' (Hi' & Hj' & Hord).
      rewrite load_store_other; [apply Hprev; unfold before; lia|].
      intros Heq. apply Hinj in Heq; lia. }
  specialize (Hx s (fun p _ => eq_refl)).
  destruct (zero_all V s) as [[] s'| |]; try contradiction.
  exists s'. split; [reflexivity|]. exact Hx.
Qed.

(** The square case of the [Identity] fill: zero everything, then write the
    diagonal. *)
Lemma fill_identity_run (V : MatrixView) (rng : G) (s : state) :
  view_fits V -> rows V = cols V ->
  exists s', fill_matrix V Identity rng s = Ok tt s' /\
    (forall i j, 0 <= i < rows V -> 0 <= j < rows V ->
       load (heap s') (elem_ptr V i j) = if i =? j then Tone else Tzero) /\
    (forall p, ~ In_view V p -> load (heap s') p = load (heap s) p).
Proof.
  intros HV Hsq. assert (Hinj := view_fits_inj V sizeofT_pos HV).
  assert (Hr : 0 <= rows V) by apply HV.
  assert (Hc : 0 <= cols V) by (destruct HV as (_ & ? & _); lia).
  unfold fill_matrix. rewrite (neq_false _ _ Hsq).
  - rewrite (bind_ok _ _ s s tt (check_pass _ s)).
    destruct (zero_all_run V s Hr Hc Hinj) as (s1 & E1 & Hfr1 & Hz).
    rewrite (bind_ok _ _ _ _ _ E1).
    pose (I := fun (i : Z) (t : state) =>
      heap_outside (In_view V) (heap s) t /\
      forall a b, 0 <= a < rows V -> 0 <= b < rows V ->
        load (heap t) (elem_ptr V a b) =
        if (a =? b) && (a <? i) then Tone else Tzero).
    assert (Hx : triple (I 0) (for_each 0 (rows V) (fun i => view_set V i i Tone))
                   (fun _ => I (rows V)) no_throw).
    { apply triple_for_each; [exact Hr|].
      intros i Hi t (HI & Hd). rewrite view_set_in by lia. unfold I. cbn [heap].
      split.
      - intros p Hp. cbn [heap].
        rewrite load_store_other; [apply HI; exact Hp|].
        intros Heq. apply Hp. rewrite <- Heq. apply In_view_intro; lia.
      - intros a b Ha Hb.
        destruct (Z.eq_dec a i) as [->|Hai]; [destruct (Z.eq_dec b i) as [->|Hbi]|].
        + rewrite load_store_same, Z.eqb_refl.
          destruct (Z.ltb_spec i (i + 1)); [reflexivity|lia].
        + rewrite load_store_other by (intros Heq; apply Hinj in Heq; lia).
          rewrite Hd by assumption.
          destruct (Z.eqb_spec i b); [lia|reflexivity].
        + rewrite load_store_other by (intros Heq; apply Hinj in Heq; lia).
          rewrite Hd by assumption.
          destruct (Z.eqb_spec a b); [|reflexivity]. simpl.
          destruct (Z.ltb_spec a i); destruct (Z.ltb_spec a (i + 1));
            try reflexivity; lia. }
    specialize (Hx s1). unfold I at 1 in Hx.
    assert (HI0 : heap_outside (In_view V) (heap s) s1 /\
                  forall a b, 0 <= a < rows V -> 0 <= b < rows V ->
                    load (heap s1) (elem_ptr V a b) =
                    if (a =? b) && (a <? 0) then Tone else Tzero).
    { split; [exact Hfr1|]. intros a b Ha Hb. rewrite Hz by lia.
      destruct (Z.ltb_spec a 0); [lia|]. now rewrite andb_false_r. }
    specialize (Hx HI0).
    destruct (for_each 0 (rows V) _ s1) as [[] s2| |]; try contradiction.
    destruct Hx as (Hfr2 & Hd).
    exists s2. split; [reflexivity|]. split; [|exact Hfr2].
    intros i j Hi Hj. rewrite Hd by assumption.
    destruct (Z.ltb_spec i (rows V)); [|lia]. now rewrite andb_true_r.
Qed.

(** X22. [fill_matrix] with [Identity]: a non-square view is refused with
    [invalid_argument] before anything is written; on a square view the
    result is the identity matrix, [T{1}] on the diagonal and [T{}]
    elsewhere, and nothing outside the view is written. *)
Theorem fill_matrix_identity (V : MatrixView) (rng : G) (s : state) :
  view_fits V ->
  (rows V <> cols V ->
   fill_matrix V Identity rng s = Throw invalid_argument s) /\
  (rows V = cols V ->
   exists s', fill_matrix V Identity rng s = Ok tt s' /\
     (forall i j, 0 <= i < rows V -> 0 <= j < rows V ->
        load (heap s') (elem_ptr V i j) = if i =? j then Tone else Tzero) /\
     (forall p, ~ In_view V p -> load (heap s') p = load (heap s) p)).
Proof.
  intros HV. split.
  - intros Hne. unfold fill_matrix. rewrite (neq_true _ _ Hne). reflexivity.
  - intros Hsq. apply fill_identity_run; assumption.
Qed.

(** The two stores of one step of the symmetric fill. *)
Lemma mirror_store_other (V : MatrixView) (h : Z -> Z -> T) (i j a b : Z) (v : T) :
  view_inj V ->
  0 <= i < rows V -> 0 <= j < cols V -> 0 <= j < rows V -> 0 <= i < cols V ->
  0 <= a < rows V -> 0 <= b < cols V ->
  (a, b) <> (i, j) -> (a, b) <> (j, i) ->
  load (store (store h (elem_ptr V i j) v) (elem_ptr V j i) v) (elem_ptr V a b)
  = load h (elem_ptr V a b).
Proof.
  intros Hinj Hi Hj Hj' Hi' Ha Hb H1 H2.
  rewrite !load_store_other; [reflexivity| |];
    intros Heq; apply Hinj in Heq; try lia;
    [apply H1|apply H2]; f_equal; lia.
Qed.

Lemma mirror_store_at (h : Z -> Z -> T) (p q : ptr) (v : T) :
  load (store (store h p v) q v) p = v /\ load (store (store h p v) q v) q = v.
Proof.
  split; [|apply load_store_same].
  unfold load, store.
  destruct ((blk p =? blk q) && (boff p =? boff q)); [reflexivity|].
  now rewrite !Z.eqb_refl.
Qed.

(** X23. [fill_matrix] with [SymmetricUniform], or [HermitianUniform] on a
    real scalar type: a non-square view is refused with [invalid_argument]
    before anything is written; on a square view the call returns normally
    and the matrix it leaves is symmetric, [M(i, j) = M(j, i)], whatever
    values the generator produces; nothing outside the view is written. *)
Theorem fill_matrix_symmetric (V : MatrixView) (kind : MatrixKind) (rng : G)
  (s : state) :
  kind = SymmetricUniform \/ kind = HermitianUniform ->
  view_fits V ->
  (rows V <> cols V ->
   fill_matrix V kind rng s = Throw invalid_argument s) /\
  (rows V = cols V ->
   exists s', fill_matrix V kind rng s = Ok tt s' /\
     (forall i j, 0 <= i < rows V -> 0 <= j < rows V ->
        load (heap s') (elem_ptr V i j) = load (heap s') (elem_ptr V j i)) /\
     (forall p, ~ In_view V p -> load (heap s') p = load (heap s) p)).
Proof.
  intros Hkind HV. assert (Hinj := view_fits_inj V sizeofT_pos HV).
  assert (Hr : 0 <= rows V) by apply HV.
  assert (Hfm : fill_matrix V kind rng =
                fill_matrix V SymmetricUniform rng)
    by (destruct Hkind as [-> | ->]; reflexivity).
  rewrite Hfm. clear Hfm Hkind. split.
  - intros Hne. unfold fill_matrix. rewrite (neq_true _ _ Hne). reflexivity.
  - intros Hsq. unfold fill_matrix. rewrite (neq_false _ _ Hsq).
    rewrite (bind_ok _ _ s s tt (check_pass _ s)). cbv zeta.
    set (n := rows V) in *.
    pose (Sym := fun (t : state) (a b : Z) =>
      load (heap t) (elem_ptr V a b) = load (heap t) (elem_ptr V b a)).
    pose (Io := fun (i : Z) (_ : G) (t : state) =>
      heap_outside (In_view V) (heap s) t /\
      forall a b, 0 <= a < n -> 0 <= b < n -> a < i \/ b < i -> Sym t a b).
    pose (Ji := fun (i j : Z) (_ : G) (t : state) =>
      heap_outside (In_view V) (heap s) t /\
      (forall a b, 0 <= a < n -> 0 <= b < n -> a < i \/ b < i -> Sym t a b) /\
      forall b, i <= b < j -> Sym t i b).
    assert (Hin : forall i g, 0 <= i < n ->
              triple (Io i g)
                (for_range i n g (fun j g0 =>
                   let (v, g') := draw g0 in
                   view_set V i j v ;; view_set V j i v ;; ret g'))
                (fun g' => Io (i + 1) g') no_throw).
    { intros i g Hi. unfold for_range. eapply triple_conseq.
      - apply (triple_for_loop (Ji i) _ no_throw (Z.to_nat (n - i)) i g).
        intros j g0 Hj t (HI & Hold & Hrow).
        rewrite Z2Nat.id in Hj by lia.
        destruct (draw g0) as [v g'].
        rewrite (bind_ok _ _ _ _ _ (view_set_in V i j v t ltac:(lia) ltac:(lia))).
        rewrite (bind_ok _ _ _ _ _ (view_set_in V j i v _ ltac:(simpl; lia)
                                                  ltac:(simpl; lia))).
        unfold ret, Ji, Sym. cbn [heap].
        split; [|split].
        + intros p Hp. cbn [heap].
          rewrite !load_store_other; [apply HI; exact Hp| |];
            intros Heq; apply Hp; rewrite <- Heq; apply In_view_intro; lia.
        + intros a b Ha Hb Hab.
          rewrite !(mirror_store_other V) by
            (try assumption; try lia; intros Heq; injection Heq; lia).
          apply Hold; assumption.
        + intros b Hb. destruct (Z.eq_dec b j) as [->|Hne].
          * destruct (mirror_store_at (heap t) (elem_ptr V i j) (elem_ptr V j i) v)
              as [E1 E2].
            rewrite E1, E2. reflexivity.
          * rewrite !(mirror_store_other V) by
              (try assumption; try lia; intros Heq; injection Heq; lia).
            apply Hrow. lia.
      - intros t (HI & Hold). unfold Ji. split; [exact HI|].
        split; [exact Hold|]. intros b Hb. lia.
      - intros g' t (HI & Hold & Hrow). rewrite Z2Nat.id in Hrow by lia.
        replace (i + (n - i)) with n in Hrow by lia.
        unfold Io. split; [exact HI|]. intros a b Ha Hb Hab.
        destruct (Z_lt_ge_dec a i) as [|Hai]; [apply Hold; lia|].
        destruct (Z_lt_ge_dec b i) as [|Hbi]; [apply Hold; lia|].
        destruct (Z.eq_dec a i) as [->|]; [apply Hrow; lia|].
        assert (b = i) by lia. subst b.
        unfold Sym. symmetry. apply Hrow. lia.
      - auto. }
    assert (Hx : triple (Io 0 rng)
                   (for_range 0 n rng (fun i g =>
                      for_range i n g (fun j g0 =>
                        let (v, g') := draw g0 in
                        view_set V i j v ;; view_set V j i v ;; ret g')))
                   (fun g' => Io n g') no_throw).
    { unfold for_range at 1. eapply triple_conseq.
      - apply (triple_for_loop Io _ no_throw (Z.to_nat (n - 0)) 0 rng).
        intros i g Hi. rewrite Z2Nat.id in Hi by lia. apply Hin. lia.
      - auto.
      - intros g' t Ht. rewrite Z2Nat.id in Ht by lia.
        replace (0 + (n - 0)) with n in Ht by lia. exact Ht.
      - auto. }
    specialize (Hx s). unfold Io at 1 in Hx.
    assert (H0 : heap_outside (In_view V) (heap s) s /\
                 forall a b, 0 <= a < n -> 0 <= b < n -> a < 0 \/ b < 0 ->
                             Sym s a b).
    { split; [intros p _; reflexivity|]. intros a b Ha Hb Hab. lia. }
    specialize (Hx H0).
    unfold bind at 1.
    destruct (for_range 0 n rng _ s) as [g' s'| |]; try contradiction.
    destruct Hx as (Hfr & Hsym).
    exists s'. split; [reflexivity|]. split; [|exact Hfr].
    intros i j Hi Hj. apply Hsym; lia.
Qed.

End Generators.

(** ** aligned_alloc.hpp: the tracked byte counters

    The two process-wide counters as one thread sees them; [fresh] is the
    block [operator new] returns, never null. *)

Record TrackedAllocStats : Type := mkStats {
  current_bytes : Z;
  peak_bytes : Z
}.

Definition tracked_add (n : Z) (st : TrackedAllocStats) : TrackedAllocStats :=
  let cur := wrap (current_bytes st + n) in
  mkStats cur (if cur >? peak_bytes st then cur else peak_bytes st).

Definition tracked_sub (n : Z) (st : TrackedAllocStats) : TrackedAllocStats :=
  mkStats (wrap (current_bytes st - n)) (peak_bytes st).

Definition is_null (p : ptr) : bool := (blk p =? 0) && (boff p =? 0).

(** [AlignedBuffer::release]. *)
Definition AlignedBuffer_release (b : AlignedBuffer) (st : TrackedAllocStats)
  : AlignedBuffer * TrackedAllocStats :=
  if is_null (ptr_ b) then (b, st)
  else (mkBuffer nullptr 0, tracked_sub (tracked_bytes_ b) st).

(** [AlignedBuffer::allocate], with the counters. *)
Definition AlignedBuffer_allocate_tracked (bytes fresh : Z) (b : AlignedBuffer)
  (st : TrackedAllocStats) : AlignedBuffer * TrackedAllocStats :=
  let (b1, st1) := AlignedBuffer_release b st in
  if bytes =? 0 then (b1, st1)
  else (mkBuffer (mkptr fresh 0) bytes, tracked_add bytes st1).

(** [AlignedBuffer::move_from]: the new owner and what is left behind. *)
Definition AlignedBuffer_move_from (o : AlignedBuffer) : AlignedBuffer * AlignedBuffer :=
  (mkBuffer (ptr_ o) (tracked_bytes_ o), mkBuffer nullptr 0).

(** X24. Accounting of the tracked counters. Let the other live buffers
    hold [rest] bytes, so that the current counter is [rest] plus what the
    buffer [b] holds, and let the peak be at least the current value. After
    [allocate(bytes)] on [b] the current counter is [rest + bytes] (what
    [b] held before is given back first), the peak is the larger of the old
    peak and the new current value, and a later [release] brings the
    current counter to [rest], leaves the peak alone, and is idempotent. *)
Theorem tracked_allocation_accounting (rest bytes fresh : Z) (b : AlignedBuffer)
  (st : TrackedAllocStats) :
  0 <= rest -> 0 <= tracked_bytes_ b -> 0 <= bytes -> fresh <> 0 ->
  (is_null (ptr_ b) = true -> tracked_bytes_ b = 0) ->
  current_bytes st = rest + tracked_bytes_ b ->
  current_bytes st <= peak_bytes st -> peak_bytes st < two64 ->
  rest + bytes < two64 ->
  let (b1, st1) := AlignedBuffer_allocate_tracked bytes fresh b st in
  let (b2, st2) := AlignedBuffer_release b1 st1 in
  tracked_bytes_ b1 = bytes /\
  (is_null (ptr_ b1) = true <-> bytes = 0) /\
  current_bytes st1 = rest + bytes /\
  peak_bytes st1 = Z.max (peak_bytes st) (rest + bytes) /\
  b2 = mkBuffer nullptr 0 /\
  current_bytes st2 = rest /\
  peak_bytes st2 = peak_bytes st1 /\
  AlignedBuffer_release b2 st2 = (b2, st2).
Proof.
  intros Hrest Htb Hbytes Hfresh Hnull Hcur Hpk Hpk64 Hfit.
  assert (Hrel : AlignedBuffer_release b st =
                 (mkBuffer nullptr 0, mkStats rest (peak_bytes st))).
  { unfold AlignedBuffer_release. destruct (is_null (ptr_ b)) eqn:En.
    - specialize (Hnull eq_refl). destruct b as [p tb]. simpl in *. subst tb.
      unfold is_null in En. apply andb_prop in En.
      destruct En as [E1%Z.eqb_eq E2%Z.eqb_eq].
      destruct p as [pb po]. simpl in *. subst pb po.
      destruct st as [c pk]. simpl in *. f_equal. f_equal. lia.
    - unfold tracked_sub. rewrite Hcur.
      replace (rest + tracked_bytes_ b - tracked_bytes_ b) with rest by lia.
      rewrite wrap_small by lia. reflexivity. }
  unfold AlignedBuffer_allocate_tracked. rewrite Hrel.
  destruct (Z.eqb_spec bytes 0) as [->|Hne].
  - unfold AlignedBuffer_release. simpl.
    repeat split; try reflexivity; try lia.
  - unfold AlignedBuffer_release, tracked_add, tracked_sub, is_null. simpl.
    rewrite (wrap_small (rest + bytes)) by lia.
    destruct (Z.eqb_spec fresh 0); [contradiction|]. simpl.
    replace (rest + bytes - bytes) with rest by lia.
    rewrite (wrap_small rest) by lia.
    repeat split; try reflexivity; try lia; try discriminate.
    destruct (Z.gtb_spec (rest + bytes) (peak_bytes st)); lia.
Qed.

(** ** An identity factor *)

Section IdentityFactor.

Variable Tone : T.
Variable Topp : T -> T.
Hypothesis Tring : ring_theory Tzero Tone Tadd Tmul Tsub Topp (@eq T).
Variable G : Type.
Variable draw : G -> T * G.

Add Ring T_ring_identity : Tring.

(** A sum against one column of the identity matrix picks one term. *)
Lemma sumn_delta (a : Z -> T) (j : Z) (cnt : nat) :
  0 <= j ->
  sumn (fun p => Tmul (a p) (if p =? j then Tone else Tzero)) cnt =
  if j <? Z.of_nat cnt then a j else Tzero.
Proof.
  intros Hj. induction cnt as [|c IH]; [simpl; destruct (Z.ltb_spec j 0); [lia|reflexivity]|].
  rewrite sumn_S, IH.
  destruct (Z.eqb_spec (Z.of_nat c) j) as [<-|Hne].
  - destruct (Z.ltb_spec (Z.of_nat c) (Z.of_nat c)); [lia|].
    destruct (Z.ltb_spec (Z.of_nat c) (Z.of_nat (S c))); [ring|lia].
  - destruct (Z.ltb_spec j (Z.of_nat c)); destruct (Z.ltb_spec j (Z.of_nat (S c)));
      try lia; ring.
Qed.

Lemma fill_identity_counts (V : MatrixView) (rng : G) :
  0 <= rows V -> 0 <= cols V ->
  counts 0 0 (fill_matrix Tone G draw V Identity rng).
Proof.
  intros Hr Hc. unfold fill_matrix, zero_all.
  apply (counts_eq (0 + (0 + 0)) (0 + (0 + 0))); [|reflexivity|reflexivity].
  apply counts_bind; [apply counts_check|]. intros _.
  apply counts_bind; [|intros _].
  - apply (counts_eq ((rows V - 0) * 0) ((rows V - 0) * 0)); [|lia|lia].
    apply counts_for_each; [exact Hr|]. intros i _.
    apply (counts_eq ((cols V - 0) * 0) ((cols V - 0) * 0)); [|lia|lia].
    apply counts_for_each; [exact Hc|]. intros j _. apply counts_view_set.
  - apply (counts_eq ((rows V - 0) * 0) ((rows V - 0) * 0)); [|lia|lia].
    apply counts_for_each; [exact Hr|]. intros i _. apply counts_view_set.
Qed.

(** X27. Multiplying by a matrix filled with [MatrixKind::Identity] copies
    the left factor: after [fill_matrix(E, Identity)] on a square [E],
    [gemm_naive(A, E, C)] returns normally and every element of [C] is the
    element of [A] at the same place, for views that do not overlap. *)
Theorem identity_is_right_neutral (A E C : MatrixView) (rng : G) (ops : bool)
  (s : state) :
  cols A = rows E -> rows E = cols E -> rows C = rows A -> cols C = cols A ->
  0 <= rows A ->
  view_fits E -> view_fits C ->
  disjoint_views A E -> disjoint_views A C -> disjoint_views E C ->
  counter_ok (counter s) ->
  exists s1 s2,
    fill_matrix Tone G draw E Identity rng s = Ok tt s1 /\
    gemm_naive A E C ops s1 = Ok tt s2 /\
    forall i j, 0 <= i < rows A -> 0 <= j < cols A ->
      load (heap s2) (elem_ptr C i j) = load (heap s) (elem_ptr A i j).
Proof.
  intros HAE Hsq HrC HcC Hm HfE HfC HdAE HdAC HdEC Hcnt.
  assert (HrE : 0 <= rows E) by apply HfE.
  destruct (fill_identity_run Tone G draw E rng s HfE Hsq) as (s1 & E1 & Hid & Hfr).
  assert (Hc1 : counter_ok (counter s1)).
  { apply (counts_run 0 0 _ s s1 tt (fill_identity_counts E rng HrE ltac:(lia)) Hcnt E1). }
  destruct (gemm_naive_spec A E C ops s1) as (s2 & E2 & _ & _ & Hv);
    try assumption; try lia.
  { apply view_fits_inj; assumption. }
  exists s1, s2. split; [exact E1|]. split; [exact E2|].
  intros i j Hi Hj. rewrite Hv by lia.
  unfold naive_entry. rewrite (naive_dot_sum Tone Topp Tring) by lia.
  unfold view_mat.
  rewrite (sumn_ext _
             (fun p => Tmul (load (heap s) (elem_ptr A i p))
                            (if p =? j then Tone else Tzero))).
  - rewrite sumn_delta by lia.
    destruct (Z.ltb_spec j (Z.of_nat (Z.to_nat (cols A)))); [reflexivity|lia].
  - intros p Hp. rewrite Hid by lia. f_equal.
    apply Hfr. apply HdAE. apply In_view_intro; lia.
Qed.

End IdentityFactor.

(** ** A failed level *)

(** X28. An allocation failure inside [strassen_rec] is not cleaned up by
    the engine: if the arena has room for one [m x m] scratch matrix of the
    first level but not for two, the call throws [bad_alloc] after the
    first allocation, and the exception leaves the arena cursor advanced
    past that matrix (there is no rollback on the way out); the heap and
    the counter are untouched. *)
Theorem strassen_rec_failure_keeps_cursor (m : Z) (A B C : MatrixView)
  (ops : bool) (leaf : Z) (s : state) :
  0 < m -> leaf < 2 * m ->
  rows A = 2 * m -> cols A = 2 * m -> rows B = 2 * m -> cols B = 2 * m ->
  rows C = 2 * m -> cols C = 2 * m ->
  4 * mat_bytes m <= PTRDIFF_MAX -> arena_ok (arena s) ->
  let ao := align_up (off_bytes_ (arena s)) scratch_align in
  ao + mat_bytes m <= cap_bytes_ (arena s) < ao + 2 * mat_bytes m ->
  exists s',
    strassen_rec A B C ops leaf s = Throw bad_alloc s' /\
    heap s' = heap s /\ counter s' = counter s /\
    off_bytes_ (arena s') = ao + mat_bytes m /\
    off_bytes_ (arena s) < off_bytes_ (arena s').
Proof.
  intros Hm Hleaf HrA HcA HrB HcB HrC HcC Hb Hok ao Hcap.
  assert (Hmb : 0 < mat_bytes m) by (unfold mat_bytes; nia).
  assert (Hao : off_bytes_ (arena s) <= ao).
  { destruct Hok as (Ho & Hc).
    apply (align_up_scratch (off_bytes_ (arena s))). lia. }
  unfold strassen_rec. rewrite strassen_rec_fuel_S.
  rewrite !neq_false by congruence. simpl andb.
  rewrite !(bind_ok _ _ s s tt (check_pass _ s)).
  destruct (Z.eqb_spec (rows A) 0); [lia|].
  destruct (Z.leb_spec (rows A) leaf); [lia|].
  rewrite neq_false by (rewrite HrA, Z.mul_comm; apply Z.mod_mul; lia).
  unfold strassen_body.
  rewrite (bind_ok arena_mark _ s s (mark (arena s)) eq_refl).
  replace (rows A / 2) with m by (rewrite HrA, Z.mul_comm, Z.div_mul; lia).
  cbv zeta.
  repeat (erewrite bind_ok;
          [|unfold lift; rewrite subview_in_bounds by lia; reflexivity]).
  destruct (alloc_matrix_cases m m (arena s) ltac:(lia) ltac:(lia)
              ltac:(unfold mat_bytes in Hb; lia) Hok) as (_ & Hfit & _).
  fold ao in Hfit. fold (mat_bytes m) in Hfit.
  specialize (Hfit Hm Hm ltac:(lia)).
  erewrite bind_ok; [|unfold arena_alloc_matrix; rewrite Hfit; reflexivity].
  set (s1 := mkState _ _ _ _).
  assert (E2 : alloc_matrix m m (arena s1) = inl bad_alloc).
  { apply alloc_matrix_short; try assumption.
    - destruct Hok as (Ho & Hc). split; simpl; lia.
    - simpl. lia. }
  eexists. split.
  - unfold bind at 1. unfold arena_alloc_matrix at 1. rewrite E2. reflexivity.
  - simpl. repeat split; lia.
Qed.

End Scalar.

(** * A concrete instance

    Scalars are integers stored like [std::int64_t]: eight bytes, aligned
    to eight. Block 1 holds 1, 2, 3, ... and block 2 holds 5, 6, 7, ...,
    read through views of size two and three; block 3 is the destination
    and block 4 the arena buffer. *)

Definition demo_heap : Z -> Z -> Z :=
  fun b o => if b =? 1 then 1 + o / 8 else if b =? 2 then 5 + o / 8 else 0.

Definition demo_A2 : MatrixView := mkView (mkptr 1 0) 2 2 2.
Definition demo_B2 : MatrixView := mkView (mkptr 2 0) 2 2 2.
Definition demo_C2 : MatrixView := mkView (mkptr 3 0) 2 2 2.

Definition demo_A3 : MatrixView := mkView (mkptr 1 0) 3 3 3.
Definition demo_B3 : MatrixView := mkView (mkptr 2 0) 3 3 3.
Definition demo_C3 : MatrixView := mkView (mkptr 3 0) 3 3 3.

Definition demo_empty : MatrixView := mkView nullptr 0 0 0.

(** An arena of exactly [strassen_scratch_bytes<int64_t>(2)] bytes. *)
Definition demo_arena : ScratchArena := mkArena (mkptr 4 0) 1264 0 0.

(** Arenas of another size: too large, and too small for one element. *)
Definition demo_large_arena : ScratchArena := mkArena (mkptr 4 0) 4096 0 0.
Definition demo_small_arena : ScratchArena := mkArena (mkptr 4 0) 8 0 0.

(** A second arena, with its own buffer and cursor. *)
Definition demo_other_arena : ScratchArena := mkArena (mkptr 6 0) 1264 16 16.
Definition demo_used_arena : ScratchArena := mkArena (mkptr 4 0) 1264 32 32.

Definition demo_state_with (a : ScratchArena) : state Z :=
  mkState Z demo_heap 5 a (mkOps 0 0).

Definition demo_state : state Z := demo_state_with demo_arena.

Definition demo_cfg : StrassenConfig := mkConfig 1 true.

Lemma demo_align : exists e, 0 <= e <= 32 /\ 8 = 2 ^ e.
Proof. exists 3. split; [lia|reflexivity]. Qed.

Lemma demo_square2 : square_operands (2 ^ Z.of_nat 1) demo_A2 demo_B2 demo_C2.
Proof.
  unfold square_operands, view_fits, PTRDIFF_MAX. simpl. repeat split; lia.
Qed.

Lemma demo_square3 : square_operands 3 demo_A3 demo_B3 demo_C3.
Proof.
  unfold square_operands, view_fits, PTRDIFF_MAX. simpl. repeat split; lia.
Qed.

Lemma demo_separated2 (a : ScratchArena) :
  blk (buf_ a) = 4 -> separated 8 demo_A2 demo_B2 demo_C2 a.
Proof.
  intros Ha. unfold separated, scratch.
  split; [|split]; intros p Hp; apply In_view_blk in Hp; simpl in Hp.
  - split; [intros H; apply In_view_blk in H; simpl in H; lia|intros [H _]; lia].
  - split; [intros H; apply In_view_blk in H; simpl in H; lia|intros [H _]; lia].
  - intros [H _]; lia.
Qed.

Lemma demo_disjoint3 :
  disjoint_views 8 demo_A3 demo_C3 /\ disjoint_views 8 demo_B3 demo_C3.
Proof.
  split; intros p Hp H; apply In_view_blk in Hp, H; simpl in Hp, H; lia.
Qed.

Lemma demo_counter_ok : counter_ok (mkOps 0 0).
Proof. unfold counter_ok, two64. simpl. lia. Qed.

Definition demo_V : MatrixView := mkView (mkptr 1 0) 4 4 4.

Lemma subview_shares_storage_witness :
  exists S, subview 8 demo_V 1 2 2 2 = inr S /\
    stride S = stride demo_V /\
    blk (data S) = blk (data demo_V) /\
    rows S = 2 /\ cols S = 2 /\
    forall i j, 0 <= i < 2 -> 0 <= j < 2 ->
      elem_ptr 8 S i j = elem_ptr 8 demo_V (1 + i) (2 + j) /\
      (forall (s : state Z) (v : Z), exists s',
          view_set Z 8 S i j v s = Ok tt s' /\
          view_get Z 8 demo_V (1 + i) (2 + j) s' = Ok v s') /\
      (forall (s : state Z) (v : Z), exists s',
          view_set Z 8 demo_V (1 + i) (2 + j) v s = Ok tt s' /\
          view_get Z 8 S i j s' = Ok v s').
Proof.
  apply (subview_shares_storage Z 8 demo_V 1 2 2 2).
  - unfold view_fits, PTRDIFF_MAX. simpl. lia.
  - lia.
  - lia.
  - lia.
  - lia.
  - simpl. lia.
  - simpl. lia.
Defined.

Lemma empty_operands_return_immediately_witness :
  strassen_rec Z 0 Z.add Z.sub Z.mul 8 8 demo_empty demo_empty demo_empty
               true 1 demo_state = Ok tt demo_state.
Proof.
  apply (empty_operands_return_immediately Z 0 Z.add Z.sub Z.mul 8 8
           demo_empty demo_empty demo_empty true 1 demo_state);
    reflexivity.
Defined.

Lemma prealloc_rejects_non_power_of_two_witness :
  gemm_strassen_pow2_prealloc Z 0 Z.add Z.sub Z.mul 8 8 demo_A3 demo_B3 demo_C3
                              true demo_cfg demo_state
  = Throw invalid_argument demo_state /\
  exists s',
    gemm_strassen_pow2_prealloc Z 0 Z.add Z.sub Z.mul 8 8
      demo_A2 demo_B2 demo_C2 true demo_cfg (demo_state_with demo_large_arena)
    = Ok tt s' /\
    used_bytes (arena Z s') = used_bytes demo_large_arena /\
    capacity_bytes (arena Z s') = capacity_bytes demo_large_arena.
Proof.
  split.
  - apply (proj1 (prealloc_rejects_non_power_of_two Z 0 Z.add Z.sub Z.mul 8 8
                    eq_refl demo_align demo_A3 demo_B3 demo_C3 true demo_cfg
                    demo_state)).
    + unfold two64. simpl. lia.
    + apply (between_powers_not_power 2 3). vm_compute. split; reflexivity.
  - apply (proj2 (prealloc_rejects_non_power_of_two Z 0 Z.add Z.sub Z.mul 8 8
                    eq_refl demo_align demo_A2 demo_B2 demo_C2 true demo_cfg
                    (demo_state_with demo_large_arena)) 1%nat).
    + simpl. lia.
    + exact demo_square2.
    + apply demo_separated2. reflexivity.
    + exact demo_counter_ok.
    + apply Z.leb_le. vm_compute. reflexivity.
    + unfold arena_ok, PTRDIFF_MAX. simpl. lia.
    + apply Z.leb_le. vm_compute. reflexivity.
Defined.

(** C7, the sentence as the spec has it, at an arena that is not of the size
    the sizing policy gives: with 4096 bytes instead of 1264 the pre-sized
    entry point returns normally, and with 8 bytes it fails with
    [bad_alloc], which is not the precondition error. *)
Lemma prealloc_accepts_wrong_arena_size :
  strassen_scratch_bytes 8 2 = inr 1264 /\
  capacity_bytes demo_large_arena = 4096 /\
  capacity_bytes demo_small_arena = 8 /\
  (exists s', gemm_strassen_pow2_prealloc Z 0 Z.add Z.sub Z.mul 8 8
                demo_A2 demo_B2 demo_C2 true demo_cfg
                (demo_state_with demo_large_arena) = Ok tt s') /\
  (exists s', gemm_strassen_pow2_prealloc Z 0 Z.add Z.sub Z.mul 8 8
                demo_A2 demo_B2 demo_C2 true demo_cfg
                (demo_state_with demo_small_arena) = Throw bad_alloc s').
Proof.
  split; [reflexivity|]. split; [reflexivity|]. split; [reflexivity|].
  split; vm_compute; eexists; reflexivity.
Qed.

(** C8, the sentence as the spec has it, at a mark taken from another
    arena: the mark 16 of an unrelated arena is accepted by an arena whose
    offset is 32, and moves its offset to 16. *)
Lemma rollback_accepts_foreign_mark :
  buf_ demo_other_arena <> buf_ demo_used_arena /\
  rollback (mark demo_other_arena) demo_used_arena
  = inr (mkArena (mkptr 4 0) 1264 16 32).
Proof.
  split; [discriminate|reflexivity].
Qed.


Lemma scratch_budget_never_exceeded_witness :
  let n := 2 ^ Z.of_nat 1 in
  let live := scratch_elems 1 1 in
  let padding := 9 * (scratch_align 8 - 1) * scratch_levels 1 1 in
  exists s',
    strassen_rec Z 0 Z.add Z.sub Z.mul 8 8 demo_A2 demo_B2 demo_C2 true 1
                 demo_state = Ok tt s' /\
    hwm_bytes (arena Z s')
      <= Z.max (hwm_bytes (arena Z demo_state)) (live * 8 + padding) /\
    live < 3 * (n * n) /\
    padding <= 9 * Z.log2 n * kScratchAlignmentBytes /\
    live * 8 + padding + 1024 < 1264 /\
    (hwm_bytes (arena Z demo_state) <= 1264 -> hwm_bytes (arena Z s') <= 1264).
Proof.
  apply (scratch_budget_never_exceeded Z 0 Z.add Z.sub Z.mul 8 8 eq_refl
           demo_align 1%nat demo_A2 demo_B2 demo_C2 true 1 demo_state 1264).
  - lia.
  - lia.
  - exact demo_square2.
  - apply demo_separated2. reflexivity.
  - exact demo_counter_ok.
  - apply Z.leb_le. vm_compute. reflexivity.
  - vm_compute. reflexivity.
  - reflexivity.
  - unfold PTRDIFF_MAX. simpl. lia.
Defined.

Lemma successful_call_restores_used_bytes_witness :
  exists s',
    strassen_rec Z 0 Z.add Z.sub Z.mul 8 8 demo_A2 demo_B2 demo_C2 true 1
                 (demo_state_with demo_used_arena) = Ok tt s' /\
    used_bytes (arena Z s') = 32.
Proof.
  assert (E : exists s',
             strassen_rec Z 0 Z.add Z.sub Z.mul 8 8 demo_A2 demo_B2 demo_C2 true 1
                          (demo_state_with demo_used_arena) = Ok tt s')
    by (vm_compute; eexists; reflexivity).
  destruct E as [s' E]. exists s'. split; [exact E|].
  apply (successful_call_restores_used_bytes Z 0 Z.add Z.sub Z.mul 8 8
           demo_A2 demo_B2 demo_C2 true 1 (demo_state_with demo_used_arena) s' E).
Defined.

Lemma failure_leaves_destination_untouched_witness :
  strassen_rec Z 0 Z.add Z.sub Z.mul 8 8 demo_A2 demo_B2 demo_C2 true 1
               (demo_state_with demo_small_arena) <> Diverge /\
  (forall e s',
     strassen_rec Z 0 Z.add Z.sub Z.mul 8 8 demo_A2 demo_B2 demo_C2 true 1
                  (demo_state_with demo_small_arena) = Throw e s' \/
     gemm_strassen_pow2_prealloc Z 0 Z.add Z.sub Z.mul 8 8
       demo_A2 demo_B2 demo_C2 true demo_cfg
       (demo_state_with demo_small_arena) = Throw e s' ->
     forall o, heap Z s' (blk (data demo_C2)) o
               = heap Z (demo_state_with demo_small_arena) (blk (data demo_C2)) o) /\
  (rows demo_A2 <> cols demo_A2 \/ rows demo_B2 <> cols demo_B2 \/
   rows demo_C2 <> cols demo_C2 \/ rows demo_A2 <> rows demo_B2 \/
   rows demo_A2 <> rows demo_C2 ->
   strassen_rec Z 0 Z.add Z.sub Z.mul 8 8 demo_A2 demo_B2 demo_C2 true 1
                (demo_state_with demo_small_arena)
   = Throw invalid_argument (demo_state_with demo_small_arena) /\
   gemm_strassen_pow2_prealloc Z 0 Z.add Z.sub Z.mul 8 8
     demo_A2 demo_B2 demo_C2 true demo_cfg (demo_state_with demo_small_arena)
   = Throw invalid_argument (demo_state_with demo_small_arena)).
Proof.
  apply (failure_leaves_destination_untouched Z 0 Z.add Z.sub Z.mul 8 8 eq_refl
           demo_align demo_A2 demo_B2 demo_C2 true demo_cfg 1
           (demo_state_with demo_small_arena)).
  - simpl. lia.
  - apply Z.leb_le. vm_compute. reflexivity.
  - unfold arena_ok, PTRDIFF_MAX. simpl. lia.
  - simpl. lia.
Defined.

Lemma operation_counts_witness :
  let n := 2 ^ Z.of_nat 1 in
  (exists sn',
      gemm_naive Z 0 Z.add Z.mul 8 demo_A3 demo_B3 demo_C3 true demo_state
      = Ok tt sn' /\
      mul (counter Z sn') = wrap (mul (counter Z demo_state) + 3 * 3 * 3) /\
      add (counter Z sn') = wrap (add (counter Z demo_state) + 3 * 3 * (3 - 1))) /\
  (exists s',
      strassen_rec Z 0 Z.add Z.sub Z.mul 8 8 demo_A2 demo_B2 demo_C2 true 1
                   demo_state = Ok tt s' /\
      mul (counter Z s')
      = wrap (mul (counter Z demo_state) + strassen_mul_count 1 1 n) /\
      add (counter Z s')
      = wrap (add (counter Z demo_state) + strassen_add_count 1 1 n)) /\
  (n <= 1 ->
   strassen_mul_count 1 1 n = n * n * n /\
   strassen_add_count 1 1 n = n * n * (n - 1)) /\
  (1 < n ->
   strassen_mul_count 1 1 n = 7 * strassen_mul_count (Nat.pred 1) 1 (n / 2) /\
   strassen_add_count 1 1 n
   = 7 * strassen_add_count (Nat.pred 1) 1 (n / 2) + 18 * (n / 2 * (n / 2))) /\
  (forall X Y Out, 0 <= rows X -> 0 <= cols X ->
     counts Z 0 (rows X * cols X) (mat_sub Z Z.sub 8 X Y Out true) /\
     counts Z 0 (rows X * cols X) (mat_add Z Z.add 8 X Y Out true)) /\
  (forall m M1 M2 M3 M4 M5 M6 M7 C11 C12 C21 C22, 0 <= m ->
     counts Z 0 (8 * (m * m))
       (combine Z Z.add Z.sub 8 m M1 M2 M3 M4 M5 M6 M7 C11 C12 C21 C22 true)).
Proof.
  apply (operation_counts Z 0 Z.add Z.sub Z.mul 8 8 eq_refl demo_align
           3 demo_A3 demo_B3 demo_C3 demo_state
           1%nat demo_A2 demo_B2 demo_C2 1 demo_state).
  - lia.
  - reflexivity.
  - reflexivity.
  - reflexivity.
  - reflexivity.
  - reflexivity.
  - reflexivity.
  - exact demo_counter_ok.
  - lia.
  - exact demo_square2.
  - apply demo_separated2. reflexivity.
  - exact demo_counter_ok.
  - apply Z.leb_le. vm_compute. reflexivity.
  - unfold arena_ok, PTRDIFF_MAX. simpl. lia.
  - apply Z.leb_le. vm_compute. reflexivity.
Defined.

(** * Instances of the further properties *)

Definition demo_A23 : MatrixView := mkView (mkptr 1 0) 2 3 3.
Definition demo_B32 : MatrixView := mkView (mkptr 2 0) 3 2 2.

(** The first two scratch matrices of size two taken from [demo_arena]. *)
Definition demo_M1 : MatrixView := mkView (mkptr 4 0) 2 2 2.
Definition demo_M2 : MatrixView := mkView (mkptr 4 32) 2 2 2.
Definition demo_used_arena2 : ScratchArena := mkArena (mkptr 4 0) 1264 64 64.

(** An empty buffer, and counters with 100 bytes live elsewhere. *)
Definition demo_buffer : AlignedBuffer := mkBuffer nullptr 0.
Definition demo_stats : TrackedAllocStats := mkStats 100 200.

(** A generator that counts: the value drawn is the state. *)
Definition demo_draw (g : Z) : Z * Z := (g, g + 1).

Lemma demo_blocks_disjoint (V W : MatrixView) :
  blk (data V) <> blk (data W) -> disjoint_views 8 V W.
Proof.
  intros Hne p Hp H. apply In_view_blk in Hp, H. congruence.
Qed.

Lemma is_power_of_two_iff_witness :
  is_power_of_two 8 = true <-> exists k : Z, 0 <= k < 64 /\ 8 = 2 ^ k.
Proof.
  apply (is_power_of_two_iff 8).
  - unfold two64. simpl. lia.
Defined.

Lemma next_power_of_two_least_witness :
  exists k : nat,
  (k <= 63)%nat /\
  next_power_of_two 5 = Some (2 ^ Z.of_nat k) /\
  5 <= 2 ^ Z.of_nat k /\
  (forall j : Z, 0 <= j -> 5 <= 2 ^ j -> 2 ^ Z.of_nat k <= 2 ^ j).
Proof.
  apply (next_power_of_two_least 5).
  - lia.
Defined.

Lemma next_power_of_two_never_returns_witness :
  (forall fuel : nat, next_power_of_two_loop fuel 1 (2 ^ 63 + 1) = None) /\
  next_power_of_two (2 ^ 63 + 1) = None.
Proof.
  apply (next_power_of_two_never_returns (2 ^ 63 + 1)).
  - lia.
Defined.

Lemma strassen_scratch_bytes_wraps_witness :
  strassen_scratch_bytes 8 (2 ^ 32) =
  inr
    (if 2 ^ 32 =? 0
     then 0
     else
      wrap
        (3 * (2 ^ 32 * 2 ^ 32) * 8 +
         9 * Z.log2 (2 ^ 32) * kScratchAlignmentBytes + 1024)).
Proof.
  apply (strassen_scratch_bytes_wraps 8 (2 ^ 32)).
  - unfold two64. simpl. lia.
Defined.

Lemma align_up_least_multiple_witness :
  13 <= align_up 13 (2 ^ 4) < 13 + 2 ^ 4 /\
  align_up 13 (2 ^ 4) mod 2 ^ 4 = 0 /\
  (forall y : Z, 13 <= y -> y mod 2 ^ 4 = 0 -> align_up 13 (2 ^ 4) <= y).
Proof.
  apply (align_up_least_multiple 13 4).
  - lia.
  - unfold PTRDIFF_MAX. lia.
Defined.

Lemma alloc_matrix_spec_witness :
  let ao := align_up (off_bytes_ demo_used_arena) (scratch_align 8) in
  let bytes := 2 * 2 * 8 in
  off_bytes_ demo_used_arena <= ao <
  off_bytes_ demo_used_arena + scratch_align 8 /\
  ao mod scratch_align 8 = 0 /\
  (2 = 0 \/ 2 = 0 ->
   alloc_matrix 8 8 2 2 demo_used_arena =
   inr
     ({| data := nullptr; rows := 2; cols := 2; stride := 2 |},
      demo_used_arena)) /\
  (0 < 2 ->
   0 < 2 ->
   ao + bytes <= cap_bytes_ demo_used_arena ->
   alloc_matrix 8 8 2 2 demo_used_arena =
   inr
     ({|
        data := ptr_add (buf_ demo_used_arena) ao;
        rows := 2;
        cols := 2;
        stride := 2
      |},
      {|
        buf_ := buf_ demo_used_arena;
        cap_bytes_ := cap_bytes_ demo_used_arena;
        off_bytes_ := ao + bytes;
        hwm_bytes := Z.max (hwm_bytes demo_used_arena) (ao + bytes)
      |})) /\
  (0 < 2 ->
   0 < 2 ->
   cap_bytes_ demo_used_arena < ao + bytes ->
   alloc_matrix 8 8 2 2 demo_used_arena = inl bad_alloc).
Proof.
  apply (alloc_matrix_spec 8 8 eq_refl demo_align 2 2 demo_used_arena).
  - lia.
  - lia.
  - unfold PTRDIFF_MAX. lia.
  - unfold arena_ok, PTRDIFF_MAX. simpl. lia.
Defined.

Lemma successive_allocations_disjoint_witness :
  (forall p : ptr, In_view 8 demo_M1 p -> ~ In_view 8 demo_M2 p) /\
  (forall p : ptr,
   In_view 8 demo_M1 p \/ In_view 8 demo_M2 p ->
   blk p = blk (buf_ demo_arena) /\
   boff (buf_ demo_arena) + off_bytes_ demo_arena <= boff p /\
   boff p + 8 <= boff (buf_ demo_arena) + cap_bytes_ demo_arena).
Proof.
  apply (successive_allocations_disjoint 8 8 eq_refl demo_align 2 2 2 2
           demo_arena demo_used_arena demo_used_arena2 demo_M1 demo_M2).
  - lia.
  - lia.
  - lia.
  - lia.
  - unfold PTRDIFF_MAX. lia.
  - unfold PTRDIFF_MAX. lia.
  - unfold arena_ok, PTRDIFF_MAX. simpl. lia.
  - reflexivity.
  - reflexivity.
Defined.

Lemma rollback_to_mark_reuses_witness :
  exists b b' : ScratchArena,
  rollback (mark demo_arena) demo_used_arena = inr b /\
  used_bytes b = used_bytes demo_arena /\
  buf_ b = buf_ demo_arena /\
  capacity_bytes b = capacity_bytes demo_arena /\
  alloc_matrix 8 8 2 2 b = inr (demo_M1, b') /\
  used_bytes b' = used_bytes demo_used_arena.
Proof.
  apply (rollback_to_mark_reuses 8 8 eq_refl demo_align 2 2 demo_arena
           demo_used_arena demo_M1).
  - lia.
  - lia.
  - unfold PTRDIFF_MAX. lia.
  - unfold arena_ok, PTRDIFF_MAX. simpl. lia.
  - reflexivity.
Defined.

Lemma gemm_naive_product_witness :
  exists s' : state Z,
  gemm_naive Z 0 Z.add Z.mul 8 demo_A23 demo_B32 demo_C2 true demo_state =
  Ok tt s' /\
  (forall i j : Z,
   0 <= i < rows demo_A23 ->
   0 <= j < cols demo_B32 ->
   load Z (heap Z s') (elem_ptr 8 demo_C2 i j) =
   sumn Z 0 Z.add
     (fun p : Z =>
      load Z (heap Z demo_state) (elem_ptr 8 demo_A23 i p) *
      load Z (heap Z demo_state) (elem_ptr 8 demo_B32 p j))
     (Z.to_nat (cols demo_A23))) /\
  (forall p : ptr,
   ~ In_view 8 demo_C2 p ->
   load Z (heap Z s') p = load Z (heap Z demo_state) p) /\
  arena Z s' = arena Z demo_state /\
  mul (counter Z s') =
  wrap
    (mul (counter Z demo_state) +
     tick true (rows demo_A23 * cols demo_B32 * cols demo_A23)) /\
  add (counter Z s') =
  wrap
    (add (counter Z demo_state) +
     tick true
       (rows demo_A23 * cols demo_B32 *
        (if cols demo_A23 =? 0 then 0 else cols demo_A23 - 1))).
Proof.
  apply (gemm_naive_product Z 0 Z.add Z.sub Z.mul 8 eq_refl 1 Z.opp Zth
           demo_A23 demo_B32 demo_C2 true demo_state).
  - reflexivity.
  - reflexivity.
  - reflexivity.
  - simpl. lia.
  - simpl. lia.
  - simpl. lia.
  - unfold view_fits, PTRDIFF_MAX. simpl. lia.
  - apply demo_blocks_disjoint. simpl. lia.
  - apply demo_blocks_disjoint. simpl. lia.
  - exact demo_counter_ok.
Defined.

Lemma mat_add_sub_elementwise_witness :
  (exists s' : state Z,
     mat_add Z Z.add 8 demo_A2 demo_B2 demo_C2 true demo_state = Ok tt s' /\
     (forall i j : Z,
      0 <= i < rows demo_A2 ->
      0 <= j < cols demo_A2 ->
      load Z (heap Z s') (elem_ptr 8 demo_C2 i j) =
      load Z (heap Z demo_state) (elem_ptr 8 demo_A2 i j) +
      load Z (heap Z demo_state) (elem_ptr 8 demo_B2 i j)) /\
     (forall p : ptr,
      ~ In_view 8 demo_C2 p ->
      load Z (heap Z s') p = load Z (heap Z demo_state) p) /\
     mul (counter Z s') = mul (counter Z demo_state) /\
     add (counter Z s') =
     wrap
       (add (counter Z demo_state) +
        tick true (rows demo_A2 * cols demo_A2))) /\
  exists s' : state Z,
    mat_sub Z Z.sub 8 demo_A2 demo_B2 demo_C2 true demo_state = Ok tt s' /\
    (forall i j : Z,
     0 <= i < rows demo_A2 ->
     0 <= j < cols demo_A2 ->
     load Z (heap Z s') (elem_ptr 8 demo_C2 i j) =
     load Z (heap Z demo_state) (elem_ptr 8 demo_A2 i j) -
     load Z (heap Z demo_state) (elem_ptr 8 demo_B2 i j)) /\
    (forall p : ptr,
     ~ In_view 8 demo_C2 p ->
     load Z (heap Z s') p = load Z (heap Z demo_state) p) /\
    mul (counter Z s') = mul (counter Z demo_state) /\
    add (counter Z s') =
    wrap
      (add (counter Z demo_state) +
       tick true (rows demo_A2 * cols demo_A2)).
Proof.
  apply (mat_add_sub_elementwise Z Z.add Z.sub 8 eq_refl demo_A2 demo_B2
           demo_C2 true demo_state).
  - reflexivity.
  - reflexivity.
  - reflexivity.
  - reflexivity.
  - simpl. lia.
  - simpl. lia.
  - unfold view_fits, PTRDIFF_MAX. simpl. lia.
  - apply demo_blocks_disjoint. simpl. lia.
  - apply demo_blocks_disjoint. simpl. lia.
  - exact demo_counter_ok.
Defined.

Lemma strassen_rec_rejects_odd_witness :
  strassen_rec Z 0 Z.add Z.sub Z.mul 8 8 demo_A3 demo_B3 demo_C3 true 1
    demo_state =
  Throw invalid_argument demo_state.
Proof.
  apply (strassen_rec_rejects_odd Z 0 Z.add Z.sub Z.mul 8 8 demo_A3 demo_B3
           demo_C3 true 1 demo_state).
  - reflexivity.
  - reflexivity.
  - reflexivity.
  - reflexivity.
  - reflexivity.
  - simpl. lia.
  - reflexivity.
Defined.

Lemma pure_strassen_operation_counts_witness :
  exists s' : state Z,
  strassen_rec Z 0 Z.add Z.sub Z.mul 8 8 demo_A2 demo_B2 demo_C2 true 1
    demo_state =
  Ok tt s' /\
  mul (counter Z s') =
  wrap (mul (counter Z demo_state) + 7 ^ Z.of_nat 1) /\
  add (counter Z s') =
  wrap
    (add (counter Z demo_state) + 6 * (7 ^ Z.of_nat 1 - 4 ^ Z.of_nat 1)).
Proof.
  apply (pure_strassen_operation_counts Z 0 Z.add Z.sub Z.mul 8 8 eq_refl
           demo_align 1 demo_A2 demo_B2 demo_C2 demo_state).
  - exact demo_square2.
  - apply demo_separated2. reflexivity.
  - exact demo_counter_ok.
  - apply Z.leb_le. vm_compute. reflexivity.
  - unfold arena_ok, PTRDIFF_MAX. simpl. lia.
  - apply Z.leb_le. vm_compute. reflexivity.
Defined.

Lemma Matrix_new_fill_witness :
  exists (X : Matrix) (s1 s2 : state Z),
  Matrix_new Z 8 2 3 demo_state = Ok X s1 /\
  Matrix_fill Z 8 X 7 s1 = Ok tt s2 /\
  rows (Matrix_view X) = 2 /\
  cols (Matrix_view X) = 3 /\
  stride (Matrix_view X) = 3 /\
  arena Z s2 = arena Z demo_state /\
  counter Z s2 = counter Z demo_state /\
  (2 = 0 \/ 3 = 0 -> s2 = demo_state /\ data (Matrix_view X) = nullptr) /\
  (0 < 2 ->
   0 < 3 ->
   data (Matrix_view X) =
   {| blk := next_block Z demo_state; boff := 0 |} /\
   next_block Z s2 = next_block Z demo_state + 1 /\
   (forall p : ptr,
    blk p <> next_block Z demo_state ->
    load Z (heap Z s2) p = load Z (heap Z demo_state) p) /\
   (forall i j : Z,
    0 <= i < 2 ->
    0 <= j < 3 -> view_get Z 8 (Matrix_view X) i j s2 = Ok 7 s2)).
Proof.
  apply (Matrix_new_fill Z 8 eq_refl 2 3 7 demo_state).
  - lia.
  - lia.
  - unfold PTRDIFF_MAX. lia.
Defined.

Lemma subview_compose_witness :
  exists S S' : MatrixView,
  subview 8 demo_V 1 1 3 3 = inr S /\
  subview 8 S 1 1 2 2 = inr S' /\
  subview 8 demo_V (1 + 1) (1 + 1) 2 2 = inr S'.
Proof.
  apply (subview_compose 8 demo_V 1 1 3 3 1 1 2 2).
  - unfold view_fits, PTRDIFF_MAX. simpl. lia.
  - lia.
  - lia.
  - lia.
  - lia.
  - lia.
  - lia.
  - simpl. lia.
  - simpl. lia.
  - lia.
  - lia.
Defined.

Lemma subview_bounds_check_wraps_witness :
  (subview 8 demo_V 3 0 2 2 = inl invalid_argument <->
   rows demo_V < 3 + 2 \/ cols demo_V < 0 + 2) /\
  rows demo_V < 2 ^ 64 - 1 + 2 /\
  subview 8 demo_V (2 ^ 64 - 1) 0 2 2 <> inl invalid_argument.
Proof.
  split.
  - apply (proj1 (subview_bounds_check_wraps 8 demo_V 3 0 2 2
                    ltac:(unfold two64; lia) ltac:(unfold two64; lia)
                    ltac:(lia) ltac:(lia) ltac:(unfold two64; lia)
                    ltac:(unfold two64; simpl; lia))).
    unfold two64. lia.
  - apply (proj2 (subview_bounds_check_wraps 8 demo_V (2 ^ 64 - 1) 0 2 2
                    ltac:(unfold two64; lia) ltac:(unfold two64; lia)
                    ltac:(lia) ltac:(lia) ltac:(unfold two64; lia)
                    ltac:(unfold two64; simpl; lia))).
    + unfold two64. lia.
    + unfold two64. simpl. lia.
    + simpl. lia.
Defined.

Lemma bench_counts_match_kernels_witness :
  (exists sn' : state Z,
     gemm_naive Z 0 Z.add Z.mul 8 demo_A3 demo_B3 demo_C3 true demo_state =
     Ok tt sn' /\ ops_naive 3 = (mul (counter Z sn'), add (counter Z sn'))) /\
  exists s' : state Z,
    strassen_rec Z 0 Z.add Z.sub Z.mul 8 8 demo_A2 demo_B2 demo_C2 true 1
      demo_state =
    Ok tt s' /\
    ops_strassen (2 ^ Z.of_nat 1) 1 =
    Some (mul (counter Z s'), add (counter Z s')).
Proof.
  apply (bench_counts_match_kernels Z 0 Z.add Z.sub Z.mul 8 8 eq_refl
           demo_align 3 demo_A3 demo_B3 demo_C3 demo_state 1 demo_A2 demo_B2
           demo_C2 1 demo_state).
  - lia.
  - reflexivity.
  - reflexivity.
  - reflexivity.
  - reflexivity.
  - reflexivity.
  - reflexivity.
  - reflexivity.
  - reflexivity.
  - lia.
  - exact demo_square2.
  - apply demo_separated2. reflexivity.
  - apply Z.leb_le. vm_compute. reflexivity.
  - unfold arena_ok, PTRDIFF_MAX. simpl. lia.
  - apply Z.leb_le. vm_compute. reflexivity.
Defined.

Lemma sizes_pow2_up_to_spec_witness :
  sizes_pow2_up_to 20 = Some (map pow2_of (seq 1 (Z.to_nat (Z.log2 20)))).
Proof.
  apply (sizes_pow2_up_to_spec 20).
  - lia.
Defined.

Lemma sizes_pow2_up_to_never_returns_witness :
  (forall fuel : nat, largest_pow2_loop fuel 1 (2 ^ 63) = None) /\
  sizes_pow2_up_to (2 ^ 63) = None.
Proof.
  apply (sizes_pow2_up_to_never_returns (2 ^ 63)).
  - lia.
Defined.

Lemma fill_matrix_identity_witness :
  (rows demo_C2 <> cols demo_C2 ->
   fill_matrix Z 0 8 1 Z demo_draw demo_C2 Identity 0 demo_state =
   Throw invalid_argument demo_state) /\
  (rows demo_C2 = cols demo_C2 ->
   exists s' : state Z,
     fill_matrix Z 0 8 1 Z demo_draw demo_C2 Identity 0 demo_state =
     Ok tt s' /\
     (forall i j : Z,
      0 <= i < rows demo_C2 ->
      0 <= j < rows demo_C2 ->
      load Z (heap Z s') (elem_ptr 8 demo_C2 i j) =
      (if i =? j then 1 else 0)) /\
     (forall p : ptr,
      ~ In_view 8 demo_C2 p ->
      load Z (heap Z s') p = load Z (heap Z demo_state) p)).
Proof.
  apply (fill_matrix_identity Z 0 8 eq_refl 1 Z demo_draw demo_C2 0
           demo_state).
  - unfold view_fits, PTRDIFF_MAX. simpl. lia.
Defined.

Lemma fill_matrix_symmetric_witness :
  (rows demo_C3 <> cols demo_C3 ->
   fill_matrix Z 0 8 1 Z demo_draw demo_C3 SymmetricUniform 0 demo_state =
   Throw invalid_argument demo_state) /\
  (rows demo_C3 = cols demo_C3 ->
   exists s' : state Z,
     fill_matrix Z 0 8 1 Z demo_draw demo_C3 SymmetricUniform 0 demo_state =
     Ok tt s' /\
     (forall i j : Z,
      0 <= i < rows demo_C3 ->
      0 <= j < rows demo_C3 ->
      load Z (heap Z s') (elem_ptr 8 demo_C3 i j) =
      load Z (heap Z s') (elem_ptr 8 demo_C3 j i)) /\
     (forall p : ptr,
      ~ In_view 8 demo_C3 p ->
      load Z (heap Z s') p = load Z (heap Z demo_state) p)).
Proof.
  apply (fill_matrix_symmetric Z 0 8 eq_refl 1 Z demo_draw demo_C3
           SymmetricUniform 0 demo_state).
  - left. reflexivity.
  - unfold view_fits, PTRDIFF_MAX. simpl. lia.
Defined.

Lemma tracked_allocation_accounting_witness :
  let (b1, st1) :=
    AlignedBuffer_allocate_tracked 64 7 demo_buffer demo_stats in
  let (b2, st2) := AlignedBuffer_release b1 st1 in
  tracked_bytes_ b1 = 64 /\
  (is_null (ptr_ b1) = true <-> 64 = 0) /\
  current_bytes st1 = 100 + 64 /\
  peak_bytes st1 = Z.max (peak_bytes demo_stats) (100 + 64) /\
  b2 = {| ptr_ := nullptr; tracked_bytes_ := 0 |} /\
  current_bytes st2 = 100 /\
  peak_bytes st2 = peak_bytes st1 /\
  AlignedBuffer_release b2 st2 = (b2, st2).
Proof.
  apply (tracked_allocation_accounting 100 64 7 demo_buffer demo_stats).
  - lia.
  - simpl. lia.
  - lia.
  - lia.
  - intros _. reflexivity.
  - reflexivity.
  - simpl. lia.
  - unfold two64. simpl. lia.
  - unfold two64. simpl. lia.
Defined.

Lemma identity_is_right_neutral_witness :
  exists s1 s2 : state Z,
  fill_matrix Z 0 8 1 Z demo_draw demo_B2 Identity 0 demo_state =
  Ok tt s1 /\
  gemm_naive Z 0 Z.add Z.mul 8 demo_A2 demo_B2 demo_C2 true s1 =
  Ok tt s2 /\
  (forall i j : Z,
   0 <= i < rows demo_A2 ->
   0 <= j < cols demo_A2 ->
   load Z (heap Z s2) (elem_ptr 8 demo_C2 i j) =
   load Z (heap Z demo_state) (elem_ptr 8 demo_A2 i j)).
Proof.
  apply (identity_is_right_neutral Z 0 Z.add Z.sub Z.mul 8 eq_refl 1 Z.opp
           Zth Z demo_draw demo_A2 demo_B2 demo_C2 0 true demo_state).
  - reflexivity.
  - reflexivity.
  - reflexivity.
  - reflexivity.
  - simpl. lia.
  - unfold view_fits, PTRDIFF_MAX. simpl. lia.
  - unfold view_fits, PTRDIFF_MAX. simpl. lia.
  - apply demo_blocks_disjoint. simpl. lia.
  - apply demo_blocks_disjoint. simpl. lia.
  - apply demo_blocks_disjoint. simpl. lia.
  - exact demo_counter_ok.
Defined.

Lemma strassen_rec_failure_keeps_cursor_witness :
  let ao := align_up (off_bytes_ (arena Z (demo_state_with demo_small_arena)))
                     (scratch_align 8) in
  exists s' : state Z,
  strassen_rec Z 0 Z.add Z.sub Z.mul 8 8 demo_A2 demo_B2 demo_C2 true 1
    (demo_state_with demo_small_arena) =
  Throw bad_alloc s' /\
  heap Z s' = heap Z (demo_state_with demo_small_arena) /\
  counter Z s' = counter Z (demo_state_with demo_small_arena) /\
  off_bytes_ (arena Z s') = ao + mat_bytes 8 1 /\
  off_bytes_ (arena Z (demo_state_with demo_small_arena)) <
  off_bytes_ (arena Z s').
Proof.
  apply (strassen_rec_failure_keeps_cursor Z 0 Z.add Z.sub Z.mul 8 8 eq_refl
           demo_align 1 demo_A2 demo_B2 demo_C2 true 1 (demo_state_with
           demo_small_arena)).
  - lia.
  - lia.
  - reflexivity.
  - reflexivity.
  - reflexivity.
  - reflexivity.
  - reflexivity.
  - reflexivity.
  - apply Z.leb_le. vm_compute. reflexivity.
  - unfold arena_ok, PTRDIFF_MAX. simpl. lia.
  - cbv zeta. split; [apply Z.leb_le|apply Z.ltb_lt]; vm_compute; reflexivity.
Defined.
